(** * tokimun: the lexer, numeral conversion and the compile command

    A shallow embedding of the lexer ([Lexer], [Tokenize], [scanToken] and
    the scanners it dispatches to), of [ConvertNumber], and of the file loop
    of [handleCompile], followed by the properties of the specification that
    concern them.

    Go strings are byte sequences: a source text is a [list ascii], an index
    into it a [nat].  The lexer is a mutable cursor; every method becomes a
    function that takes the lexer and returns the updated one.  A method can
    end in four ways, collected in [outcome]. *)

From Stdlib Require Import String Ascii List Bool Arith ZArith Lia.
From Stdlib Require Import DecimalString.
From Stdlib Require DecimalZ DecimalPos.
Import ListNotations.

Local Open Scope char_scope.
Local Open Scope list_scope.

(** ** Outcomes *)

(** The errors built by the lexer with [fmt.Errorf]; each constructor is one
    format string, its arguments the values formatted into it. *)
Inductive LexError : Type :=
| UnexpectedChar (line : nat) (c : ascii)
    (* "line %d: unexpected character '%c'" *)
| UnexpectedTilde (line : nat)
    (* "line %d: unexpected character '~' (did you mean '~='?)" *)
| UnterminatedString (line : nat)
    (* "line %d: unterminated string" *)
| UnterminatedMultiline (line startLine : nat)
    (* "line %d: unterminated multiline string (started at line %d)" *)
| UnterminatedTemplate (line : nat).
    (* "line %d: unterminated template string" *)

(** The number printed after the leading "line " of the message. *)
Definition err_line (e : LexError) : nat :=
  match e with
  | UnexpectedChar n _ => n
  | UnexpectedTilde n => n
  | UnterminatedString n => n
  | UnterminatedMultiline n _ => n
  | UnterminatedTemplate n => n
  end.

Inductive outcome (A : Type) : Type :=
| Ok (a : A)            (* the method returns, with a nil error *)
| Err (e : LexError)    (* the method returns a non-nil error *)
| Panic                 (* run-time panic: index out of range *)
| OutOfFuel.            (* the loop bound of the model was reached *)

Arguments Ok {A} a.
Arguments Err {A} e.
Arguments Panic {A}.
Arguments OutOfFuel {A}.

Definition bind {A B : Type} (m : outcome A) (k : A -> outcome B) : outcome B :=
  match m with
  | Ok a => k a
  | Err e => Err e
  | Panic => Panic
  | OutOfFuel => OutOfFuel
  end.

Notation "x <- m ;; k" := (bind m (fun x => k))
  (at level 61, m at next level, right associativity).
Notation "' p <- m ;; k" := (bind m (fun x => match x with p => k end))
  (at level 61, p pattern, m at next level, right associativity).

(** ** Tokens *)

Inductive TokenType : Type :=
| TOKEN_NUMBER | TOKEN_STRING | TOKEN_TEMPLATE_STRING | TOKEN_IDENT
| TOKEN_TRUE | TOKEN_FALSE | TOKEN_NIL
| TOKEN_AND | TOKEN_BREAK | TOKEN_CONTINUE | TOKEN_CASE | TOKEN_DEFAULT
| TOKEN_DO | TOKEN_ELSE | TOKEN_ELSEIF | TOKEN_END | TOKEN_FOR
| TOKEN_FUNCTION | TOKEN_GLOBAL | TOKEN_GOTO | TOKEN_IF | TOKEN_IN
| TOKEN_LOCAL | TOKEN_NOT | TOKEN_OR | TOKEN_REPEAT | TOKEN_RETURN
| TOKEN_SWITCH | TOKEN_THEN | TOKEN_UNTIL | TOKEN_WHILE
| TOKEN_PLUS | TOKEN_MINUS | TOKEN_STAR | TOKEN_SLASH | TOKEN_PERCENT
| TOKEN_CARET | TOKEN_HASH | TOKEN_EQ | TOKEN_NEQ | TOKEN_LT | TOKEN_GT
| TOKEN_LE | TOKEN_GE | TOKEN_ASSIGN | TOKEN_LPAREN | TOKEN_RPAREN
| TOKEN_LBRACE | TOKEN_RBRACE | TOKEN_LBRACKET | TOKEN_RBRACKET
| TOKEN_SEMICOLON | TOKEN_COLON | TOKEN_DOUBLECOLON | TOKEN_COMMA
| TOKEN_DOT | TOKEN_DOTDOT | TOKEN_DOTDOTDOT | TOKEN_QUESTION_DOT
| TOKEN_DOUBLE_QUESTION
| TOKEN_PLUS_ASSIGN | TOKEN_MINUS_ASSIGN | TOKEN_STAR_ASSIGN
| TOKEN_SLASH_ASSIGN | TOKEN_PERCENT_ASSIGN | TOKEN_DOTDOT_ASSIGN
| TOKEN_NEWLINE | TOKEN_EOF | TOKEN_ERROR.

Definition str (s : string) : list ascii := list_ascii_of_string s.

(** The [keywords] map, as the table of its entries. *)
Definition keywords : list (string * TokenType) :=
  [ ("and", TOKEN_AND); ("break", TOKEN_BREAK); ("continue", TOKEN_CONTINUE);
    ("case", TOKEN_CASE); ("default", TOKEN_DEFAULT); ("do", TOKEN_DO);
    ("else", TOKEN_ELSE); ("elseif", TOKEN_ELSEIF); ("end", TOKEN_END);
    ("false", TOKEN_FALSE); ("for", TOKEN_FOR); ("function", TOKEN_FUNCTION);
    ("global", TOKEN_GLOBAL); ("goto", TOKEN_GOTO); ("if", TOKEN_IF);
    ("in", TOKEN_IN); ("local", TOKEN_LOCAL); ("nil", TOKEN_NIL);
    ("not", TOKEN_NOT); ("or", TOKEN_OR); ("repeat", TOKEN_REPEAT);
    ("return", TOKEN_RETURN); ("switch", TOKEN_SWITCH); ("then", TOKEN_THEN);
    ("true", TOKEN_TRUE); ("until", TOKEN_UNTIL); ("while", TOKEN_WHILE) ]%string.

(** [keywords[text]]: the value and whether the key is present. *)
Definition keywords_get (text : list ascii) : option TokenType :=
  match find (fun kv => String.eqb (fst kv) (string_of_list_ascii text)) keywords with
  | Some kv => Some (snd kv)
  | None => None
  end.

Record Token : Type := mkToken {
  Type_ : TokenType;
  Value : list ascii;
  Line : nat;
  Column : nat
}.

(** ** The lexer state *)

Record Lexer : Type := mkLexer {
  source : list ascii;
  tokens : list Token;
  start : nat;
  current : nat;
  line : nat;
  column : nat;
  startColumn : nat
}.

Definition NewLexer (src : list ascii) : Lexer :=
  mkLexer src [] 0 0 1 1 0.

Definition set_current (l : Lexer) (cur : nat) : Lexer :=
  mkLexer (source l) (tokens l) (start l) cur (line l) (column l) (startColumn l).

Definition set_line_column (l : Lexer) (ln col : nat) : Lexer :=
  mkLexer (source l) (tokens l) (start l) (current l) ln col (startColumn l).

Definition set_start (l : Lexer) (st stcol : nat) : Lexer :=
  mkLexer (source l) (tokens l) st (current l) (line l) (column l) stcol.

Definition set_tokens (l : Lexer) (ts : list Token) : Lexer :=
  mkLexer (source l) ts (start l) (current l) (line l) (column l) (startColumn l).

(** [s[i:j]]; every use in the lexer has [i <= j <= len(s)]. *)
Definition slice (s : list ascii) (i j : nat) : list ascii :=
  firstn (j - i) (skipn i s).

(** Byte order, for the range tests [c >= '0' && c <= '9']. *)
Definition ble (a b : ascii) : bool :=
  Nat.leb (nat_of_ascii a) (nat_of_ascii b).

Definition newline : ascii := "010".
Definition dquote : ascii := "034".
Definition squote : ascii := "'".
Definition backquote : ascii := "`".
Definition backslash : ascii := "\".

(** *** Cursor primitives *)

(** [l.current++; l.column++] *)
Definition bump (l : Lexer) : Lexer :=
  mkLexer (source l) (tokens l) (start l) (S (current l))
          (line l) (S (column l)) (startColumn l).

Definition isAtEnd (l : Lexer) : bool :=
  Nat.leb (length (source l)) (current l).

(** [l.source[l.current]] panics when the cursor is at the end. *)
Definition advance (l : Lexer) : outcome (ascii * Lexer) :=
  match nth_error (source l) (current l) with
  | Some c => Ok (c, bump l)
  | None => Panic
  end.

(** The index below is guarded by [isAtEnd], so it is in range. *)
Definition peek (l : Lexer) : ascii :=
  if isAtEnd l then zero else nth (current l) (source l) zero.

Definition peekNext (l : Lexer) : ascii :=
  if Nat.leb (length (source l)) (current l + 1) then zero
  else nth (current l + 1) (source l) zero.

(** [||] short-circuits: the byte is read only when not at the end. *)
Definition match_ (expected : ascii) (l : Lexer) : bool * Lexer :=
  if isAtEnd l || negb (nth (current l) (source l) zero =? expected)
  then (false, l)
  else (true, bump l).

Definition addTokenValue (tokenType : TokenType) (value : list ascii)
    (l : Lexer) : Lexer :=
  set_tokens l (tokens l ++ [mkToken tokenType value (line l) (startColumn l)]).

Definition addToken (tokenType : TokenType) (l : Lexer) : Lexer :=
  addTokenValue tokenType (slice (source l) (start l) (current l)) l.

Definition isDigit (c : ascii) : bool := ble "0" c && ble c "9".

Definition isHexDigit (c : ascii) : bool :=
  isDigit c || (ble "a" c && ble c "f") || (ble "A" c && ble c "F").

Definition isAlpha (c : ascii) : bool :=
  (ble "a" c && ble c "z") || (ble "A" c && ble c "Z") || (c =? "_").

Definition isAlphaNumeric (c : ascii) : bool := isAlpha c || isDigit c.

(** Every loop of the lexer moves the cursor forward at each turn and stops
    at the end of the source, so it runs at most [length source + 1] turns. *)
Definition fuel_of (l : Lexer) : nat := S (length (source l)).

Arguments fuel_of : simpl never.

(** ** Scanners *)

(** [for cond(l) { l.advance() }] *)
Fixpoint while_advance (cond : Lexer -> bool) (fuel : nat) (l : Lexer)
    : outcome Lexer :=
  match fuel with
  | O => OutOfFuel
  | S n =>
      if cond l then '(_, l1) <- advance l ;; while_advance cond n l1
      else Ok l
  end.

(** [for l.peek() != '\n' && !l.isAtEnd() { l.advance() }] *)
Definition skip_line (l : Lexer) : outcome Lexer :=
  while_advance (fun l => negb (peek l =? newline) && negb (isAtEnd l))
                (fuel_of l) l.

(** [for l.peek() == '=' { l.advance(); eqCount++ }] *)
Fixpoint count_eq (fuel : nat) (eqCount : nat) (l : Lexer)
    : outcome (nat * Lexer) :=
  match fuel with
  | O => OutOfFuel
  | S n =>
      if peek l =? "=" then '(_, l1) <- advance l ;; count_eq n (S eqCount) l1
      else Ok (eqCount, l)
  end.

(** [for l.peek() == '=' && matchEq < eqCount { l.advance(); matchEq++ }] *)
Fixpoint match_eq (fuel : nat) (eqCount matchEq : nat) (l : Lexer)
    : outcome (nat * Lexer) :=
  match fuel with
  | O => OutOfFuel
  | S n =>
      if (peek l =? "=") && (matchEq <? eqCount)%nat
      then '(_, l1) <- advance l ;; match_eq n eqCount (S matchEq) l1
      else Ok (matchEq, l)
  end.

(** The newline bookkeeping at the head of the bracket and template loops:
    [if l.peek() == '\n' { l.line++; l.column = 0 }]. *)
Definition count_newline (l : Lexer) : Lexer :=
  if peek l =? newline then set_line_column l (S (line l)) 0 else l.

(** The loop of [comment] that looks for the closing bracket; the function
    returns from inside the loop on a match and after it at end of input. *)
Fixpoint comment_body (fuel : nat) (eqCount : nat) (l : Lexer)
    : outcome Lexer :=
  match fuel with
  | O => OutOfFuel
  | S n =>
      if negb (isAtEnd l) then
        let l := count_newline l in
        if peek l =? "]" then
          '(_, l) <- advance l ;;
          '(matchEq, l) <- match_eq (fuel_of l) eqCount 0 l ;;
          if (matchEq =? eqCount)%nat && (peek l =? "]")
          then '(_, l) <- advance l ;; Ok l
          else comment_body n eqCount l
        else
          '(_, l) <- advance l ;; comment_body n eqCount l
      else Ok l
  end.

Definition comment (l : Lexer) : outcome Lexer :=
  if (peek l =? "[") && ((peekNext l =? "[") || (peekNext l =? "=")) then
    '(_, l) <- advance l ;;
    '(eqCount, l) <- count_eq (fuel_of l) 0 l ;;
    if negb (peek l =? "[") then skip_line l
    else
      '(_, l) <- advance l ;;
      comment_body (fuel_of l) eqCount l
  else skip_line l.

Fixpoint string_loop (fuel : nat) (quote : ascii) (l : Lexer)
    : outcome Lexer :=
  match fuel with
  | O => OutOfFuel
  | S n =>
      if negb (peek l =? quote) && negb (isAtEnd l) then
        if peek l =? newline then Err (UnterminatedString (line l))
        else
          l <- (if peek l =? backslash
                then '(_, l1) <- advance l ;; Ok l1
                else Ok l) ;;
          '(_, l) <- advance l ;;
          string_loop n quote l
      else Ok l
  end.

Definition string_ (quote : ascii) (l : Lexer) : outcome Lexer :=
  l <- string_loop (fuel_of l) quote l ;;
  if isAtEnd l then Err (UnterminatedString (line l))
  else
    '(_, l) <- advance l ;;
    Ok (addTokenValue TOKEN_STRING (slice (source l) (start l) (current l)) l).

Fixpoint multiline_body (fuel : nat) (eqCount startLine : nat) (l : Lexer)
    : outcome Lexer :=
  match fuel with
  | O => OutOfFuel
  | S n =>
      if negb (isAtEnd l) then
        let l := count_newline l in
        if peek l =? "]" then
          let markPos := current l in
          '(_, l) <- advance l ;;
          '(matchEq, l) <- match_eq (fuel_of l) eqCount 0 l ;;
          if (matchEq =? eqCount)%nat && (peek l =? "]") then
            '(_, l) <- advance l ;;
            Ok (addTokenValue TOKEN_STRING
                  (slice (source l) (start l) (current l)) l)
          else multiline_body n eqCount startLine (set_current l (markPos + 1))
        else
          '(_, l) <- advance l ;; multiline_body n eqCount startLine l
      else Err (UnterminatedMultiline (line l) startLine)
  end.

Definition multilineString (l : Lexer) : outcome Lexer :=
  '(eqCount, l) <- count_eq (fuel_of l) 0 l ;;
  if negb (peek l =? "[") then
    Ok (addToken TOKEN_LBRACKET (set_current l (start l + 1)))
  else
    '(_, l) <- advance l ;;
    multiline_body (fuel_of l) eqCount (line l) l.

(** The brace-counting loop of an interpolation span; [builder] is the
    [strings.Builder] the bytes are written to. *)
Fixpoint template_interp (fuel : nat) (braceDepth : nat)
    (builder : list ascii) (l : Lexer) : outcome (list ascii * Lexer) :=
  match fuel with
  | O => OutOfFuel
  | S n =>
      if (0 <? braceDepth)%nat && negb (isAtEnd l) then
        '(c, l) <- advance l ;;
        let builder := builder ++ [c] in
        if c =? "{" then template_interp n (S braceDepth) builder l
        else if c =? "}" then template_interp n (braceDepth - 1) builder l
        else if c =? newline
        then template_interp n braceDepth builder
               (set_line_column l (S (line l)) 0)
        else template_interp n braceDepth builder l
      else Ok (builder, l)
  end.

Fixpoint template_loop (fuel : nat) (builder : list ascii) (l : Lexer)
    : outcome (list ascii * Lexer) :=
  match fuel with
  | O => OutOfFuel
  | S n =>
      if negb (peek l =? backquote) && negb (isAtEnd l) then
        let l := count_newline l in
        if peek l =? backslash then
          '(c, l) <- advance l ;;
          let builder := builder ++ [c] in
          if negb (isAtEnd l) then
            '(c, l) <- advance l ;;
            template_loop n (builder ++ [c]) l
          else template_loop n builder l
        else if (peek l =? "$") && (peekNext l =? "{") then
          '(c, l) <- advance l ;;
          let builder := builder ++ [c] in
          '(c, l) <- advance l ;;
          let builder := builder ++ [c] in
          '(builder, l) <- template_interp (fuel_of l) 1 builder l ;;
          template_loop n builder l
        else
          '(c, l) <- advance l ;;
          template_loop n (builder ++ [c]) l
      else Ok (builder, l)
  end.

Definition templateString (l : Lexer) : outcome Lexer :=
  let builder := [backquote] in
  '(builder, l) <- template_loop (fuel_of l) builder l ;;
  if isAtEnd l then Err (UnterminatedTemplate (line l))
  else
    '(_, l) <- advance l ;;
    let builder := builder ++ [backquote] in
    Ok (addTokenValue TOKEN_TEMPLATE_STRING builder l).

Definition peek_digits (l : Lexer) : bool := isDigit (peek l).

(** The decimal part of [number]: digits, fraction, exponent. *)
Definition number_decimal (l : Lexer) : outcome Lexer :=
  l <- while_advance peek_digits (fuel_of l) l ;;
  l <- (if (peek l =? ".") && isDigit (peekNext l) then
          '(_, l) <- advance l ;;
          while_advance peek_digits (fuel_of l) l
        else Ok l) ;;
  l <- (if (peek l =? "e") || (peek l =? "E") then
          '(_, l) <- advance l ;;
          l <- (if (peek l =? "+") || (peek l =? "-")
                then '(_, l1) <- advance l ;; Ok l1
                else Ok l) ;;
          while_advance peek_digits (fuel_of l) l
        else Ok l) ;;
  Ok (addToken TOKEN_NUMBER l).

(** [l.source[l.start]] is read without a guard. *)
Definition number (l : Lexer) : outcome Lexer :=
  match nth_error (source l) (start l) with
  | None => Panic
  | Some c0 =>
      if (c0 =? "0") && (current l <? length (source l))%nat then
        if (peek l =? "x") || (peek l =? "X") then
          '(_, l) <- advance l ;;
          l <- while_advance (fun l => isHexDigit (peek l)) (fuel_of l) l ;;
          Ok (addToken TOKEN_NUMBER l)
        else if (peek l =? "b") || (peek l =? "B") then
          '(_, l) <- advance l ;;
          l <- while_advance (fun l => (peek l =? "0") || (peek l =? "1"))
                 (fuel_of l) l ;;
          Ok (addToken TOKEN_NUMBER l)
        else if (peek l =? "o") || (peek l =? "O") then
          '(_, l) <- advance l ;;
          l <- while_advance (fun l => ble "0" (peek l) && ble (peek l) "7")
                 (fuel_of l) l ;;
          Ok (addToken TOKEN_NUMBER l)
        else number_decimal l
      else number_decimal l
  end.

Definition identifier (l : Lexer) : outcome Lexer :=
  l <- while_advance (fun l => isAlphaNumeric (peek l)) (fuel_of l) l ;;
  let text := slice (source l) (start l) (current l) in
  let tokenType :=
    match keywords_get text with
    | Some t => t
    | None => TOKEN_IDENT
    end in
  Ok (addToken tokenType l).

(** [if l.match('=') { l.addToken(yes) } else { l.addToken(no) }] *)
Definition match_add (expected : ascii) (yes no : TokenType) (l : Lexer)
    : outcome Lexer :=
  let '(m, l) := match_ expected l in
  if m then Ok (addToken yes l) else Ok (addToken no l).

(** The [switch c] of [scanToken], case by case in the order of the source. *)
Definition scanToken (l : Lexer) : outcome Lexer :=
  '(c, l) <- advance l ;;
  if c =? "(" then Ok (addToken TOKEN_LPAREN l)
  else if c =? ")" then Ok (addToken TOKEN_RPAREN l)
  else if c =? "{" then Ok (addToken TOKEN_LBRACE l)
  else if c =? "}" then Ok (addToken TOKEN_RBRACE l)
  else if c =? "[" then
    if (peek l =? "[") || (peek l =? "=") then multilineString l
    else Ok (addToken TOKEN_LBRACKET l)
  else if c =? "]" then Ok (addToken TOKEN_RBRACKET l)
  else if c =? ";" then Ok (addToken TOKEN_SEMICOLON l)
  else if c =? "," then Ok (addToken TOKEN_COMMA l)
  else if c =? "#" then Ok (addToken TOKEN_HASH l)
  else if c =? "^" then Ok (addToken TOKEN_CARET l)
  else if c =? "+" then match_add "=" TOKEN_PLUS_ASSIGN TOKEN_PLUS l
  else if c =? "-" then
    let '(m, l) := match_ "-" l in
    if m then comment l
    else match_add "=" TOKEN_MINUS_ASSIGN TOKEN_MINUS l
  else if c =? "*" then match_add "=" TOKEN_STAR_ASSIGN TOKEN_STAR l
  else if c =? "/" then match_add "=" TOKEN_SLASH_ASSIGN TOKEN_SLASH l
  else if c =? "%" then match_add "=" TOKEN_PERCENT_ASSIGN TOKEN_PERCENT l
  else if c =? "=" then match_add "=" TOKEN_EQ TOKEN_ASSIGN l
  else if c =? "!" then
    let '(m, l) := match_ "=" l in
    if m then Ok (addToken TOKEN_NEQ l)
    else Err (UnexpectedChar (line l) "!")
  else if c =? "~" then
    let '(m, l) := match_ "=" l in
    if m then Ok (addToken TOKEN_NEQ l)
    else Err (UnexpectedTilde (line l))
  else if c =? "<" then match_add "=" TOKEN_LE TOKEN_LT l
  else if c =? ">" then match_add "=" TOKEN_GE TOKEN_GT l
  else if c =? ":" then match_add ":" TOKEN_DOUBLECOLON TOKEN_COLON l
  else if c =? "." then
    let '(m, l) := match_ "." l in
    if m then
      let '(m, l) := match_ "." l in
      if m then Ok (addToken TOKEN_DOTDOTDOT l)
      else match_add "=" TOKEN_DOTDOT_ASSIGN TOKEN_DOTDOT l
    else if isDigit (peek l) then number l
    else Ok (addToken TOKEN_DOT l)
  else if c =? "?" then
    let '(m, l) := match_ "." l in
    if m then Ok (addToken TOKEN_QUESTION_DOT l)
    else
      let '(m, l) := match_ "?" l in
      if m then Ok (addToken TOKEN_DOUBLE_QUESTION l)
      else Err (UnexpectedChar (line l) "?")
  else if (c =? dquote) || (c =? squote) then string_ c l
  else if c =? backquote then templateString l
  else if c =? newline then Ok (set_line_column l (S (line l)) 1)
  else if (c =? " ") || (c =? "013") || (c =? "009") then Ok l
  else if isDigit c then number l
  else if isAlpha c then identifier l
  else Err (UnexpectedChar (line l) c).

(** One turn of the loop of [Tokenize]: mark the token start, scan. *)
Definition scan_step (l : Lexer) : outcome Lexer :=
  scanToken (set_start l (current l) (column l)).

Fixpoint Tokenize_loop (fuel : nat) (l : Lexer) : outcome Lexer :=
  match fuel with
  | O => OutOfFuel
  | S n =>
      if negb (isAtEnd l) then l1 <- scan_step l ;; Tokenize_loop n l1
      else Ok l
  end.

Definition Tokenize (l : Lexer) : outcome (list Token) :=
  l <- Tokenize_loop (fuel_of l) l ;;
  Ok (tokens l ++ [mkToken TOKEN_EOF [] (line l) (column l)]).

(** [NewLexer(source).Tokenize()], the lexing stage of [Compile]. *)
Definition tokenize (src : list ascii) : outcome (list Token) :=
  Tokenize (NewLexer src).

Definition kinds (r : outcome (list Token)) : outcome (list TokenType) :=
  ts <- r ;; Ok (map Type_ ts).

(** ** Numeral conversion *)

(** *** [strconv], as far as [ConvertNumber] uses it

    [strconv.ParseInt] and [strconv.FormatInt] belong to the Go standard
    library.  They are written here after the library's code for the
    calls [ConvertNumber] makes: an explicit base between 2 and 36 (so no
    prefix detection and no underscores) and a bit size of 64.  A [uint64]
    is a [Z] with the overflow tests of the library spelled out. *)

Inductive NumError : Type := ErrSyntax | ErrRange.

(** [lower(c)]: [c | ('x' - 'X')] *)
Definition lower (c : ascii) : ascii :=
  ascii_of_N (N.lor (N_of_ascii c) 32).

Definition byte_val (c : ascii) : Z := Z.of_N (N_of_ascii c).

(** The digit a byte stands for, before the comparison with the base. *)
Definition digit_of (c : ascii) : option Z :=
  if ble "0" c && ble c "9" then Some (byte_val c - byte_val "0")%Z
  else if ble "a" (lower c) && ble (lower c) "z"
       then Some (byte_val (lower c) - byte_val "a" + 10)%Z
       else None.

Definition maxUint64 : Z := (2 ^ 64 - 1)%Z.

(** The loop of [ParseUint] over the bytes of [s]; [n] is the value read
    so far.  The result is the returned value with the returned error. *)
Fixpoint ParseUint_loop (base : Z) (n : Z) (s : list ascii)
    : Z * option NumError :=
  match s with
  | [] => (n, None)
  | c :: s' =>
      match digit_of c with
      | None => (0%Z, Some ErrSyntax)
      | Some d =>
          if (base <=? d)%Z then (0%Z, Some ErrSyntax)
          else if (maxUint64 / base + 1 <=? n)%Z
          then (maxUint64, Some ErrRange)       (* n*base overflows *)
          else
            let n1 := (n * base + d)%Z in
            if (maxUint64 <? n1)%Z
            then (maxUint64, Some ErrRange)     (* n+d overflows *)
            else ParseUint_loop base n1 s'
      end
  end.

Definition ParseUint (s : list ascii) (base : Z) : Z * option NumError :=
  match s with
  | [] => (0%Z, Some ErrSyntax)
  | _ :: _ => ParseUint_loop base 0 s
  end.

(** [ParseInt(s, base, 64)].  The conversion [int64(un)] followed by the
    negation wraps only for [un = 1<<63] with a minus sign, where it yields
    [-(1<<63)], the value [- un] has in [Z]. *)
Definition ParseInt (s : list ascii) (base : Z) : Z * option NumError :=
  match s with
  | [] => (0%Z, Some ErrSyntax)
  | c0 :: s1 =>
      let neg := c0 =? "-" in
      let s' := if (c0 =? "+") || (c0 =? "-") then s1 else s in
      let '(un, err) := ParseUint s' base in
      match err with
      | Some ErrSyntax => (0%Z, err)
      | _ =>
          let cutoff := (2 ^ 63)%Z in
          if negb neg && (cutoff <=? un)%Z then ((cutoff - 1)%Z, Some ErrRange)
          else if neg && (cutoff <? un)%Z then ((- cutoff)%Z, Some ErrRange)
          else ((if neg then - un else un)%Z, None)
      end
  end.

(** [FormatInt(n, 10)]: the decimal digits of [n], with a minus sign for a
    negative [n]. *)
Definition FormatInt (n : Z) : list ascii :=
  list_ascii_of_string (NilZero.string_of_int (Z.to_int n)).

(** *** [ConvertNumber] *)

(** The pair [(string, error)] a Go function returns: the error is nil
    ([Success]) or a message ([Failure]). *)
Inductive result (A : Type) : Type :=
| Success (a : A)
| Failure (msg : list ascii).

Arguments Success {A} a.
Arguments Failure {A} msg.

Definition ConvertNumber (value : list ascii) : result (list ascii) :=
  match value with
  | v0 :: v1 :: digits =>
      if v0 =? "0" then
        if (v1 =? "b") || (v1 =? "B") then
          match ParseInt digits 2 with
          | (n, None) => Success (FormatInt n)
          | (_, Some _) => Failure (str "invalid binary literal: " ++ value)
          end
        else if (v1 =? "o") || (v1 =? "O") then
          match ParseInt digits 8 with
          | (n, None) => Success (FormatInt n)
          | (_, Some _) => Failure (str "invalid octal literal: " ++ value)
          end
        else if (v1 =? "x") || (v1 =? "X") then Success value
        else Success value
      else Success value
  | _ => Success value       (* len(value) < 2 *)
  end.

(** ** Error messages *)

(** [%c] applied to a byte prints the code point of that value, in UTF-8. *)
Definition fmt_c (c : ascii) : list ascii :=
  let n := N_of_ascii c in
  if (n <? 128)%N then [c]
  else [ascii_of_N (N.lor 192 (N.shiftr n 6));
        ascii_of_N (N.lor 128 (N.land n 63))].

Definition fmt_d (n : nat) : list ascii := FormatInt (Z.of_nat n).

(** [err.Error()] for the errors of the lexer. *)
Definition Error (e : LexError) : list ascii :=
  match e with
  | UnexpectedChar ln c =>
      str "line " ++ fmt_d ln ++ str ": unexpected character '" ++ fmt_c c
        ++ str "'"
  | UnexpectedTilde ln =>
      str "line " ++ fmt_d ln
        ++ str ": unexpected character '~' (did you mean '~='?)"
  | UnterminatedString ln =>
      str "line " ++ fmt_d ln ++ str ": unterminated string"
  | UnterminatedMultiline ln startLine =>
      str "line " ++ fmt_d ln
        ++ str ": unterminated multiline string (started at line "
        ++ fmt_d startLine ++ str ")"
  | UnterminatedTemplate ln =>
      str "line " ++ fmt_d ln ++ str ": unterminated template string"
  end.

(** ** The compile command *)

Definition eqs (a b : list ascii) : bool :=
  if list_eq_dec ascii_dec a b then true else false.

Definition HasPrefix (s prefix : list ascii) : bool :=
  eqs (firstn (length prefix) s) prefix.

Definition HasSuffix (s suffix : list ascii) : bool :=
  (length suffix <=? length s)%nat
  && eqs (skipn (length s - length suffix) s) suffix.

Definition TrimSuffix (s suffix : list ascii) : list ascii :=
  if HasSuffix s suffix then firstn (length s - length suffix) s else s.

Record CompileOptions : Type := mkOptions {
  OutputFile : list ascii;
  PrintOnly : bool;
  Quiet : bool;
  ToStdout : bool
}.

(** How a command ends: it returns to [main], or leaves through
    [os.Exit(code)]. *)
Inductive ending : Type :=
| Returns
| Exits (code : nat).

Section Driver.

(** The operating system and the stages after the lexer are outside the
    source files at hand; the command is written over them.  [OS] is the
    state of the file system. *)
Variable OS : Type.
Variable ReadFile : OS -> list ascii -> result (list ascii).
Variable WriteFile :
  OS -> list ascii -> list ascii -> OS * option (list ascii).
Variable Glob : OS -> list ascii -> result (list (list ascii)).
(** [NewCompiler(tokens).Compile()] *)
Variable compiler_Compile : list Token -> result (list ascii).

(** The process: the file system, what was printed, and, as a record of
    the run, the inputs [compileFile] was called on, in order. *)
Record World : Type := mkWorld {
  os : OS;
  stdout : list ascii;
  stderr : list ascii;
  attempted : list (list ascii)
}.

Definition print (s : list ascii) (w : World) : World :=
  mkWorld (os w) (stdout w ++ s) (stderr w) (attempted w).

Definition eprint (s : list ascii) (w : World) : World :=
  mkWorld (os w) (stdout w) (stderr w ++ s) (attempted w).

Definition set_os (o : OS) (w : World) : World :=
  mkWorld o (stdout w) (stderr w) (attempted w).

Definition attempt (inputPath : list ascii) (w : World) : World :=
  mkWorld (os w) (stdout w) (stderr w) (attempted w ++ [inputPath]).

(** [Compile]: the lexer, then the compiler on its tokens.  A panic of
    the lexer is not recovered. *)
Definition Compile (source : list ascii) : outcome (result (list ascii)) :=
  match tokenize source with
  | Ok tokens => Ok (compiler_Compile tokens)
  | Err e => Ok (Failure (Error e))
  | Panic => Panic
  | OutOfFuel => OutOfFuel
  end.

Definition check_mark : list ascii := ["226"; "156"; "147"].
Definition arrow : list ascii := ["226"; "134"; "146"].

(** [compileFile]; the returned option is the error, [None] for nil. *)
Definition compileFile (inputPath : list ascii) (opts : CompileOptions)
    (w : World) : outcome (World * option (list ascii)) :=
  let w := attempt inputPath w in
  if negb (HasSuffix inputPath (str ".tkm")) then
    Ok (w, Some (str "'" ++ inputPath ++ str "' is not a .tkm file"))
  else
    match ReadFile (os w) inputPath with
    | Failure err =>
        Ok (w, Some (str "cannot read '" ++ inputPath ++ str "': " ++ err))
    | Success src =>
        r <- Compile src ;;
        match r with
        | Failure err => Ok (w, Some (inputPath ++ str ": " ++ err))
        | Success output =>
            if PrintOnly opts || ToStdout opts then Ok (print output w, None)
            else
              let outputPath :=
                if eqs (OutputFile opts) []
                then TrimSuffix inputPath (str ".tkm") ++ str ".lua"
                else OutputFile opts in
              match WriteFile (os w) outputPath output with
              | (o, Some err) =>
                  Ok (set_os o w,
                      Some (str "cannot write '" ++ outputPath ++ str "': "
                              ++ err))
              | (o, None) =>
                  let w := set_os o w in
                  if negb (Quiet opts)
                  then Ok (print (check_mark ++ str " " ++ inputPath
                                    ++ str " " ++ arrow ++ str " "
                                    ++ outputPath ++ [newline]) w, None)
                  else Ok (w, None)
              end
        end
    end.

(** [fatal]: the message on standard error, then [os.Exit(1)]. *)
Definition fatal (msg : list ascii) (w : World) : World * ending :=
  (eprint (msg ++ [newline]) w, Exits 1).

(** [parseCompileOptions]: the files and options, or the message of the
    [fatal] call that ends the process. *)
Fixpoint parseCompileOptions (args : list (list ascii))
    (files : list (list ascii)) (opts : CompileOptions)
    : result (list (list ascii) * CompileOptions) :=
  match args with
  | [] => Success (files, opts)
  | arg :: args' =>
      if eqs arg (str "-o") || eqs arg (str "--output") then
        match args' with
        | out :: args'' =>
            parseCompileOptions args'' files
              (mkOptions out (PrintOnly opts) (Quiet opts) (ToStdout opts))
        | [] => Failure (str "error: -o requires an output file argument")
        end
      else if eqs arg (str "-p") || eqs arg (str "--print") then
        parseCompileOptions args' files
          (mkOptions (OutputFile opts) true (Quiet opts) (ToStdout opts))
      else if eqs arg (str "-q") || eqs arg (str "--quiet") then
        parseCompileOptions args' files
          (mkOptions (OutputFile opts) (PrintOnly opts) true (ToStdout opts))
      else if eqs arg (str "--stdout") then
        parseCompileOptions args' files
          (mkOptions (OutputFile opts) (PrintOnly opts) (Quiet opts) true)
      else if HasPrefix arg (str "-") then
        Failure (str "error: unknown option '" ++ arg ++ str "'")
      else parseCompileOptions args' (files ++ [arg]) opts
  end.

(** The glob loop of [handleCompile]: the expanded list, or the message
    of the [fatal] call. *)
Fixpoint expand_globs (o : OS) (files : list (list ascii))
    (expandedFiles : list (list ascii)) : result (list (list ascii)) :=
  match files with
  | [] => Success expandedFiles
  | pattern :: files' =>
      match Glob o pattern with
      | Failure err =>
          Failure (str "error: invalid file pattern '" ++ pattern
                     ++ str "': " ++ err)
      | Success matches =>
          match matches with
          | [] => expand_globs o files' (expandedFiles ++ [pattern])
          | _ :: _ => expand_globs o files' (expandedFiles ++ matches)
          end
      end
  end.

(** The last loop of [handleCompile], over the expanded list. *)
Fixpoint compile_each (expandedFiles : list (list ascii))
    (opts : CompileOptions) (w : World) : outcome (World * ending) :=
  match expandedFiles with
  | [] => Ok (w, Returns)
  | file :: files' =>
      '(w, err) <- compileFile file opts w ;;
      match err with
      | Some e => Ok (eprint (str "error: " ++ e ++ [newline]) w, Exits 1)
      | None => compile_each files' opts w
      end
  end.

Definition handleCompile (args : list (list ascii)) (w : World)
    : outcome (World * ending) :=
  match parseCompileOptions args [] (mkOptions [] false false false) with
  | Failure msg => Ok (fatal msg w)
  | Success (files, opts) =>
      match files with
      | [] =>
          Ok (fatal (str "error: no input files specified" ++ [newline; newline]
                       ++ str "Usage: tokimun compile <file.tkm> [options]") w)
      | _ :: _ =>
          match expand_globs (os w) files [] with
          | Failure msg => Ok (fatal msg w)
          | Success expandedFiles => compile_each expandedFiles opts w
          end
      end
  end.

End Driver.

Arguments mkWorld {OS} _ _ _ _.
Arguments print {OS} _ _.
Arguments eprint {OS} _ _.
Arguments set_os {OS} _ _.
Arguments attempt {OS} _ _.
Arguments os {OS} _.
Arguments stdout {OS} _.
Arguments stderr {OS} _.
Arguments attempted {OS} _.

(** * The specification's vocabulary

    The shapes of input the specification speaks of, as definitions on
    the text itself, to state what the scanners do on them. *)

(** [[=*[]: the opening long bracket of level [n]. *)
Definition opener (n : nat) : list ascii := "[" :: repeat "=" n ++ ["["].

(** []=*]]: the closing long bracket of level [n]. *)
Definition closer (n : nat) : list ascii := "]" :: repeat "=" n ++ ["]"].

(** No closing bracket of level [n] anywhere in [body]. *)
Definition no_close (n : nat) (body : list ascii) : Prop :=
  forall pre post, body <> pre ++ closer n ++ post.

(** The number of bytes before the next newline, or to the end. *)
Fixpoint until_newline (s : list ascii) : nat :=
  match s with
  | [] => 0
  | c :: s' => if c =? newline then 0 else S (until_newline s')
  end.

(** The number of newlines in a text. *)
Definition newlines (s : list ascii) : nat := count_occ ascii_dec s newline.

(** Where a template string ends.  [s] is the text after the opening
    back-quote and [depth] the number of braces open in an interpolation
    span, 0 in the text of the string.  The result is the number of bytes
    up to and including the closing back-quote, [None] when the input ends
    first.  In the text a backslash takes the next byte with it and [${]
    opens a span; in a span only braces count. *)
Fixpoint template_end (depth : nat) (s : list ascii) : option nat :=
  match s with
  | [] => None
  | c :: s' =>
      match depth with
      | O =>
          if c =? backquote then Some 1
          else if c =? backslash then
            match s' with
            | [] => None
            | _ :: s'' => option_map (Nat.add 2) (template_end 0 s'')
            end
          else
            match s' with
            | c' :: s'' =>
                if (c =? "$") && (c' =? "{")
                then option_map (Nat.add 2) (template_end 1 s'')
                else option_map S (template_end 0 s')
            | [] => None
            end
      | S d =>
          if c =? "{" then option_map S (template_end (S depth) s')
          else if c =? "}" then option_map S (template_end d s')
          else option_map S (template_end depth s')
      end
  end.

(** The token kind of a two-byte operator that begins with [!], [~] or
    [?], if the two bytes form one. *)
Definition digraph_kind (c d : ascii) : option TokenType :=
  if (c =? "!") && (d =? "=") then Some TOKEN_NEQ
  else if (c =? "~") && (d =? "=") then Some TOKEN_NEQ
  else if (c =? "?") && (d =? ".") then Some TOKEN_QUESTION_DOT
  else if (c =? "?") && (d =? "?") then Some TOKEN_DOUBLE_QUESTION
  else None.

(** The value of a digit string in a base, most significant digit first. *)
Definition digits_value (base : Z) (ds : list ascii) : Z :=
  fold_left (fun acc c => (acc * base + (byte_val c - byte_val "0"))%Z) ds 0%Z.

(** [c] is a digit of the base, for a base up to ten. *)
Definition is_digit_of (base : Z) (c : ascii) : bool :=
  ble "0" c && (byte_val c - byte_val "0" <? base)%Z.

(** * Predicates of the proofs *)

(** The input still to be read, and the invariant of the cursor. *)
Definition rest (l : Lexer) : list ascii := skipn (current l) (source l).

Definition wf (l : Lexer) : Prop := current l <= length (source l).

(** [safe Q m]: [m] does not exhaust its fuel, and a normal return
    satisfies [Q].  Errors and panics end the scan and are allowed here. *)
Definition safe {A : Type} (Q : A -> Prop) (m : outcome A) : Prop :=
  match m with
  | Ok a => Q a
  | Err _ => True
  | Panic => True
  | OutOfFuel => False
  end.

(** [moved l l']: the cursor went forward and nothing else of note changed. *)
Definition moved (l l' : Lexer) : Prop :=
  source l' = source l /\ length (source l') = length (source l) /\
  start l' = start l /\ startColumn l' = startColumn l /\
  tokens l' = tokens l /\
  current l <= current l' /\ current l' <= length (source l).

(** The kinds that are declared but that no scanner produces. *)
Definition is_sentinel (t : TokenType) : bool :=
  match t with
  | TOKEN_NEWLINE | TOKEN_EOF | TOKEN_ERROR => true
  | _ => false
  end.

(** [emits l l']: from [l], whose token began at [start l], the scanner
    reached [l'] past that start and appended at most one token. *)
Definition emits (l l' : Lexer) : Prop :=
  source l' = source l /\ length (source l') = length (source l) /\
  start l < current l' /\ current l' <= length (source l) /\
  (tokens l' = tokens l \/
   exists t, tokens l' = tokens l ++ [t] /\ is_sentinel (Type_ t) = false).

(** What one turn of the loop of [Tokenize] does to the lexer. *)
Definition stepped (l l' : Lexer) : Prop :=
  source l' = source l /\
  current l < current l' /\ current l' <= length (source l) /\
  (tokens l' = tokens l \/
   exists t, tokens l' = tokens l ++ [t] /\ is_sentinel (Type_ t) = false).

Definition real_tokens (ts : list Token) : Prop :=
  Forall (fun t => is_sentinel (Type_ t) = false) ts.

(** [scan_to n l l']: the cursor went [n] bytes forward; source, tokens
    and token start are as before. *)
Definition scan_to (n : nat) (l l' : Lexer) : Prop :=
  source l' = source l /\ tokens l' = tokens l /\ start l' = start l /\
  startColumn l' = startColumn l /\ current l' = current l + n.

(** The number of [=] at the head of [s], up to [k]. *)
Fixpoint eq_run (k : nat) (s : list ascii) : nat :=
  match k, s with
  | S k', c :: s' => if c =? "=" then S (eq_run k' s') else 0
  | _, _ => 0
  end.

(** The line counter moves with the newlines read: what it gained is
    bounded by the newlines passed. *)
Definition lines_kept (l l' : Lexer) : Prop :=
  line l <= line l' /\
  line l' + newlines (rest l') <= line l + newlines (rest l).

(** What the loop of [templateString] returns, read off [template_end]. *)
Definition template_loop_post (b : list ascii) (l : Lexer)
    (res : outcome (list ascii * Lexer)) : Prop :=
  match template_end 0 (rest l) with
  | Some k =>
      exists l',
        res = Ok (b ++ firstn (k - 1) (rest l), l') /\
        scan_to (k - 1) l l' /\ lines_kept l l' /\
        hd_error (rest l') = Some backquote
  | None =>
      exists b' l', res = Ok (b', l') /\ rest l' = [] /\ lines_kept l l'
  end.

(** Space, carriage return, tab and newline. *)
Definition is_blank (c : ascii) : bool :=
  (c =? " ") || (c =? "013") || (c =? "009") || (c =? newline).

Definition digits_from (base : Z) (n : Z) (ds : list ascii) : Z :=
  fold_left (fun acc c => (acc * base + (byte_val c - byte_val "0"))%Z) ds n.

(** ** Vocabulary of the further properties *)

(** [post Q E P m]: a normal return satisfies [Q], a returned error
    satisfies [E], a panic happens only under [P], and the loop bound is
    not reached. *)
Definition post {A : Type} (Q : A -> Prop) (E : LexError -> Prop) (P : Prop)
    (m : outcome A) : Prop :=
  match m with
  | Ok a => Q a
  | Err e => E e
  | Panic => P
  | OutOfFuel => False
  end.

(** [kept l l']: the cursor went forward within the input, the line counter
    moved with the newlines read, and nothing else changed. *)
Definition kept (l l' : Lexer) : Prop :=
  exists n, scan_to n l l' /\ n <= length (rest l) /\ lines_kept l l'.

(** The line of an error raised from [l] on: between the line of [l] and
    that line plus the newlines still to be read. *)
Definition err_in (l : Lexer) (e : LexError) : Prop :=
  line l <= err_line e <= line l + newlines (rest l).

(** [emit k l l']: the scanner went forward and then added the token of
    kind [k] for the text from the token start to the cursor. *)
Definition emit (k : TokenType) (l l' : Lexer) : Prop :=
  exists l1, kept l l1 /\ l' = addToken k l1.

(** The length of the longest prefix whose bytes satisfy [p]. *)
Fixpoint span_len (p : ascii -> bool) (s : list ascii) : nat :=
  match s with
  | [] => 0
  | c :: s' => if p c then S (span_len p s') else 0
  end.

(** Where a quoted string ends.  [s] is the text after the opening quote
    [q].  [Closed k]: the closing quote is the [k]-th byte.  [Unclosed]: a
    newline or the end of the input comes first.  [Overrun]: the input ends
    right after a backslash. *)
Inductive quoted : Type :=
| Closed (k : nat)
| Unclosed
| Overrun.

Definition quoted_shift (j : nat) (r : quoted) : quoted :=
  match r with
  | Closed k => Closed (j + k)
  | Unclosed => Unclosed
  | Overrun => Overrun
  end.

Fixpoint quoted_end (q : ascii) (s : list ascii) : quoted :=
  match s with
  | [] => Unclosed
  | c :: s' =>
      if c =? q then Closed 1
      else if c =? newline then Unclosed
      else if c =? backslash then
        match s' with
        | [] => Overrun
        | _ :: s'' => quoted_shift 2 (quoted_end q s'')
        end
      else quoted_shift 1 (quoted_end q s')
  end.

(** [n] calls of [advance]. *)
Definition bumps (n : nat) (l : Lexer) : Lexer := Nat.iter n bump l.

(** What a turn of the loop of [Tokenize] does: at least one byte is read,
    and the token list is as before or longer by one token, whose value is
    the bytes read, whose line is the line reached and whose column is the
    column the turn began at. *)
Definition turn (l l' : Lexer) : Prop :=
  source l' = source l /\
  exists n,
    current l' = current l + n /\ 1 <= n <= length (rest l) /\
    lines_kept l l' /\
    (tokens l' = tokens l \/
     exists k,
       is_sentinel k = false /\
       tokens l' = tokens l ++
         [mkToken k (firstn n (rest l)) (line l') (column l)]).

(** [sub] occurs in [s] as a block of consecutive bytes. *)
Definition substring (sub s : list ascii) : Prop :=
  exists pre post, s = pre ++ sub ++ post.

(** A list of numbers that never goes down. *)
Fixpoint nondecreasing (xs : list nat) : Prop :=
  match xs with
  | [] => True
  | x :: xs' => Forall (fun y => x <= y) xs' /\ nondecreasing xs'
  end.

(** The invariant of the loop of [Tokenize] on the source [src]. *)
Definition lexing (src : list ascii) (l : Lexer) : Prop :=
  source l = src /\ 1 <= line l /\
  line l + newlines (rest l) <= 1 + newlines src /\
  Forall (fun t => 1 <= Line t <= line l) (tokens l) /\
  nondecreasing (map Line (tokens l)) /\
  Forall (fun t => is_sentinel (Type_ t) = false /\ Value t <> [] /\
                   substring (Value t) src) (tokens l).

(** The text before the first closing bracket: [body] followed by the
    closing bracket less its last byte has no closing bracket in it. *)
Definition closes_first (n : nat) (body : list ascii) : Prop :=
  no_close n (body ++ "]" :: repeat "=" n).

(** The digits a based literal may have after its prefix [0x], [0b] or
    [0o], upper or lower case. *)
Definition base_digit (p : ascii) : option (ascii -> bool) :=
  if (p =? "x") || (p =? "X") then Some isHexDigit
  else if (p =? "b") || (p =? "B")
  then Some (fun c => (c =? "0") || (c =? "1"))
  else if (p =? "o") || (p =? "O")
  then Some (fun c => ble "0" c && ble c "7")
  else None.

(** The base a binary or octal prefix letter announces. *)
Definition prefix_base (p : ascii) : option Z :=
  if (p =? "b") || (p =? "B") then Some 2%Z
  else if (p =? "o") || (p =? "O") then Some 8%Z
  else None.

(** The message of [ConvertNumber] for a literal it rejects. *)
Definition invalid_literal (base : Z) (value : list ascii) : list ascii :=
  (if (base =? 2)%Z then str "invalid binary literal: "
   else str "invalid octal literal: ") ++ value.

(** The three parts of a decimal literal, as lengths of text.  The
    fraction is a dot, one digit and the digits after it.  The exponent is
    the letter [e] or [E], one sign if there is one, and the digits after
    it, of which there may be none. *)
Definition fraction_len (s : list ascii) : nat :=
  match s with
  | dot :: d :: s' =>
      if (dot =? ".") && isDigit d then 2 + span_len isDigit s' else 0
  | _ => 0
  end.

Definition exponent_len (s : list ascii) : nat :=
  match s with
  | e :: s1 =>
      if (e =? "e") || (e =? "E") then
        match s1 with
        | sg :: s2 =>
            if (sg =? "+") || (sg =? "-") then 2 + span_len isDigit s2
            else 1 + span_len isDigit s1
        | [] => 1
        end
      else 0
  | [] => 0
  end.

Definition decimal_len (s : list ascii) : nat :=
  let d := span_len isDigit s in
  let f := fraction_len (skipn d s) in
  d + f + exponent_len (skipn (d + f) s).

(** An argument that begins with a dash. *)
Definition dashed (arg : list ascii) : bool := HasPrefix arg (str "-").

(** What a file pattern stands for: its matches, or the pattern itself
    when nothing matches. *)
Definition matches_or_literal {OS : Type}
    (Glob : OS -> list ascii -> result (list (list ascii)))
    (o : OS) (pattern : list ascii) : list (list ascii) :=
  match Glob o pattern with
  | Success (m :: ms) => m :: ms
  | _ => [pattern]
  end.

(** [returns Q m]: if [m] returns normally, its result satisfies [Q]. *)
Definition returns {A : Type} (Q : A -> Prop) (m : outcome A) : Prop :=
  forall a, m = Ok a -> Q a.

(** [same_line l l']: the lexer stayed on its line, and its column moved
    with its cursor. *)
Definition same_line (l l' : Lexer) : Prop :=
  line l' = line l /\ column l' + current l = column l + current l'.

(** A token of a one-line source that lies at its column: its value is the
    text at the 1-based byte offset [Column]. *)
Definition placed (src : list ascii) (t : Token) : Prop :=
  exists pre post,
    src = pre ++ Value t ++ post /\ Line t = 1 /\ Column t = 1 + length pre.

(** The invariant of the loop of [Tokenize] on a one-line source. *)
Definition one_line (src : list ascii) (l : Lexer) : Prop :=
  source l = src /\ line l = 1 /\ column l = 1 + current l /\
  current l <= length src /\ Forall (placed src) (tokens l).

(** The operators and the punctuation, with their tokens: the longer ones
    first. *)
Definition operators : list (list ascii * TokenType) :=
  [ (str "...", TOKEN_DOTDOTDOT); (str "..=", TOKEN_DOTDOT_ASSIGN);
    (str "..", TOKEN_DOTDOT); (str "+=", TOKEN_PLUS_ASSIGN);
    (str "-=", TOKEN_MINUS_ASSIGN); (str "*=", TOKEN_STAR_ASSIGN);
    (str "/=", TOKEN_SLASH_ASSIGN); (str "%=", TOKEN_PERCENT_ASSIGN);
    (str "==", TOKEN_EQ); (str "!=", TOKEN_NEQ); (str "~=", TOKEN_NEQ);
    (str "<=", TOKEN_LE); (str ">=", TOKEN_GE); (str "::", TOKEN_DOUBLECOLON);
    (str "?.", TOKEN_QUESTION_DOT); (str "??", TOKEN_DOUBLE_QUESTION);
    (str "(", TOKEN_LPAREN); (str ")", TOKEN_RPAREN);
    (str "{", TOKEN_LBRACE); (str "}", TOKEN_RBRACE);
    (str "[", TOKEN_LBRACKET); (str "]", TOKEN_RBRACKET);
    (str ";", TOKEN_SEMICOLON); (str ",", TOKEN_COMMA);
    (str "#", TOKEN_HASH); (str "^", TOKEN_CARET);
    (str "+", TOKEN_PLUS); (str "-", TOKEN_MINUS); (str "*", TOKEN_STAR);
    (str "/", TOKEN_SLASH); (str "%", TOKEN_PERCENT); (str "=", TOKEN_ASSIGN);
    (str "<", TOKEN_LT); (str ">", TOKEN_GT); (str ":", TOKEN_COLON);
    (str ".", TOKEN_DOT) ].

(** [s] begins with [w]. *)
Fixpoint starts_with (s w : list ascii) {struct w} : bool :=
  match w with
  | [] => true
  | a :: w' =>
      match s with
      | [] => false
      | b :: s' => (b =? a) && starts_with s' w'
      end
  end.

(** The first operator of the table that [s] begins with. *)
Definition operator_at (s : list ascii) : option (list ascii * TokenType) :=
  find (fun e => starts_with s (fst e)) operators.

(** A table whose entries never get longer. *)
Fixpoint longest_first {A : Type} (t : list (list ascii * A)) : Prop :=
  match t with
  | [] => True
  | e :: t' =>
      Forall (fun e' => length (fst e') <= length (fst e)) t' /\
      longest_first t'
  end.

(** The bytes a token, a comment or white space can begin with. *)
Definition known_byte (c : ascii) : bool :=
  isAlpha c || isDigit c ||
  existsb (Ascii.eqb c)
    (str "(){}[];,#^+-*/%=!~<>:.?'` " ++ [dquote; newline; "013"; "009"]).

(** [counted l0 l]: since [l0] the cursor went forward and every newline
    it passed was counted once: the line plus the newlines still to be read
    is as it was. *)
Definition counted (l0 l : Lexer) : Prop :=
  source l = source l0 /\ start l = start l0 /\ current l0 <= current l /\
  line l + newlines (rest l) = line l0 + newlines (rest l0).

(** A token whose line is the line its text ends on. *)
Definition lined (src : list ascii) (t : Token) : Prop :=
  exists pre post,
    src = pre ++ Value t ++ post /\ Line t = 1 + newlines (pre ++ Value t).

(** The invariant of the loop of [Tokenize] on a source without
    backslashes: the line counter is the line of the cursor. *)
Definition numbered (src : list ascii) (l : Lexer) : Prop :=
  source l = src /\ current l <= length src /\
  line l = 1 + newlines (firstn (current l) src) /\
  Forall (lined src) (tokens l).

(** A digit string with an optional sign, as [ConvertNumber] takes it
    after the prefix: the digits, whether a minus sign leads, and the value
    when there is at least one digit, every byte after the sign is a digit
    of the base, and the value fits a signed 64-bit integer. *)
Definition unsigned_part (ds : list ascii) : list ascii :=
  match ds with
  | c :: ds' => if (c =? "+") || (c =? "-") then ds' else ds
  | [] => []
  end.

Definition negative (ds : list ascii) : bool :=
  match ds with
  | c :: _ => c =? "-"
  | [] => false
  end.

Definition signed_value (base : Z) (ds : list ascii) : option Z :=
  let body := unsigned_part ds in
  let v := digits_value base body in
  match body with
  | [] => None
  | _ :: _ =>
      if negb (forallb (is_digit_of base) body) then None
      else if negative ds
           then (if (v <=? 2 ^ 63)%Z then Some (- v)%Z else None)
           else (if (v <? 2 ^ 63)%Z then Some v else None)
  end.

(** No backslash of [s] is directly followed by a newline. *)
Fixpoint no_escaped_newline (s : list ascii) : Prop :=
  match s with
  | [] => True
  | c :: s' =>
      (c = backslash -> hd zero s' <> newline) /\ no_escaped_newline s'
  end.



(** The arguments of the compile command, taken one at a time: a file, the
    output option with the argument that follows it, or a flag.  [long]
    tells which of the two spellings was written. *)
Inductive arg_item : Type :=
| AFile (f : list ascii)
| AOutput (long : bool) (out : list ascii)
| APrint (long : bool)
| AQuiet (long : bool)
| AStdout.

(** The arguments an item is written as. *)
Definition render_item (i : arg_item) : list (list ascii) :=
  match i with
  | AFile f => [f]
  | AOutput long out => [if long then str "--output" else str "-o"; out]
  | APrint long => [if long then str "--print" else str "-p"]
  | AQuiet long => [if long then str "--quiet" else str "-q"]
  | AStdout => [str "--stdout"]
  end.

(** A file does not begin with a dash; the argument of the output option
    is any text. *)
Definition item_ok (i : arg_item) : Prop :=
  match i with
  | AFile f => dashed f = false
  | _ => True
  end.

Definition files_of (items : list arg_item) : list (list ascii) :=
  flat_map (fun i => match i with AFile f => [f] | _ => [] end) items.

Definition outputs_of (items : list arg_item) : list (list ascii) :=
  flat_map (fun i => match i with AOutput _ out => [out] | _ => [] end) items.

Definition has_print (items : list arg_item) : bool :=
  existsb (fun i => match i with APrint _ => true | _ => false end) items.

Definition has_quiet (items : list arg_item) : bool :=
  existsb (fun i => match i with AQuiet _ => true | _ => false end) items.

Definition has_stdout (items : list arg_item) : bool :=
  existsb (fun i => match i with AStdout => true | _ => false end) items.

(** The options after the items: the output file is the argument of the
    last output option, and a flag is set if it was before or occurs. *)
Definition options_of (items : list arg_item) (opts0 : CompileOptions)
    : CompileOptions :=
  mkOptions (last (outputs_of items) (OutputFile opts0))
            (PrintOnly opts0 || has_print items)
            (Quiet opts0 || has_quiet items)
            (ToStdout opts0 || has_stdout items).

(** * Reasoning about the cursor *)

Lemma skipn_succ_tl {A : Type} (n : nat) (s : list A) :
  skipn (S n) s = tl (skipn n s).
Proof.
  revert s; induction n as [|n IH]; intros [|a s]; simpl; auto.
  rewrite <- IH; reflexivity.
Qed.

Lemma nth_hd_skipn {A : Type} (n : nat) (s : list A) (d : A) :
  nth n s d = hd d (skipn n s).
Proof.
  rewrite <- (Nat.add_0_r n) at 1. rewrite <- nth_skipn.
  destruct (skipn n s); reflexivity.
Qed.

Lemma rest_bump l : rest (bump l) = tl (rest l).
Proof. unfold rest; simpl. apply skipn_succ_tl. Qed.

Lemma isAtEnd_rest l :
  isAtEnd l = match rest l with [] => true | _ :: _ => false end.
Proof.
  unfold isAtEnd, rest.
  destruct (Nat.leb_spec (length (source l)) (current l)) as [H|H].
  - rewrite (skipn_all2 _ H); reflexivity.
  - destruct (skipn (current l) (source l)) eqn:E; auto.
    apply skipn_all_iff in E. lia.
Qed.

Lemma peek_rest l : peek l = hd zero (rest l).
Proof.
  unfold peek. rewrite isAtEnd_rest. unfold rest.
  rewrite nth_hd_skipn. destruct (skipn (current l) (source l)); reflexivity.
Qed.

Lemma peekNext_rest l : peekNext l = hd zero (tl (rest l)).
Proof.
  unfold peekNext, rest. rewrite Nat.add_1_r, <- skipn_succ_tl.
  rewrite nth_hd_skipn.
  destruct (Nat.leb_spec (length (source l)) (S (current l))) as [H|H]; auto.
  rewrite (skipn_all2 _ H); reflexivity.
Qed.

Lemma advance_rest l :
  advance l = match rest l with
              | [] => Panic
              | c :: _ => Ok (c, bump l)
              end.
Proof.
  unfold advance, rest. rewrite <- hd_error_skipn.
  destruct (skipn (current l) (source l)); reflexivity.
Qed.

Lemma match_rest expected l :
  match_ expected l =
  match rest l with
  | [] => (false, l)
  | c :: _ => if c =? expected then (true, bump l) else (false, l)
  end.
Proof.
  unfold match_. rewrite isAtEnd_rest. unfold rest.
  rewrite nth_hd_skipn.
  destruct (skipn (current l) (source l)) as [|c r]; simpl; auto.
  destruct (c =? expected); reflexivity.
Qed.

Lemma rest_cons_lt l c r : rest l = c :: r -> current l < length (source l).
Proof.
  intros H. pose proof (length_skipn (current l) (source l)) as L.
  fold (rest l) in L. rewrite H in L. simpl in L. lia.
Qed.

(** ** Outcomes that stay within the loop bound *)

Lemma safe_bind {A B : Type} (P : A -> Prop) (Q : B -> Prop)
    (m : outcome A) (k : A -> outcome B) :
  safe P m -> (forall a, P a -> safe Q (k a)) -> safe Q (bind m k).
Proof. destruct m; simpl; auto; contradiction. Qed.

Lemma safe_weaken {A : Type} (P Q : A -> Prop) (m : outcome A) :
  safe P m -> (forall a, P a -> Q a) -> safe Q m.
Proof. destruct m; simpl; auto. Qed.

Ltac mv :=
  unfold emits, moved, wf, fuel_of, addToken, addTokenValue, set_tokens,
    set_current, set_line_column, set_start, bump in *;
  simpl in *; subst; simpl in *;
  intuition (try congruence; try lia).

Lemma moved_refl l : wf l -> moved l l.
Proof. mv. Qed.

Lemma moved_emits l1 l2 l3 : moved l1 l2 -> emits l2 l3 -> emits l1 l3.
Proof.
  unfold moved, emits.
  intros (S1 & L1 & A1 & B1 & T1 & C1 & W1) (S2 & L2 & A2 & W2 & [T2|(t & T2 & K)]).
  - repeat split; try congruence; try lia. left; congruence.
  - repeat split; try congruence; try lia. right; exists t; split; congruence.
Qed.

Lemma addTokenValue_emits l l1 T v :
  moved l l1 -> start l < current l1 -> is_sentinel T = false ->
  emits l (addTokenValue T v l1).
Proof.
  unfold moved, emits. intros (S1 & L1 & A1 & B1 & T1 & C1 & W1) S0 K.
  simpl. repeat split; auto.
  right. eexists. split; [rewrite T1; reflexivity|exact K].
Qed.

Lemma addToken_emits l l1 T :
  moved l l1 -> start l < current l1 -> is_sentinel T = false ->
  emits l (addToken T l1).
Proof. apply addTokenValue_emits. Qed.

Lemma count_newline_moved l : wf l -> moved l (count_newline l).
Proof. unfold count_newline. destruct (peek l =? newline); mv. Qed.

Lemma count_newline_current l : current (count_newline l) = current l.
Proof. unfold count_newline. destruct (peek l =? newline); reflexivity. Qed.

Lemma advance_safe l :
  safe (fun p => snd p = bump l /\ current l < length (source l))
       (advance l).
Proof.
  rewrite advance_rest. destruct (rest l) eqn:R; simpl; auto.
  apply rest_cons_lt in R. auto.
Qed.

(** One step of a [safe] proof: run an [advance], split a test. *)
Ltac adv l :=
  eapply safe_bind; [apply advance_safe|];
  let c := fresh "c" in let E := fresh "E" in let C := fresh "C" in
  intros [c l] (E & C); cbn [snd] in E; cbn beta iota.

Lemma while_advance_safe cond : forall fuel l,
  wf l -> length (source l) - current l < fuel ->
  safe (moved l) (while_advance cond fuel l).
Proof.
  induction fuel as [|n IH]; intros l W F; [lia|]. cbn [while_advance].
  destruct (cond l); [|apply moved_refl; auto].
  adv l1. eapply safe_weaken; [apply IH|]; mv.
Qed.

Lemma skip_line_safe l : wf l -> safe (moved l) (skip_line l).
Proof. intros W. apply while_advance_safe; mv. Qed.

Lemma count_eq_safe : forall fuel k l,
  wf l -> length (source l) - current l < fuel ->
  safe (fun p => moved l (snd p)) (count_eq fuel k l).
Proof.
  induction fuel as [|n IH]; intros k l W F; [lia|]. cbn [count_eq].
  destruct (peek l =? "="); [|apply moved_refl; auto].
  adv l1. eapply safe_weaken; [apply IH|]; mv.
Qed.

Lemma match_eq_safe : forall fuel k m l,
  wf l -> length (source l) - current l < fuel ->
  safe (fun p => moved l (snd p)) (match_eq fuel k m l).
Proof.
  induction fuel as [|n IH]; intros k m l W F; [lia|]. cbn [match_eq].
  destruct ((peek l =? "=") && (m <? k)%nat); [|apply moved_refl; auto].
  adv l1. eapply safe_weaken; [apply IH|]; mv.
Qed.

(** Run a sub-scanner whose lemma gives [moved]. *)
Ltac sub lem a l :=
  eapply safe_bind; [apply lem; mv|];
  let M := fresh "M" in
  intros [a l] M; cbn [snd] in M; cbn beta iota.

Ltac subl lem l :=
  eapply safe_bind; [apply lem; mv|];
  let M := fresh "M" in
  intros l M; cbn beta iota.

Ltac newline_step l l0 :=
  let M := fresh "M" in let C := fresh "C" in let E := fresh "E" in
  pose proof (count_newline_moved l ltac:(assumption)) as M;
  pose proof (count_newline_current l) as C;
  remember (count_newline l) as l0 eqn:E; clear E.

Lemma comment_body_safe : forall fuel k l,
  wf l -> length (source l) - current l < fuel ->
  safe (moved l) (comment_body fuel k l).
Proof.
  induction fuel as [|n IH]; intros k l W F; [lia|]. cbn [comment_body].
  destruct (isAtEnd l) eqn:AE; cbn [negb]; [apply moved_refl; auto|].
  newline_step l l0.
  destruct (peek l0 =? "]").
  - adv l1. sub match_eq_safe a l2.
    destruct ((a =? k)%nat && (peek l2 =? "]")).
    + adv l3. mv.
    + eapply safe_weaken; [apply IH|]; mv.
  - adv l1. eapply safe_weaken; [apply IH|]; mv.
Qed.

Lemma comment_safe l : wf l -> safe (moved l) (comment l).
Proof.
  intros W. unfold comment.
  destruct ((peek l =? "[") && ((peekNext l =? "[") || (peekNext l =? "="))).
  - adv l1. sub count_eq_safe a l2.
    destruct (negb (peek l2 =? "[")).
    + eapply safe_weaken; [apply skip_line_safe|]; mv.
    + adv l3. eapply safe_weaken; [apply comment_body_safe|]; mv.
  - apply skip_line_safe; auto.
Qed.

Lemma opt_advance_safe (b : bool) l :
  wf l ->
  safe (moved l) (if b then '(_, l1) <- advance l ;; Ok l1 else Ok l).
Proof. intros W. destruct b; [adv l1; mv | mv]. Qed.

Lemma string_loop_safe quote : forall fuel l,
  wf l -> length (source l) - current l < fuel ->
  safe (moved l) (string_loop fuel quote l).
Proof.
  induction fuel as [|n IH]; intros l W F; [lia|]. cbn [string_loop].
  destruct (negb (peek l =? quote) && negb (isAtEnd l));
    [|apply moved_refl; auto].
  destruct (peek l =? newline); [exact I|].
  subl opt_advance_safe l1. adv l2.
  eapply safe_weaken; [apply IH|]; mv.
Qed.

Lemma string_safe quote l :
  wf l -> start l < current l -> safe (emits l) (string_ quote l).
Proof.
  intros W S0. unfold string_. subl string_loop_safe l0.
  destruct (isAtEnd l0); [exact I|]. adv l1.
  apply addTokenValue_emits; [mv|mv|reflexivity].
Qed.

Lemma multiline_body_safe : forall fuel k sl l,
  wf l -> start l < current l -> length (source l) - current l < fuel ->
  safe (emits l) (multiline_body fuel k sl l).
Proof.
  induction fuel as [|n IH]; intros k sl l W S0 F; [lia|]. cbn [multiline_body].
  destruct (isAtEnd l) eqn:AE; cbn [negb]; [exact I|].
  newline_step l l0.
  destruct (peek l0 =? "]").
  - adv l1. sub match_eq_safe a l2.
    destruct ((a =? k)%nat && (peek l2 =? "]")).
    + adv l3. apply addTokenValue_emits; [mv|mv|reflexivity].
    + eapply safe_weaken; [apply IH|]; try solve [mv].
      intros l4 M4. eapply moved_emits; [|exact M4]. mv.
  - adv l1. eapply safe_weaken; [apply IH|]; try solve [mv].
    intros l4 M4. eapply moved_emits; [|exact M4]. mv.
Qed.

Lemma multilineString_safe l :
  wf l -> start l < current l -> safe (emits l) (multilineString l).
Proof.
  intros W S0. unfold multilineString. sub count_eq_safe a l0.
  destruct (negb (peek l0 =? "[")).
  - destruct M as (S1 & L1 & A1 & B1 & T1 & C1 & W1).
    unfold emits, wf in *; simpl. rewrite T1.
    repeat split; auto; try lia.
    right; eexists; split; reflexivity.
  - adv l1. eapply safe_weaken; [apply multiline_body_safe|]; try solve [mv].
    intros l4 M4. eapply moved_emits; [|exact M4]. mv.
Qed.

Lemma template_interp_safe : forall fuel d b l,
  wf l -> length (source l) - current l < fuel ->
  safe (fun p => moved l (snd p)) (template_interp fuel d b l).
Proof.
  induction fuel as [|n IH]; intros d b l W F; [lia|]. cbn [template_interp].
  destruct ((0 <? d)%nat && negb (isAtEnd l));
    [|apply moved_refl; auto].
  adv l1.
  destruct (c =? "{"); [eapply safe_weaken; [apply IH|]; mv|].
  destruct (c =? "}"); [eapply safe_weaken; [apply IH|]; mv|].
  destruct (c =? newline); eapply safe_weaken; try apply IH; mv.
Qed.

Lemma template_loop_safe : forall fuel b l,
  wf l -> length (source l) - current l < fuel ->
  safe (fun p => moved l (snd p)) (template_loop fuel b l).
Proof.
  induction fuel as [|n IH]; intros b l W F; [lia|]. cbn [template_loop].
  destruct (negb (peek l =? backquote) && negb (isAtEnd l));
    [|apply moved_refl; auto].
  newline_step l l0.
  destruct (peek l0 =? backslash).
  - adv l1. destruct (negb (isAtEnd l1)).
    + adv l2. eapply safe_weaken; [apply IH|]; mv.
    + eapply safe_weaken; [apply IH|]; mv.
  - destruct ((peek l0 =? "$") && (peekNext l0 =? "{")).
    + adv l1. adv l2. sub template_interp_safe b' l3.
      eapply safe_weaken; [apply IH|]; mv.
    + adv l1. eapply safe_weaken; [apply IH|]; mv.
Qed.

Lemma templateString_safe l :
  wf l -> start l < current l -> safe (emits l) (templateString l).
Proof.
  intros W S0. unfold templateString. sub template_loop_safe b l0.
  destruct (isAtEnd l0); [exact I|]. adv l1.
  apply addTokenValue_emits; [mv|mv|reflexivity].
Qed.

Lemma number_decimal_safe l :
  wf l -> start l < current l -> safe (emits l) (number_decimal l).
Proof.
  intros W S0. unfold number_decimal.
  subl while_advance_safe l1.
  eapply (safe_bind (moved l1)).
  { destruct ((peek l1 =? ".") && isDigit (peekNext l1)); [|mv].
    adv l2. eapply safe_weaken; [apply while_advance_safe|]; mv. }
  intros l3 M3.
  eapply (safe_bind (moved l3)).
  { destruct ((peek l3 =? "e") || (peek l3 =? "E")); [|mv].
    adv l4. subl opt_advance_safe l5.
    eapply safe_weaken; [apply while_advance_safe|]; mv. }
  intros l6 M6. apply addToken_emits; [mv|mv|reflexivity].
Qed.

Lemma number_safe l :
  wf l -> start l < current l -> safe (emits l) (number l).
Proof.
  intros W S0. unfold number.
  destruct (nth_error (source l) (start l)) as [c0|]; [|exact I].
  destruct ((c0 =? "0") && (current l <? length (source l))%nat);
    [|apply number_decimal_safe; auto].
  destruct ((peek l =? "x") || (peek l =? "X")).
  { adv l1. subl while_advance_safe l2.
    apply addToken_emits; [mv|mv|reflexivity]. }
  destruct ((peek l =? "b") || (peek l =? "B")).
  { adv l1. subl while_advance_safe l2.
    apply addToken_emits; [mv|mv|reflexivity]. }
  destruct ((peek l =? "o") || (peek l =? "O")).
  { adv l1. subl while_advance_safe l2.
    apply addToken_emits; [mv|mv|reflexivity]. }
  apply number_decimal_safe; auto.
Qed.

Lemma keywords_not_sentinel text t :
  keywords_get text = Some t -> is_sentinel t = false.
Proof.
  unfold keywords_get.
  destruct (find _ keywords) as [kv|] eqn:F; [|discriminate].
  intros E; injection E as <-. apply find_some in F. destruct F as [I _].
  assert (A : forallb (fun kv => negb (is_sentinel (snd kv))) keywords = true)
    by reflexivity.
  rewrite forallb_forall in A. specialize (A _ I).
  destruct (is_sentinel (snd kv)); [discriminate|reflexivity].
Qed.

Lemma identifier_safe l :
  wf l -> start l < current l -> safe (emits l) (identifier l).
Proof.
  intros W S0. unfold identifier. subl while_advance_safe l1.
  apply addToken_emits; [mv|mv|].
  destruct (keywords_get _) eqn:K; [|reflexivity].
  eapply keywords_not_sentinel; eauto.
Qed.

Lemma match_moved expected l : wf l -> moved l (snd (match_ expected l)).
Proof.
  intros W. rewrite match_rest. destruct (rest l) as [|c r] eqn:R; [simpl; mv|].
  apply rest_cons_lt in R. destruct (c =? expected); simpl; mv.
Qed.

Lemma match_add_safe expected yes no l :
  is_sentinel yes = false -> is_sentinel no = false ->
  wf l -> start l < current l -> safe (emits l) (match_add expected yes no l).
Proof.
  intros Ky Kn W S0. unfold match_add.
  pose proof (match_moved expected l W) as M.
  destruct (match_ expected l) as [m l1]. cbn [snd] in M.
  destruct m; apply addToken_emits; auto; mv.
Qed.

Lemma moved_to_emits l l' : moved l l' -> start l < current l' -> emits l l'.
Proof. mv. Qed.

(** Split the tests of [scanToken] and close each branch. *)
Ltac scan_match :=
  match goal with
  | |- context [match_ ?e ?x] =>
      let M := fresh "M" in
      let m := fresh "m" in let l := fresh "l" in
      assert (M : moved x (snd (match_ e x))) by (apply match_moved; mv);
      destruct (match_ e x) as [m l]; cbn [snd] in M; destruct m
  end.

Ltac scan_leaf :=
  first
    [ exact I
    | apply addToken_emits; [mv|mv|reflexivity]
    | eapply safe_weaken;
      [ first [ apply match_add_safe; try reflexivity
              | apply string_safe | apply templateString_safe
              | apply multilineString_safe | apply number_safe
              | apply identifier_safe ]; mv
      | intros; eapply moved_emits; [|eassumption]; mv ]
    | eapply safe_weaken;
      [ apply comment_safe; mv | intros; apply moved_to_emits; mv ]
    | apply moved_to_emits; mv ].

Lemma scanToken_safe l :
  start l = current l -> safe (emits l) (scanToken l).
Proof.
  intros S0. unfold scanToken. adv l1.
  repeat match goal with
         | |- safe _ (if ?b then _ else _) => destruct b
         | |- safe _ (match_add _ _ _ _) => fail 1
         | |- safe _ (let '(_, _) := match_ _ _ in _) => scan_match
         end; scan_leaf.
Qed.

Lemma scan_step_safe l : safe (stepped l) (scan_step l).
Proof.
  unfold scan_step.
  eapply safe_weaken; [apply scanToken_safe; reflexivity|].
  unfold emits, stepped; simpl. intuition.
Qed.

Lemma Tokenize_loop_safe : forall fuel l,
  length (source l) - current l < fuel ->
  safe (fun l' => exists ts, tokens l' = tokens l ++ ts /\ real_tokens ts)
       (Tokenize_loop fuel l).
Proof.
  induction fuel as [|n IH]; intros l F; [lia|]. cbn [Tokenize_loop].
  destruct (isAtEnd l); cbn [negb].
  - exists []. rewrite app_nil_r. split; [reflexivity|constructor].
  - eapply safe_bind; [apply scan_step_safe|].
    intros l1 (S1 & C1 & W1 & T1).
    eapply safe_weaken; [apply IH; rewrite S1; lia|].
    intros l2 (ts & T2 & R2). cbn beta.
    destruct T1 as [T1|(t & T1 & K)]; rewrite T2, T1.
    + exists ts; auto.
    + exists (t :: ts). rewrite <- app_assoc. split; [reflexivity|].
      constructor; auto.
Qed.

Lemma Tokenize_safe l :
  safe (fun toks => exists ts ln col,
          toks = tokens l ++ ts ++ [mkToken TOKEN_EOF [] ln col] /\
          real_tokens ts)
       (Tokenize l).
Proof.
  unfold Tokenize.
  eapply safe_bind; [apply Tokenize_loop_safe; unfold fuel_of; lia|].
  intros l1 (ts & T1 & R1). simpl. rewrite T1.
  exists ts, (line l1), (column l1). rewrite <- app_assoc. auto.
Qed.

Lemma safe_not_OutOfFuel {A : Type} (Q : A -> Prop) (m : outcome A) :
  safe Q m -> m <> OutOfFuel.
Proof. destruct m; simpl; intros H; try discriminate. contradiction. Qed.

Lemma safe_Ok {A : Type} (Q : A -> Prop) (m : outcome A) (a : A) :
  safe Q m -> m = Ok a -> Q a.
Proof. intros H E. rewrite E in H. exact H. Qed.

(** ** Exact runs of the scanners *)

Lemma scan_to_refl l : scan_to 0 l l.
Proof. unfold scan_to; repeat split; auto. Qed.

Lemma scan_to_bump l : scan_to 1 l (bump l).
Proof. unfold scan_to; simpl; repeat split; lia. Qed.

Lemma scan_to_trans a b l l1 l2 :
  scan_to a l l1 -> scan_to b l1 l2 -> scan_to (a + b) l l2.
Proof.
  unfold scan_to. intros (S1 & T1 & A1 & B1 & C1) (S2 & T2 & A2 & B2 & C2).
  repeat split; try congruence. lia.
Qed.

Lemma scan_to_eq a b l l' : a = b -> scan_to a l l' -> scan_to b l l'.
Proof. intros ->; auto. Qed.

Lemma scan_to_rest n l l' : scan_to n l l' -> rest l' = skipn n (rest l).
Proof.
  unfold scan_to, rest. intros (S1 & _ & _ & _ & C1).
  rewrite S1, C1, skipn_skipn. f_equal. lia.
Qed.

Lemma skipn_app_plus {A : Type} (a b : list A) (k : nat) :
  skipn (length a + k) (a ++ b) = skipn k b.
Proof. induction a; simpl; auto. Qed.

Lemma rest_set_line_column l a b : rest (set_line_column l a b) = rest l.
Proof. reflexivity. Qed.

Lemma rest_set_start l a b : rest (set_start l a b) = rest l.
Proof. reflexivity. Qed.

Lemma rest_count_newline l : rest (count_newline l) = rest l.
Proof. unfold count_newline. destruct (peek l =? newline); reflexivity. Qed.

Lemma rest_le l : length (rest l) <= length (source l).
Proof. unfold rest. rewrite length_skipn. lia. Qed.

Lemma fuel_of_rest l : length (rest l) < fuel_of l.
Proof. pose proof (rest_le l). unfold fuel_of. lia. Qed.

Lemma until_newline_le s : until_newline s <= length s.
Proof.
  induction s as [|c s IH]; simpl; auto.
  destruct (c =? newline); simpl; lia.
Qed.

Lemma until_newline_prefix s : ~ In newline (firstn (until_newline s) s).
Proof.
  induction s as [|c s IH]; simpl; auto.
  destruct (c =? newline) eqn:E; simpl; auto.
  intros [H|H]; auto. subst c. rewrite Ascii.eqb_refl in E. discriminate.
Qed.

Lemma until_newline_stop s :
  skipn (until_newline s) s = [] \/
  hd zero (skipn (until_newline s) s) = newline.
Proof.
  induction s as [|c s IH]; simpl; auto.
  destruct (c =? newline) eqn:E; simpl; auto.
  apply Ascii.eqb_eq in E. auto.
Qed.

(** Move along the text: rewrite the cursor primitives to their value on
    the text still to be read. *)
Ltac view R :=
  rewrite ?peek_rest, ?peekNext_rest, ?isAtEnd_rest, ?advance_rest,
    ?match_rest, ?rest_bump, ?rest_count_newline, ?rest_set_line_column,
    ?rest_set_start, ?R;
  cbn [hd tl bind negb andb orb].

Lemma skip_line_loop_exact : forall fuel l,
  until_newline (rest l) < fuel ->
  exists l',
    while_advance (fun l => negb (peek l =? newline) && negb (isAtEnd l))
      fuel l = Ok l' /\
    scan_to (until_newline (rest l)) l l' /\ line l' = line l.
Proof.
  induction fuel as [|n IH]; intros l F; [lia|]. cbn [while_advance].
  destruct (rest l) as [|c r] eqn:R; view R.
  - exists l. simpl. repeat split; auto using scan_to_refl.
  - simpl in F |- *. destruct (c =? newline) eqn:E; cbn [negb andb].
    + exists l. repeat split; auto using scan_to_refl.
    + destruct (IH (bump l)) as (l' & E' & T' & L').
      { rewrite rest_bump, R. simpl. lia. }
      rewrite rest_bump, R in T'. simpl in T'.
      exists l'. split; [exact E'|]. split; [|exact L'].
      eapply (scan_to_trans 1); [apply scan_to_bump|exact T'].
Qed.

Lemma skip_line_exact l :
  exists l',
    skip_line l = Ok l' /\
    scan_to (until_newline (rest l)) l l' /\ line l' = line l.
Proof.
  apply skip_line_loop_exact.
  pose proof (until_newline_le (rest l)). pose proof (fuel_of_rest l). lia.
Qed.

Lemma count_eq_exact : forall n fuel k l r,
  rest l = repeat "=" n ++ r -> hd zero r <> "=" -> n < fuel ->
  exists l',
    count_eq fuel k l = Ok (k + n, l') /\ scan_to n l l' /\
    line l' = line l /\ rest l' = r.
Proof.
  induction n as [|n IH]; intros fuel k l r R H F;
    (destruct fuel as [|fuel]; [lia|]); cbn [count_eq]; simpl in R.
  - view R. destruct (hd zero r =? "=") eqn:E.
    + apply Ascii.eqb_eq in E. contradiction.
    + exists l. rewrite Nat.add_0_r. auto using scan_to_refl.
  - view R. simpl.
    destruct (IH fuel (S k) (bump l) r) as (l' & E' & T' & L' & R'); auto.
    { rewrite rest_bump, R; reflexivity. } { lia. }
    exists l'. rewrite E'. split; [f_equal; f_equal; lia|].
    split; [|auto].
    eapply (scan_to_trans 1); [apply scan_to_bump|exact T'].
Qed.

Lemma eq_run_spec k s :
  eq_run k s <= k /\ eq_run k s <= length s /\
  firstn (eq_run k s) s = repeat "=" (eq_run k s).
Proof.
  revert s; induction k as [|k IH]; intros [|c s]; simpl;
    try solve [repeat split; auto; lia].
  destruct (c =? "=") eqn:E; simpl; [|repeat split; auto; lia].
  apply Ascii.eqb_eq in E. subst c.
  destruct (IH s) as (A & B & C). rewrite C. repeat split; auto; lia.
Qed.

Lemma match_eq_exact : forall fuel k m l,
  m <= k -> length (rest l) < fuel ->
  let j := eq_run (k - m) (rest l) in
  exists l',
    match_eq fuel k m l = Ok (m + j, l') /\ scan_to j l l' /\
    line l' = line l.
Proof.
  induction fuel as [|fuel IH]; intros k m l M F; [lia|]. cbn [match_eq].
  destruct (rest l) as [|c r] eqn:R; view R.
  - cbn zeta. replace (eq_run (k - m) []) with 0 by (destruct (k - m); auto).
    exists l. rewrite Nat.add_0_r.
    change (zero =? "=") with false. simpl. auto using scan_to_refl.
  - cbn zeta. destruct (c =? "=") eqn:E; cbn [andb].
    + destruct (Nat.ltb_spec m k) as [Lt|Ge].
      * destruct (IH k (S m) (bump l)) as (l' & E' & T' & L'); [lia| |].
        { rewrite rest_bump, R. simpl in F |- *. lia. }
        rewrite rest_bump, R in E', T'. simpl tl in E', T'.
        replace (k - m) with (S (k - S m)) by lia. simpl eq_run. rewrite E.
        exists l'. rewrite E'. split; [f_equal; f_equal; lia|].
        split; [|exact L'].
        eapply (scan_to_trans 1); [apply scan_to_bump|exact T'].
      * replace (k - m) with 0 by lia. simpl.
        exists l. rewrite Nat.add_0_r. auto using scan_to_refl.
    + replace (eq_run (k - m) (c :: r)) with 0
        by (destruct (k - m); simpl; rewrite ?E; auto).
      exists l. rewrite Nat.add_0_r. auto using scan_to_refl.
Qed.

Lemma eqb_neq_false (a b : ascii) : a <> b -> (a =? b) = false.
Proof. intros H. apply Ascii.eqb_neq. exact H. Qed.

(** *** Dispatch of [scanToken] on the first byte *)

Lemma scanToken_dash l r :
  rest l = "-" :: r ->
  scanToken l =
  (let '(m, l2) := match_ "-" (bump l) in
   if m then comment l2
   else match_add "=" TOKEN_MINUS_ASSIGN TOKEN_MINUS l2).
Proof. intros R. unfold scanToken. rewrite advance_rest, R. reflexivity. Qed.

Lemma scanToken_bracket l r :
  rest l = "[" :: r ->
  scanToken l =
  (if (peek (bump l) =? "[") || (peek (bump l) =? "=")
   then multilineString (bump l)
   else Ok (addToken TOKEN_LBRACKET (bump l))).
Proof. intros R. unfold scanToken. rewrite advance_rest, R. reflexivity. Qed.

Lemma scanToken_backquote l r :
  rest l = backquote :: r -> scanToken l = templateString (bump l).
Proof. intros R. unfold scanToken. rewrite advance_rest, R. reflexivity. Qed.

Lemma scanToken_dquote l r :
  rest l = dquote :: r -> scanToken l = string_ dquote (bump l).
Proof. intros R. unfold scanToken. rewrite advance_rest, R. reflexivity. Qed.

Lemma scanToken_squote l r :
  rest l = squote :: r -> scanToken l = string_ squote (bump l).
Proof. intros R. unfold scanToken. rewrite advance_rest, R. reflexivity. Qed.

Lemma scanToken_bang l r :
  rest l = "!" :: r ->
  scanToken l =
  (let '(m, l2) := match_ "=" (bump l) in
   if m then Ok (addToken TOKEN_NEQ l2)
   else Err (UnexpectedChar (line l2) "!")).
Proof. intros R. unfold scanToken. rewrite advance_rest, R. reflexivity. Qed.

Lemma scanToken_tilde l r :
  rest l = "~" :: r ->
  scanToken l =
  (let '(m, l2) := match_ "=" (bump l) in
   if m then Ok (addToken TOKEN_NEQ l2)
   else Err (UnexpectedTilde (line l2))).
Proof. intros R. unfold scanToken. rewrite advance_rest, R. reflexivity. Qed.

Lemma scanToken_question l r :
  rest l = "?" :: r ->
  scanToken l =
  (let '(m, l2) := match_ "." (bump l) in
   if m then Ok (addToken TOKEN_QUESTION_DOT l2)
   else
     let '(m, l3) := match_ "?" l2 in
     if m then Ok (addToken TOKEN_DOUBLE_QUESTION l3)
     else Err (UnexpectedChar (line l3) "?")).
Proof. intros R. unfold scanToken. rewrite advance_rest, R. reflexivity. Qed.

(** *** Comments *)

Lemma comment_fallback l n r :
  rest l = "[" :: repeat "=" n ++ r ->
  hd zero r <> "=" -> hd zero r <> "[" ->
  exists l',
    comment l = Ok l' /\ scan_to (1 + n + until_newline r) l l' /\
    line l' = line l.
Proof.
  intros R H1 H2. unfold comment. view R.
  change ("[" =? "[") with true. cbn [andb].
  destruct n as [|n]; simpl repeat in *; simpl app in *.
  - rewrite (eqb_neq_false _ _ H1), (eqb_neq_false _ _ H2). cbn [orb].
    destruct (skip_line_exact l) as (l' & E' & T' & L').
    rewrite R in T'. exists l'. auto.
  - change ("=" =? "[") with false. change ("=" =? "=") with true. cbn [orb hd].
    destruct (count_eq_exact (S n) (fuel_of (bump l)) 0 (bump l) r)
      as (l1 & E1 & T1 & L1 & R1); auto.
    { rewrite rest_bump, R. reflexivity. }
    { pose proof (fuel_of_rest (bump l)) as F. rewrite rest_bump, R in F.
      simpl in F. rewrite length_app, repeat_length in F. lia. }
    rewrite E1. cbn [bind]. view R1.
    rewrite (eqb_neq_false _ _ H2). cbn [negb].
    destruct (skip_line_exact l1) as (l' & E' & T' & L').
    rewrite R1 in T'. simpl in L1.
    exists l'. split; [exact E'|]. split; [|congruence].
    eapply scan_to_eq; [|eapply scan_to_trans; [apply scan_to_bump|
      eapply scan_to_trans; [exact T1|exact T']]]. lia.
Qed.

Lemma scan_step_comment l r :
  rest l = "-" :: "-" :: r ->
  scan_step l = comment (bump (bump (set_start l (current l) (column l)))).
Proof.
  intros R. unfold scan_step.
  rewrite (scanToken_dash _ ("-" :: r)) by (rewrite rest_set_start; exact R).
  rewrite match_rest, rest_bump, rest_set_start, R. reflexivity.
Qed.

(** C7: when [--[] is followed by a run of [=] and then by something other
    than a second [[], the scan step takes the rest of the line as a comment:
    it returns without error, adds no token, keeps the line counter, and
    stops the cursor at the first newline after [--[=*], or at the end of
    the input if there is none. *)
Theorem mismatched_bracket_is_line_comment :
  forall l n r,
    rest l = str "--[" ++ repeat "=" n ++ r ->
    hd zero r <> "=" -> hd zero r <> "[" ->
    exists l',
      scan_step l = Ok l' /\
      tokens l' = tokens l /\ line l' = line l /\ source l' = source l /\
      current l' = current l + (3 + n + until_newline r) /\
      rest l' = skipn (until_newline r) r /\
      ~ In newline (firstn (until_newline r) r) /\
      (rest l' = [] \/ hd zero (rest l') = newline).
Proof.
  intros l n r R H1 H2. simpl in R.
  rewrite (scan_step_comment l _ R).
  set (l2 := bump (bump (set_start l (current l) (column l)))).
  destruct (comment_fallback l2 n r) as (l' & E' & T' & L'); auto.
  { unfold l2. rewrite !rest_bump, rest_set_start, R. reflexivity. }
  assert (R' : rest l' = skipn (until_newline r) r).
  { rewrite (scan_to_rest _ _ _ T'). unfold l2.
    rewrite !rest_bump, rest_set_start, R. cbn [tl].
    replace (1 + n + until_newline r)
      with (length ("[" :: repeat "=" n) + until_newline r)
      by (simpl; rewrite repeat_length; lia).
    apply (skipn_app_plus ("[" :: repeat "=" n)). }
  destruct T' as (S' & K' & _ & _ & C').
  exists l'. split; [exact E'|]. repeat split; auto.
  - rewrite C'. unfold l2. simpl. lia.
  - apply until_newline_prefix.
  - rewrite R'. apply until_newline_stop.
Qed.

(** *** Long brackets that are never closed *)

Lemma no_close_tail n c s : no_close n (c :: s) -> no_close n s.
Proof. intros H pre post E. apply (H (c :: pre) post). rewrite E. reflexivity. Qed.

Lemma no_close_skipn n j s : no_close n s -> no_close n (skipn j s).
Proof.
  intros H pre post E. apply (H (firstn j s ++ pre) post).
  rewrite <- app_assoc, <- E, firstn_skipn. reflexivity.
Qed.

Lemma no_close_head n r :
  no_close n ("]" :: r) ->
  ((eq_run n r =? n)%nat && (hd zero (skipn (eq_run n r) r) =? "]")) = false.
Proof.
  intros H. destruct (Nat.eqb_spec (eq_run n r) n) as [J|J]; [|reflexivity].
  destruct (hd zero (skipn (eq_run n r) r) =? "]") eqn:E; [|reflexivity].
  exfalso. apply Ascii.eqb_eq in E.
  destruct (eq_run_spec n r) as (_ & _ & P). rewrite J in *.
  destruct (skipn n r) as [|c post] eqn:K; [discriminate E|].
  simpl in E. subst c. apply (H [] post). simpl.
  rewrite <- app_assoc. simpl. rewrite <- P, <- K, firstn_skipn. reflexivity.
Qed.

Lemma newlines_cons c s :
  newlines (c :: s) = (if c =? newline then 1 else 0) + newlines s.
Proof.
  unfold newlines. simpl. destruct (ascii_dec c newline) as [->|N].
  - reflexivity.
  - rewrite (eqb_neq_false _ _ N). reflexivity.
Qed.

Lemma newlines_eq_run n s : newlines (skipn (eq_run n s) s) = newlines s.
Proof.
  revert s; induction n as [|n IH]; intros [|c s]; simpl; auto.
  destruct (c =? "=") eqn:E; simpl; auto.
  apply Ascii.eqb_eq in E. subst c. rewrite IH, newlines_cons. reflexivity.
Qed.

Lemma count_newline_line l :
  line (count_newline l) =
  line l + (if hd zero (rest l) =? newline then 1 else 0).
Proof.
  unfold count_newline. rewrite peek_rest.
  destruct (hd zero (rest l) =? newline); simpl; lia.
Qed.

Lemma scan_to_count_newline l : scan_to 0 l (count_newline l).
Proof.
  unfold count_newline, scan_to.
  destruct (peek l =? newline); simpl; repeat split; lia.
Qed.

Lemma length_skipn_eq_run n r :
  eq_run n r + length (skipn (eq_run n r) r) = length r.
Proof.
  destruct (eq_run_spec n r) as (_ & B & _). rewrite length_skipn. lia.
Qed.

Lemma comment_body_unclosed : forall fuel n l,
  no_close n (rest l) -> length (rest l) < fuel ->
  exists l',
    comment_body fuel n l = Ok l' /\ scan_to (length (rest l)) l l' /\
    line l' = line l + newlines (rest l).
Proof.
  induction fuel as [|fuel IH]; intros n l N F; [lia|]. cbn [comment_body].
  pose proof (count_newline_line l) as L0.
  pose proof (scan_to_count_newline l) as T0.
  pose proof (rest_count_newline l) as R0.
  destruct (rest l) as [|c r] eqn:R; rewrite isAtEnd_rest, R; cbn [negb].
  { exists l. simpl. split; [reflexivity|]. split; [apply scan_to_refl|].
    unfold newlines. simpl. lia. }
  remember (count_newline l) as l0 eqn:E0. clear E0. cbn zeta.
  cbn [hd] in L0. simpl in F. view R0.
  destruct (c =? "]") eqn:C.
  - apply Ascii.eqb_eq in C. subst c.
    change ("]" =? newline) with false in L0. rewrite Nat.add_0_r in L0.
    destruct (match_eq_exact (fuel_of (bump l0)) n 0 (bump l0))
      as (l2 & E2 & T2 & L2); [lia|apply fuel_of_rest|].
    rewrite rest_bump, R0, Nat.sub_0_r in E2, T2. cbn [tl] in E2, T2.
    rewrite E2. cbn [bind Nat.add].
    pose proof (scan_to_rest _ _ _ T2) as R2.
    rewrite rest_bump, R0 in R2. cbn [tl] in R2.
    rewrite peek_rest, R2, (no_close_head _ _ N).
    pose proof (length_skipn_eq_run n r) as LE.
    destruct (IH n l2) as (l' & E' & T' & L').
    { rewrite R2. apply no_close_skipn. eapply no_close_tail; eauto. }
    { rewrite R2. lia. }
    exists l'. split; [exact E'|]. rewrite R2 in T', L'. split.
    + eapply scan_to_eq; [|eapply scan_to_trans; [exact T0|
        eapply scan_to_trans; [apply scan_to_bump|
        eapply scan_to_trans; [exact T2|exact T']]]]. simpl. lia.
    + rewrite L', L2, newlines_eq_run, newlines_cons. simpl. lia.
  - destruct (IH n (bump l0)) as (l' & E' & T' & L').
    { rewrite rest_bump, R0. eapply no_close_tail; eauto. }
    { rewrite rest_bump, R0. simpl. lia. }
    rewrite rest_bump, R0 in T', L'. cbn [tl] in T', L'.
    exists l'. split; [exact E'|]. split.
    + eapply scan_to_eq; [|eapply scan_to_trans; [exact T0|
        eapply scan_to_trans; [apply scan_to_bump|exact T']]]. simpl. lia.
    + rewrite L', newlines_cons. simpl. lia.
Qed.


(** *** From one scan step to [Tokenize] *)

Lemma Tokenize_first_step l c r :
  rest l = c :: r ->
  Tokenize l =
  (l1 <- (l1 <- scan_step l ;; Tokenize_loop (length (source l)) l1) ;;
   Ok (tokens l1 ++ [mkToken TOKEN_EOF [] (line l1) (column l1)])).
Proof.
  intros R. unfold Tokenize, fuel_of. cbn [Tokenize_loop].
  rewrite isAtEnd_rest, R. reflexivity.
Qed.

Lemma Tokenize_Err l c r e :
  rest l = c :: r -> scan_step l = Err e -> Tokenize l = Err e.
Proof. intros R E. rewrite (Tokenize_first_step l c r R), E. reflexivity. Qed.

Lemma Tokenize_Panic l c r :
  rest l = c :: r -> scan_step l = Panic -> Tokenize l = Panic.
Proof. intros R E. rewrite (Tokenize_first_step l c r R), E. reflexivity. Qed.

Lemma Tokenize_last_step l c r l' :
  rest l = c :: r -> scan_step l = Ok l' -> rest l' = [] ->
  Tokenize l =
  Ok (tokens l' ++ [mkToken TOKEN_EOF [] (line l') (column l')]).
Proof.
  intros R E R'. rewrite (Tokenize_first_step l c r R), E. cbn [bind].
  pose proof (rest_cons_lt _ _ _ R) as Lt.
  destruct (length (source l)) as [|k]; [lia|]. cbn [Tokenize_loop].
  rewrite isAtEnd_rest, R'. reflexivity.
Qed.

Lemma no_bracket_no_close n body : ~ In "]" body -> no_close n body.
Proof.
  intros H pre post E. apply H. rewrite E.
  apply in_or_app. right. left. reflexivity.
Qed.

Lemma comment_unclosed l n body :
  rest l = opener n ++ body -> no_close n body ->
  exists l',
    comment l = Ok l' /\ tokens l' = tokens l /\ rest l' = [] /\
    line l' = line l + newlines body.
Proof.
  intros R N. unfold opener in R. simpl in R. rewrite <- app_assoc in R.
  simpl in R. unfold comment. view R. change ("[" =? "[") with true.
  assert (P : (hd zero (repeat "=" n ++ "[" :: body) =? "[")
              || (hd zero (repeat "=" n ++ "[" :: body) =? "=") = true)
    by (destruct n; reflexivity).
  rewrite P. cbn [andb].
  destruct (count_eq_exact n (fuel_of (bump l)) 0 (bump l) ("[" :: body))
    as (l1 & E1 & T1 & L1 & R1).
  { rewrite rest_bump, R. reflexivity. }
  { simpl. discriminate. }
  { pose proof (fuel_of_rest (bump l)) as F. rewrite rest_bump, R in F.
    simpl in F. rewrite length_app, repeat_length in F. lia. }
  rewrite E1. cbn [bind]. view R1. change ("[" =? "[") with true. cbn [negb].
  destruct (comment_body_unclosed (fuel_of (bump l1)) n (bump l1))
    as (l' & E' & T' & L').
  { rewrite rest_bump, R1. exact N. }
  { apply fuel_of_rest. }
  rewrite rest_bump, R1 in T', L'. cbn [tl] in T', L'.
  exists l'. split; [exact E'|]. split; [|split].
  - destruct T' as (_ & K' & _), T1 as (_ & K1 & _). simpl in K', K1.
    congruence.
  - rewrite (scan_to_rest _ _ _ T'), rest_bump, R1. apply skipn_all.
  - rewrite L'. simpl. rewrite L1. reflexivity.
Qed.

(** C2: the defect.  The specification makes a long comment that is
    opened and never closed a lexical error, as [multilineString] does for
    a long string, whose search loop ends in the unterminated error.
    [comment] has the same search loop and no error result: at the end of
    the input it returns.  So on every such input the scan step takes
    everything to the end as comment, adds no token, counts the newlines,
    and [Tokenize] succeeds with the tokens it had, followed by the
    end-of-input token. *)
Theorem unclosed_long_comment_runs_to_end :
  forall l n body,
    rest l = str "--" ++ opener n ++ body -> no_close n body ->
    exists l',
      scan_step l = Ok l' /\ tokens l' = tokens l /\ rest l' = [] /\
      line l' = line l + newlines body /\
      Tokenize l =
      Ok (tokens l ++
          [mkToken TOKEN_EOF [] (line l + newlines body) (column l')]).
Proof.
  intros l n body R N. simpl in R.
  pose proof (scan_step_comment l _ R) as S.
  destruct (comment_unclosed
              (bump (bump (set_start l (current l) (column l)))) n body)
    as (l' & E' & K' & R' & L'); auto.
  { rewrite !rest_bump, rest_set_start, R. reflexivity. }
  rewrite <- S in E'. simpl in K', L'.
  exists l'. repeat split; auto.
  rewrite (Tokenize_last_step l _ _ l' R E' R'), K', L'. reflexivity.
Qed.

(** C2, the failing input: the source [--[[ abc] opens a long comment and
    has no closing bracket, and [Tokenize] succeeds on it. *)
Lemma unclosed_long_comment_is_accepted :
  str "--[[ abc" = str "--" ++ opener 0 ++ str " abc" /\
  no_close 0 (str " abc") /\
  tokenize (str "--[[ abc") = Ok [mkToken TOKEN_EOF [] 1 9] /\
  ~ (exists e, tokenize (str "--[[ abc") = Err e).
Proof.
  split; [reflexivity|]. split.
  - apply no_bracket_no_close. simpl. intuition discriminate.
  - split; [reflexivity|]. intros (e & E). discriminate E.
Qed.

(** *** Template strings *)

Lemma lines_kept_refl l : lines_kept l l.
Proof. unfold lines_kept; lia. Qed.

Lemma lines_kept_trans l1 l2 l3 :
  lines_kept l1 l2 -> lines_kept l2 l3 -> lines_kept l1 l3.
Proof. unfold lines_kept; lia. Qed.

Lemma lines_kept_bump l : lines_kept l (bump l).
Proof.
  unfold lines_kept. rewrite rest_bump. simpl.
  destruct (rest l) as [|c r]; simpl; [lia|]. rewrite newlines_cons. lia.
Qed.

Lemma lines_kept_count_newline l c r :
  rest l = c :: r -> lines_kept l (bump (count_newline l)).
Proof.
  intros R. unfold lines_kept.
  rewrite rest_bump, rest_count_newline, R. simpl.
  rewrite count_newline_line, R, newlines_cons. simpl.
  destruct (c =? newline); lia.
Qed.

Lemma option_map_S j (o : option nat) :
  option_map S (option_map (Nat.add j) o) = option_map (Nat.add (S j)) o.
Proof. destruct o; simpl; f_equal. Qed.

Lemma option_map_zero (o : option nat) : o = option_map (Nat.add 0) o.
Proof. destruct o; reflexivity. Qed.

Lemma template_interp_exact : forall fuel d b l,
  length (rest l) < fuel ->
  exists j l',
    template_interp fuel d b l = Ok (b ++ firstn j (rest l), l') /\
    scan_to j l l' /\ lines_kept l l' /\
    template_end d (rest l)
    = option_map (Nat.add j) (template_end 0 (skipn j (rest l))).
Proof.
  induction fuel as [|fuel IH]; intros d b l F; [lia|].
  cbn [template_interp].
  destruct d as [|d].
  { exists 0, l. simpl. rewrite app_nil_r.
    auto using scan_to_refl, lines_kept_refl, option_map_zero. }
  change (0 <? S d)%nat with true. cbn [andb].
  destruct (rest l) as [|c r] eqn:R; view R.
  { exists 0, l. simpl. rewrite app_nil_r.
    auto using scan_to_refl, lines_kept_refl. }
  simpl in F.
  assert (STEP : forall d' l1,
            rest l1 = r -> scan_to 1 l l1 -> lines_kept l l1 ->
            template_end (S d) (c :: r) = option_map S (template_end d' r) ->
            exists j l',
              template_interp fuel d' (b ++ [c]) l1
              = Ok (b ++ firstn j (c :: r), l') /\
              scan_to j l l' /\ lines_kept l l' /\
              template_end (S d) (c :: r)
              = option_map (Nat.add j) (template_end 0 (skipn j (c :: r)))).
  { intros d' l1 R1 T1 K1 SP.
    destruct (IH d' (b ++ [c]) l1) as (j & l' & E' & T' & K' & P').
    { rewrite R1. lia. }
    rewrite R1 in E', P'. exists (S j), l'. split; [|split; [|split]].
    - rewrite E', <- app_assoc. reflexivity.
    - apply (scan_to_trans 1 j _ _ _ T1 T').
    - eapply lines_kept_trans; eauto.
    - rewrite SP, P', option_map_S. reflexivity. }
  destruct (c =? "{") eqn:C1.
  { apply STEP; auto using scan_to_bump, lines_kept_bump.
    - rewrite rest_bump, R; reflexivity.
    - simpl. rewrite C1. reflexivity. }
  destruct (c =? "}") eqn:C2.
  { replace (S d - 1) with d by lia.
    apply STEP; auto using scan_to_bump, lines_kept_bump.
    - rewrite rest_bump, R; reflexivity.
    - simpl. rewrite C1, C2. reflexivity. }
  assert (SP : template_end (S d) (c :: r)
               = option_map S (template_end (S d) r))
    by (simpl; rewrite C1, C2; reflexivity).
  destruct (c =? newline) eqn:C3.
  - apply STEP; auto.
    + rewrite rest_set_line_column, rest_bump, R; reflexivity.
    + unfold scan_to; simpl; repeat split; lia.
    + unfold lines_kept. rewrite rest_set_line_column, rest_bump, R.
      simpl. rewrite newlines_cons, C3. lia.
  - apply STEP; auto using scan_to_bump, lines_kept_bump.
    rewrite rest_bump, R; reflexivity.
Qed.

Lemma template_end_bounds_le : forall n s d k,
  length s <= n -> template_end d s = Some k -> 1 <= k <= length s.
Proof.
  induction n as [|n IH]; intros s d k L E;
    (destruct s as [|c s]; [discriminate|]); simpl in L; [lia|].
  assert (ONE : forall d' k', template_end d' s = Some k' ->
                              1 <= S k' <= length (c :: s)).
  { intros d' k' E'. apply IH in E'; simpl; lia. }
  simpl in E. destruct d as [|d].
  - destruct (c =? backquote); [injection E as <-; simpl; lia|].
    destruct (c =? backslash).
    + destruct s as [|c' s']; [discriminate|].
      destruct (template_end 0 s') as [k'|] eqn:E'; [|discriminate].
      injection E as <-. apply IH in E'; simpl in *; lia.
    + destruct s as [|c' s']; [discriminate|].
      destruct ((c =? "$") && (c' =? "{")).
      * destruct (template_end 1 s') as [k'|] eqn:E'; [|discriminate].
        injection E as <-. apply IH in E'; simpl in *; lia.
      * destruct (template_end 0 (c' :: s')) as [k'|] eqn:E'; [|discriminate].
        injection E as <-. eapply ONE; eauto.
  - destruct (c =? "{").
    { destruct (template_end (S (S d)) s) as [k'|] eqn:E'; [|discriminate].
      injection E as <-. eapply ONE; eauto. }
    destruct (c =? "}").
    { destruct (template_end d s) as [k'|] eqn:E'; [|discriminate].
      injection E as <-. eapply ONE; eauto. }
    destruct (template_end (S d) s) as [k'|] eqn:E'; [|discriminate].
    injection E as <-. eapply ONE; eauto.
Qed.

Lemma template_end_bounds s d k :
  template_end d s = Some k -> 1 <= k <= length s.
Proof. apply (template_end_bounds_le (length s)). lia. Qed.

Lemma firstn_plus {A : Type} (j m : nat) (s : list A) :
  firstn (j + m) s = firstn j s ++ firstn m (skipn j s).
Proof.
  revert s; induction j as [|j IH]; intros [|a s]; simpl; auto.
  - destruct m; reflexivity.
  - rewrite IH. reflexivity.
Qed.

Lemma template_loop_post_step b l j l1 res :
  scan_to j l l1 -> lines_kept l l1 ->
  template_end 0 (rest l)
  = option_map (Nat.add j) (template_end 0 (skipn j (rest l))) ->
  template_loop_post (b ++ firstn j (rest l)) l1 res ->
  template_loop_post b l res.
Proof.
  intros T K SP. unfold template_loop_post.
  rewrite SP, (scan_to_rest _ _ _ T).
  destruct (template_end 0 (skipn j (rest l))) as [k|] eqn:E; simpl.
  - apply template_end_bounds in E.
    intros (l' & E' & T' & K' & H'). exists l'.
    replace (j + k - 1) with (j + (k - 1)) by lia.
    split; [|split; [|split]]; auto.
    + rewrite E', firstn_plus, app_assoc. reflexivity.
    + eapply scan_to_trans; eauto.
    + eapply lines_kept_trans; eauto.
  - intros (b' & l' & E' & R' & K'). exists b', l'.
    split; [|split]; auto. eapply lines_kept_trans; eauto.
Qed.

Lemma template_loop_exact : forall fuel b l,
  length (rest l) < fuel ->
  template_loop_post b l (template_loop fuel b l).
Proof.
  induction fuel as [|fuel IH]; intros b l F; [lia|].
  cbn [template_loop].
  pose proof (scan_to_count_newline l) as T0.
  pose proof (rest_count_newline l) as R0.
  destruct (rest l) as [|c r] eqn:R; rewrite peek_rest, isAtEnd_rest, R;
    cbn [hd negb andb].
  { unfold template_loop_post. rewrite R. simpl.
    change (zero =? backquote) with false. simpl.
    exists b, l. auto using lines_kept_refl. }
  pose proof (lines_kept_count_newline l c r R) as K0.
  destruct (c =? backquote) eqn:C0; cbn [negb andb].
  { unfold template_loop_post. rewrite R. simpl. rewrite C0.
    exists l. simpl. rewrite app_nil_r, R.
    apply Ascii.eqb_eq in C0. subst c.
    auto using scan_to_refl, lines_kept_refl. }
  remember (count_newline l) as l0 eqn:E0. clear E0. cbn zeta.
  simpl in F.
  assert (T1 : scan_to 1 l (bump l0))
    by (apply (scan_to_trans 0 1 _ _ _ T0), scan_to_bump).
  assert (R1 : rest (bump l0) = r) by (rewrite rest_bump, R0; reflexivity).
  view R0.
  destruct (c =? backslash) eqn:C1.
  - rewrite isAtEnd_rest, R1. destruct r as [|c' r']; cbn [negb].
    + apply (template_loop_post_step b l 1 (bump l0)); auto.
      * rewrite R. simpl. rewrite C0, C1. reflexivity.
      * rewrite R. apply IH. rewrite R1. simpl. lia.
    + rewrite advance_rest, R1. cbn [bind].
      apply (template_loop_post_step b l 2 (bump (bump l0))).
      * apply (scan_to_trans 1 1 _ _ _ T1), scan_to_bump.
      * eapply lines_kept_trans; [exact K0|apply lines_kept_bump].
      * rewrite R. simpl. rewrite C0, C1. reflexivity.
      * rewrite R. simpl firstn. rewrite <- app_assoc. simpl app.
        apply IH.
        rewrite rest_bump, R1. simpl in *. lia.
  - destruct ((c =? "$") && (hd zero r =? "{")) eqn:C2.
    + destruct r as [|c' r']; [apply andb_prop in C2; destruct C2; discriminate|].
      cbn [hd] in C2. rewrite advance_rest, R1. cbn [bind].
      set (l2 := bump (bump l0)).
      assert (R2 : rest l2 = r') by (unfold l2; rewrite rest_bump, R1; auto).
      destruct (template_interp_exact (fuel_of l2) 1 ((b ++ [c]) ++ [c']) l2)
        as (j & l3 & E3 & T3 & K3 & P3); [apply fuel_of_rest|].
      rewrite R2 in E3, P3. rewrite E3. cbn [bind].
      apply (template_loop_post_step b l (2 + j) l3).
      * apply (scan_to_trans 1 (1 + j) _ _ _ T1).
        apply (scan_to_trans 1 j _ _ _ (scan_to_bump _) T3).
      * eapply lines_kept_trans; [exact K0|].
        eapply lines_kept_trans; [apply lines_kept_bump|exact K3].
      * rewrite R. simpl. rewrite C0, C1, C2, P3.
        destruct (template_end 0 (skipn j r')); reflexivity.
      * rewrite R. simpl firstn. rewrite <- !app_assoc. simpl app.
        apply IH. rewrite (scan_to_rest _ _ _ T3), R2, length_skipn.
        simpl in F. lia.
    + apply (template_loop_post_step b l 1 (bump l0)); auto.
      * rewrite R. simpl. rewrite C0, C1.
        destruct r as [|c' r']; [reflexivity|]. cbn [hd] in C2.
        rewrite C2. simpl skipn.
        destruct (template_end 0 (c' :: r')); reflexivity.
      * rewrite R. apply IH. rewrite R1. lia.
Qed.

Lemma firstn_succ_hd {A : Type} (j : nat) (s : list A) (c : A) :
  hd_error (skipn j s) = Some c -> firstn (S j) s = firstn j s ++ [c].
Proof.
  revert s; induction j as [|j IH]; intros [|a s] H; simpl in *;
    try discriminate.
  - injection H as ->. reflexivity.
  - rewrite <- IH; auto.
Qed.

Lemma templateString_exact l body :
  rest l = body ->
  match template_end 0 body with
  | None =>
      exists ln, templateString l = Err (UnterminatedTemplate ln) /\
                 line l <= ln <= line l + newlines body
  | Some k =>
      exists l',
        templateString l = Ok l' /\ scan_to k l (set_tokens l' (tokens l)) /\
        tokens l' = tokens l ++
          [mkToken TOKEN_TEMPLATE_STRING (backquote :: firstn k body)
                   (line l') (startColumn l)] /\
        last (firstn k body) zero = backquote
  end.
Proof.
  intros R. unfold templateString.
  pose proof (template_loop_exact (fuel_of l) [backquote] l (fuel_of_rest l))
    as P. unfold template_loop_post in P. rewrite R in P.
  destruct (template_end 0 body) as [k|] eqn:E.
  - destruct P as (l1 & E1 & T1 & K1 & H1). rewrite E1. cbn [bind].
    apply template_end_bounds in E.
    destruct (rest l1) as [|c r1] eqn:R1; [discriminate|].
    simpl in H1. injection H1 as ->.
    rewrite isAtEnd_rest, advance_rest, R1. cbn [bind].
    assert (F : firstn k body = firstn (k - 1) body ++ [backquote]).
    { replace k with (S (k - 1)) at 1 by lia. apply firstn_succ_hd.
      rewrite <- R, <- (scan_to_rest _ _ _ T1), R1. reflexivity. }
    eexists. split; [reflexivity|].
    destruct T1 as (S1 & A1 & B1 & D1 & C1). split; [|split].
    + unfold scan_to; simpl. repeat split; auto. lia.
    + simpl. rewrite A1, D1, F. reflexivity.
    + rewrite F. apply last_last.
  - destruct P as (b' & l1 & E1 & R1 & K1). rewrite E1. cbn [bind].
    rewrite isAtEnd_rest, R1. exists (line l1). split; [reflexivity|].
    destruct K1 as (K1 & K2). rewrite R1, R in K2. unfold newlines in K2 at 1.
    simpl in K2. lia.
Qed.

(** C4: a template string.  [body] is the text after the opening
    back-quote.  If the input ends before the closing back-quote, be it in
    the text or inside an interpolation span whose braces are still open, the
    scan step and [Tokenize] return the "unterminated template string"
    error.  Otherwise the step appends exactly one token, of kind
    [TOKEN_TEMPLATE_STRING], whose value is the source text from the opening
    to the closing back-quote, byte for byte, and leaves the cursor just
    after the closing back-quote. *)
Theorem template_string_scanned_or_unterminated :
  forall l body,
    rest l = backquote :: body ->
    match template_end 0 body with
    | None =>
        exists ln,
          scan_step l = Err (UnterminatedTemplate ln) /\
          Tokenize l = Err (UnterminatedTemplate ln)
    | Some k =>
        exists l' ln,
          scan_step l = Ok l' /\
          tokens l' = tokens l ++
            [mkToken TOKEN_TEMPLATE_STRING (firstn (S k) (rest l)) ln
                     (column l)] /\
          current l' = current l + S k /\ source l' = source l /\
          hd zero (firstn (S k) (rest l)) = backquote /\
          last (firstn (S k) (rest l)) zero = backquote
    end.
Proof.
  intros l body R.
  set (l0 := set_start l (current l) (column l)).
  assert (S0 : scan_step l = templateString (bump l0)).
  { unfold scan_step. apply (scanToken_backquote _ body).
    unfold l0. rewrite rest_set_start. exact R. }
  pose proof (templateString_exact (bump l0) body) as P.
  rewrite rest_bump in P. unfold l0 in P at 1. rewrite rest_set_start, R in P.
  specialize (P eq_refl).
  destruct (template_end 0 body) as [k|] eqn:E.
  - destruct P as (l' & E' & T' & K' & L').
    exists l', (line l'). rewrite S0, R.
    destruct T' as (S' & _ & _ & _ & C'). simpl in S', C', K'.
    repeat split; auto; try lia.
    apply template_end_bounds in E.
    destruct (firstn k body) eqn:F.
    + pose proof (f_equal (@length _) F) as LF. rewrite length_firstn in LF.
      simpl in LF. lia.
    + simpl firstn. rewrite F. exact L'.
  - destruct P as (ln & E' & _). exists ln. rewrite S0.
    split; [exact E'|]. apply (Tokenize_Err l _ _ _ R). rewrite S0. exact E'.
Qed.

(** *** Unterminated strings and the line they report *)

Lemma string_loop_line quote : forall fuel l,
  match string_loop fuel quote l with
  | Ok l' => line l' = line l
  | Err e => e = UnterminatedString (line l)
  | _ => True
  end.
Proof.
  induction fuel as [|fuel IH]; intros l; cbn [string_loop]; [exact I|].
  destruct (negb (peek l =? quote) && negb (isAtEnd l)); [|reflexivity].
  destruct (peek l =? newline); [reflexivity|].
  destruct (peek l =? backslash).
  - rewrite advance_rest. destruct (rest l) as [|c r]; cbn [bind]; [exact I|].
    rewrite advance_rest. destruct (rest (bump l)); cbn [bind]; [exact I|].
    apply (IH (bump (bump l))).
  - cbn [bind]. rewrite advance_rest.
    destruct (rest l) as [|c r]; cbn [bind]; [exact I|].
    apply (IH (bump l)).
Qed.

Lemma string_Err_line quote l e :
  string_ quote l = Err e -> e = UnterminatedString (line l).
Proof.
  unfold string_. pose proof (string_loop_line quote (fuel_of l) l) as P.
  destruct (string_loop (fuel_of l) quote l) as [l1|e1| |]; cbn [bind];
    intros E; try discriminate E.
  - destruct (isAtEnd l1); [congruence|].
    rewrite advance_rest in E.
    destruct (rest l1) as [|c r1]; cbn [bind] in E; discriminate E.
  - congruence.
Qed.


Lemma scan_step_multiline l n body :
  rest l = opener n ++ body ->
  scan_step l =
  multilineString (bump (set_start l (current l) (column l))).
Proof.
  intros R. unfold opener in R. simpl in R. rewrite <- app_assoc in R.
  simpl in R. unfold scan_step.
  rewrite (scanToken_bracket (set_start l (current l) (column l)) _ R).
  rewrite peek_rest, rest_bump, rest_set_start, R.
  cbn [tl]. destruct n; reflexivity.
Qed.


(** *** Operators that begin with [!], [~] or [?] *)

Lemma slice_two l c d r :
  rest l = c :: d :: r ->
  slice (source l) (current l) (S (S (current l))) = [c; d].
Proof.
  intros R. unfold slice.
  replace (S (S (current l)) - current l) with 2 by lia.
  fold (rest l). rewrite R. reflexivity.
Qed.

Lemma digraph_token l c d r k :
  rest l = c :: d :: r ->
  let l2 := bump (bump (set_start l (current l) (column l))) in
  tokens (addToken k l2)
  = tokens l ++ [mkToken k [c; d] (line l) (column l)] /\
  current (addToken k l2) = current l + 2.
Proof.
  intros R. simpl. rewrite (slice_two l c d r R). split; [reflexivity|lia].
Qed.

(** C6: at a [!], [~] or [?] the scan step returns an error exactly when
    the byte and the one after it do not form [!=], [~=], [?.] or [??]; the
    error carries the current line and is what [Tokenize] returns.  When
    they do, the step appends the one token of the operator; [!=] and [~=]
    both give [TOKEN_NEQ]. *)
Theorem bare_bang_tilde_question :
  digraph_kind "!" "=" = Some TOKEN_NEQ /\
  digraph_kind "~" "=" = Some TOKEN_NEQ /\
  forall l c r,
    rest l = c :: r -> c = "!" \/ c = "~" \/ c = "?" ->
    match digraph_kind c (hd zero r) with
    | None =>
        exists e,
          scan_step l = Err e /\ Tokenize l = Err e /\ err_line e = line l
    | Some k =>
        exists l',
          scan_step l = Ok l' /\
          tokens l' = tokens l ++
            [mkToken k [c; hd zero r] (line l) (column l)] /\
          current l' = current l + 2
    end.
Proof.
  split; [reflexivity|]. split; [reflexivity|].
  intros l c r R C.
  set (l0 := set_start l (current l) (column l)).
  assert (R0 : rest l0 = c :: r) by exact R.
  assert (R1 : rest (bump l0) = r) by (rewrite rest_bump, R0; reflexivity).
  assert (ERR : forall e, scan_step l = Err e -> err_line e = line l ->
                exists e, scan_step l = Err e /\ Tokenize l = Err e /\
                          err_line e = line l).
  { intros e E L. exists e. split; [exact E|]. split; [|exact L].
    eapply Tokenize_Err; eauto. }
  assert (OK : forall k d r', r = d :: r' ->
                scan_step l = Ok (addToken k (bump (bump l0))) ->
                exists l', scan_step l = Ok l' /\
                  tokens l' = tokens l ++
                    [mkToken k [c; hd zero r] (line l) (column l)] /\
                  current l' = current l + 2).
  { intros k d r' -> E. eexists. split; [exact E|].
    apply (digraph_token l c d r' k R). }
  unfold scan_step in ERR, OK. fold l0 in ERR, OK.
  destruct C as [-> | [-> | ->]]; unfold digraph_kind.
  - destruct r as [|d r']; simpl.
    + eapply ERR; [rewrite (scanToken_bang _ _ R0), match_rest, R1|];
        reflexivity.
    + destruct (d =? "=") eqn:D; simpl.
      * eapply (OK _ d r'); [reflexivity|].
        rewrite (scanToken_bang _ _ R0), match_rest, R1, D. reflexivity.
      * eapply ERR;
          [rewrite (scanToken_bang _ _ R0), match_rest, R1, D|]; reflexivity.
  - destruct r as [|d r']; simpl.
    + eapply ERR; [rewrite (scanToken_tilde _ _ R0), match_rest, R1|];
        reflexivity.
    + destruct (d =? "=") eqn:D; simpl.
      * eapply (OK _ d r'); [reflexivity|].
        rewrite (scanToken_tilde _ _ R0), match_rest, R1, D. reflexivity.
      * eapply ERR;
          [rewrite (scanToken_tilde _ _ R0), match_rest, R1, D|]; reflexivity.
  - destruct r as [|d r']; simpl.
    + eapply ERR;
        [rewrite (scanToken_question _ _ R0), match_rest, R1; cbn iota;
         rewrite match_rest, R1|]; reflexivity.
    + destruct (d =? ".") eqn:D; simpl.
      * eapply (OK _ d r'); [reflexivity|].
        rewrite (scanToken_question _ _ R0), match_rest, R1, D. reflexivity.
      * destruct (d =? "?") eqn:D2; simpl.
        -- eapply (OK _ d r'); [reflexivity|].
           rewrite (scanToken_question _ _ R0), match_rest, R1, D.
           cbn iota. rewrite match_rest, R1, D2. reflexivity.
        -- eapply ERR;
             [rewrite (scanToken_question _ _ R0), match_rest, R1, D;
              cbn iota; rewrite match_rest, R1, D2|]; reflexivity.
Qed.

(** *** A backslash at the end of the input, inside a quoted string *)

(** C1, the failing input: a source of two bytes, a double quote and a
    backslash.  The loop of [string] skips the backslash and then advances once more,
    past the end of the source: the index panics and no error is
    returned. *)
Theorem quoted_backslash_at_end_panics :
  tokenize [dquote; backslash] = Panic.
Proof. reflexivity. Qed.

Lemma string_loop_trailing_backslash quote : forall body fuel l,
  rest l = body ++ [backslash] ->
  Forall (fun c => c <> quote /\ c <> newline /\ c <> backslash) body ->
  quote <> backslash -> length body < fuel ->
  string_loop fuel quote l = Panic.
Proof.
  induction body as [|c body IH]; intros fuel l R H Q F;
    (destruct fuel as [|fuel]; [simpl in F; lia|]); cbn [string_loop];
    simpl in R; view R.
  - rewrite (eqb_neq_false backslash quote) by congruence. cbn [negb andb].
    change (backslash =? newline) with false.
    change (backslash =? backslash) with true. cbn [bind].
    rewrite advance_rest, rest_bump, R. reflexivity.
  - inversion H as [|? ? (N1 & N2 & N3) H']; subst.
    rewrite (eqb_neq_false _ _ N1), (eqb_neq_false _ _ N2),
      (eqb_neq_false _ _ N3). cbn [negb andb bind].
    rewrite advance_rest, R. cbn [bind]. apply IH; auto.
    + rewrite rest_bump, R. reflexivity.
    + simpl in F. lia.
Qed.

Lemma quoted_trailing_backslash_panics l q body :
  q = dquote \/ q = squote ->
  rest l = q :: body ++ [backslash] ->
  Forall (fun c => c <> q /\ c <> newline /\ c <> backslash) body ->
  Tokenize l = Panic.
Proof.
  intros Q R H. apply (Tokenize_Panic l _ _ R). unfold scan_step.
  set (l0 := set_start l (current l) (column l)).
  assert (R0 : rest l0 = q :: body ++ [backslash]) by exact R.
  assert (E : scanToken l0 = string_ q (bump l0)).
  { destruct Q as [-> | ->];
      [apply (scanToken_dquote _ _ R0)|apply (scanToken_squote _ _ R0)]. }
  rewrite E. unfold string_.
  rewrite (string_loop_trailing_backslash q body); auto.
  - rewrite rest_bump, R0. reflexivity.
  - destruct Q as [-> | ->]; discriminate.
  - pose proof (fuel_of_rest (bump l0)) as F. rewrite rest_bump, R0 in F.
    simpl in F. rewrite length_app in F. simpl in F. lia.
Qed.

(** *** Progress and termination *)

Lemma scan_step_blank l c r l' :
  rest l = c :: r -> is_blank c = true -> scan_step l = Ok l' ->
  tokens l' = tokens l.
Proof.
  intros R B E. unfold scan_step, scanToken in E.
  rewrite advance_rest, rest_set_start, R in E. cbn [bind] in E.
  unfold is_blank in B. rewrite !orb_true_iff in B.
  destruct B as [[[B|B]|B]|B]; apply Ascii.eqb_eq in B; subst c;
    injection E as <-; reflexivity.
Qed.

Lemma scan_step_comment_tokens l r l' :
  rest l = "-" :: "-" :: r -> scan_step l = Ok l' -> tokens l' = tokens l.
Proof.
  intros R E. rewrite (scan_step_comment l r R) in E.
  pose proof (rest_cons_lt _ _ _ R) as Lt.
  assert (Lt2 : S (current l) < length (source l)).
  { pose proof (length_skipn (current l) (source l)) as L.
    fold (rest l) in L. rewrite R in L. simpl in L. lia. }
  set (l2 := bump (bump (set_start l (current l) (column l)))) in *.
  assert (W : wf l2) by (unfold wf, l2; simpl; lia).
  pose proof (safe_Ok _ _ _ (comment_safe l2 W) E) as M.
  destruct M as (_ & _ & _ & _ & T & _). rewrite T. reflexivity.
Qed.

Lemma Tokenize_loop_more : forall n l,
  Tokenize_loop n l <> OutOfFuel ->
  forall m, n <= m -> Tokenize_loop m l = Tokenize_loop n l.
Proof.
  induction n as [|n IH]; intros l H m L; [simpl in H; contradiction|].
  destruct m as [|m]; [lia|]. cbn [Tokenize_loop] in *.
  destruct (negb (isAtEnd l)); auto.
  destruct (scan_step l) as [l1|e| |]; cbn [bind] in *; auto.
  apply IH; auto. lia.
Qed.

(** C9: a scan step never exhausts its loop bound; when it returns
    normally the cursor is strictly further, still within the source, and
    the token list is unchanged or longer by one token; on a blank, a
    newline or a comment it is unchanged.  [Tokenize], which repeats the
    step until the cursor is at the end, therefore ends within its bound on
    every source: with tokens, an error or a panic.  A larger bound gives
    the same result. *)
Theorem scan_step_advances_and_Tokenize_terminates :
  (forall l, scan_step l <> OutOfFuel) /\
  (forall l l',
      scan_step l = Ok l' ->
      current l < current l' <= length (source l) /\
      (tokens l' = tokens l \/ exists t, tokens l' = tokens l ++ [t])) /\
  (forall l l' c r,
      rest l = c :: r ->
      is_blank c = true \/ (c = "-" /\ hd zero r = "-") ->
      scan_step l = Ok l' -> tokens l' = tokens l) /\
  (forall l, Tokenize l <> OutOfFuel) /\
  (forall src, tokenize src <> OutOfFuel) /\
  (forall l fuel,
      fuel_of l <= fuel ->
      Tokenize_loop fuel l = Tokenize_loop (fuel_of l) l).
Proof.
  split; [|split; [|split; [|split; [|split]]]].
  - intros l. eapply safe_not_OutOfFuel. apply scan_step_safe.
  - intros l l' E.
    destruct (safe_Ok _ _ _ (scan_step_safe l) E) as (_ & C & W & T).
    split; [lia|]. destruct T as [T|(t & T & _)]; eauto.
  - intros l l' c r R [B|(-> & H)] E.
    + eapply scan_step_blank; eauto.
    + destruct r as [|d r']; simpl in H; [discriminate|]. subst d.
      eapply scan_step_comment_tokens; eauto.
  - intros l. eapply safe_not_OutOfFuel. apply Tokenize_safe.
  - intros src. eapply safe_not_OutOfFuel. apply Tokenize_safe.
  - intros l fuel F. apply Tokenize_loop_more; auto.
    eapply safe_not_OutOfFuel. apply Tokenize_loop_safe. unfold fuel_of. lia.
Qed.

(** *** The shape of a successful result *)

Lemma real_not_sentinel ts :
  real_tokens ts ->
  Forall (fun t => Type_ t <> TOKEN_EOF /\ Type_ t <> TOKEN_NEWLINE) ts.
Proof.
  unfold real_tokens. intros H. eapply Forall_impl; [|exact H].
  intros t K. simpl in K. split; intros E; rewrite E in K; discriminate.
Qed.

(** C10: when [Tokenize] succeeds on a source, the result is a list of
    tokens followed by one [TOKEN_EOF] token: it is not empty, its last
    element has kind [TOKEN_EOF], no element before the last has that kind,
    and no element at all has kind [TOKEN_NEWLINE]. *)
Theorem Tokenize_result_ends_in_single_EOF :
  forall src toks,
    tokenize src = Ok toks ->
    toks <> [] /\
    exists body eof,
      toks = body ++ [eof] /\ Type_ eof = TOKEN_EOF /\
      Forall (fun t => Type_ t <> TOKEN_EOF) body /\
      Forall (fun t => Type_ t <> TOKEN_NEWLINE) toks.
Proof.
  intros src toks E. unfold tokenize in E.
  destruct (safe_Ok _ _ _ (Tokenize_safe (NewLexer src)) E)
    as (ts & ln & col & -> & R).
  simpl. apply real_not_sentinel in R. split.
  - destruct ts; discriminate.
  - exists ts, (mkToken TOKEN_EOF [] ln col). repeat split.
    + eapply Forall_impl; [|exact R]. intros t H; apply H.
    + apply Forall_app. split.
      * eapply Forall_impl; [|exact R]. intros t H; apply H.
      * constructor; [simpl; discriminate|constructor].
Qed.

(** ** Numeral conversion *)

Lemma ble_byte_val a b : ble a b = (byte_val a <=? byte_val b)%Z.
Proof.
  unfold ble, byte_val, nat_of_ascii.
  destruct (Nat.leb_spec (N.to_nat (N_of_ascii a)) (N.to_nat (N_of_ascii b)));
    destruct (Z.leb_spec (Z.of_N (N_of_ascii a)) (Z.of_N (N_of_ascii b)));
    auto; lia.
Qed.

Lemma byte_val_zero_char : byte_val "0" = 48%Z.
Proof. reflexivity. Qed.

Lemma is_digit_of_digit base c :
  (base <= 10)%Z -> is_digit_of base c = true ->
  exists d, digit_of c = Some d /\ d = (byte_val c - byte_val "0")%Z /\
            (0 <= d < base)%Z.
Proof.
  intros B H. unfold is_digit_of in H. apply andb_prop in H.
  destruct H as (H1 & H2). rewrite ble_byte_val in H1.
  apply Z.leb_le in H1. apply Z.ltb_lt in H2.
  exists (byte_val c - byte_val "0")%Z. unfold digit_of.
  rewrite !ble_byte_val.
  replace (byte_val "0" <=? byte_val c)%Z with true
    by (symmetry; apply Z.leb_le; exact H1).
  replace (byte_val c <=? byte_val "9")%Z with true
    by (symmetry; apply Z.leb_le; change (byte_val "9") with 57%Z;
        rewrite byte_val_zero_char in *; lia).
  simpl. repeat split; lia.
Qed.

Lemma not_digit_of_rejected base c :
  (base <= 10)%Z -> is_digit_of base c = false ->
  match digit_of c with
  | None => True
  | Some d => (base <= d)%Z
  end.
Proof.
  intros B H. unfold is_digit_of in H. unfold digit_of.
  rewrite !ble_byte_val in *.
  destruct (byte_val "0" <=? byte_val c)%Z eqn:H1; simpl in *.
  - destruct (byte_val c <=? byte_val "9")%Z eqn:H2; simpl.
    + apply Z.ltb_ge in H. exact H.
    + destruct ((byte_val "a" <=? byte_val (lower c))%Z
                && (byte_val (lower c) <=? byte_val "z")%Z) eqn:H3; auto.
      apply andb_prop in H3. destruct H3 as (H3 & _).
      apply Z.leb_le in H3. lia.
  - destruct ((byte_val "a" <=? byte_val (lower c))%Z
              && (byte_val (lower c) <=? byte_val "z")%Z) eqn:H3; auto.
    apply andb_prop in H3. destruct H3 as (H3 & _).
    apply Z.leb_le in H3. lia.
Qed.

Lemma digits_from_ge base : forall ds n,
  (2 <= base <= 10)%Z -> forallb (is_digit_of base) ds = true ->
  (0 <= n)%Z -> (n <= digits_from base n ds)%Z.
Proof.
  induction ds as [|c ds IH]; intros n B H N; simpl in *; [lia|].
  apply andb_prop in H. destruct H as (H1 & H2).
  destruct (is_digit_of_digit base c) as (d & _ & -> & D); auto; [lia|].
  unfold digits_from in *.
  assert (P : (0 <= n * base + (byte_val c - byte_val "0"))%Z) by nia.
  specialize (IH (n * base + (byte_val c - byte_val "0"))%Z B H2 P).
  nia.
Qed.

Lemma ParseUint_loop_digits base : forall ds n,
  (2 <= base <= 10)%Z -> forallb (is_digit_of base) ds = true ->
  (0 <= n)%Z -> (digits_from base n ds <= maxUint64)%Z ->
  ParseUint_loop base n ds = (digits_from base n ds, None).
Proof.
  induction ds as [|c ds IH]; intros n B H N M; simpl in *; [reflexivity|].
  apply andb_prop in H. destruct H as (H1 & H2).
  destruct (is_digit_of_digit base c) as (d & E & D & R); auto; [lia|].
  rewrite E. subst d.
  pose proof (digits_from_ge base ds
                (n * base + (byte_val c - byte_val "0"))%Z B H2) as G.
  unfold digits_from in G, M.
  assert (P : (n * base + (byte_val c - byte_val "0") <= maxUint64)%Z) by nia.
  replace (base <=? byte_val c - byte_val "0")%Z with false
    by (symmetry; apply Z.leb_gt; lia).
  replace (maxUint64 / base + 1 <=? n)%Z with false.
  2:{ symmetry. apply Z.leb_gt.
      assert (n <= maxUint64 / base)%Z; [|lia].
      apply Z.div_le_lower_bound; nia. }
  replace (maxUint64 <? n * base + (byte_val c - byte_val "0"))%Z with false
    by (symmetry; apply Z.ltb_ge; exact P).
  apply IH; auto. nia.
Qed.

Lemma ParseInt_digits base ds :
  (2 <= base <= 10)%Z -> ds <> [] -> forallb (is_digit_of base) ds = true ->
  (digits_value base ds < 2 ^ 63)%Z ->
  ParseInt ds base = (digits_value base ds, None).
Proof.
  intros B NE H V. destruct ds as [|c0 ds]; [contradiction|].
  unfold ParseInt.
  assert (H0 : is_digit_of base c0 = true)
    by (simpl in H; apply andb_prop in H; apply H).
  assert (S1 : (c0 =? "+") = false /\ (c0 =? "-") = false).
  { unfold is_digit_of in H0. apply andb_prop in H0. destruct H0 as (H0 & _).
    rewrite ble_byte_val in H0. apply Z.leb_le in H0.
    split; apply Ascii.eqb_neq; intros ->; vm_compute in H0; auto. }
  destruct S1 as (-> & ->). cbn [orb negb andb].
  unfold ParseUint.
  rewrite (ParseUint_loop_digits base (c0 :: ds) 0%Z); auto; try lia.
  - change (digits_from base 0 (c0 :: ds))
      with (digits_value base (c0 :: ds)).
    replace (2 ^ 63 <=? digits_value base (c0 :: ds))%Z with false
      by (symmetry; apply Z.leb_gt; exact V).
    reflexivity.
  - change (digits_from base 0 (c0 :: ds))
      with (digits_value base (c0 :: ds)). unfold maxUint64. lia.
Qed.

Lemma ParseUint_loop_bad base c : forall s n,
  (base <= 10)%Z -> In c s -> is_digit_of base c = false ->
  exists v e,
    ParseUint_loop base n s = (v, Some e) /\
    (e = ErrRange -> v = maxUint64).
Proof.
  induction s as [|a s IH]; intros n B I H; [destruct I|]. simpl.
  destruct (digit_of a) as [d|] eqn:D.
  2:{ exists 0%Z, ErrSyntax. split; [reflexivity|discriminate]. }
  destruct (base <=? d)%Z eqn:K.
  { exists 0%Z, ErrSyntax. split; [reflexivity|discriminate]. }
  destruct (maxUint64 / base + 1 <=? n)%Z.
  { exists maxUint64, ErrRange. auto. }
  destruct (maxUint64 <? n * base + d)%Z.
  { exists maxUint64, ErrRange. auto. }
  destruct I as [->|I]; [|apply IH; auto].
  pose proof (not_digit_of_rejected base c B H) as R. rewrite D in R.
  apply Z.leb_gt in K. lia.
Qed.

Lemma ParseInt_bad base c s :
  (base <= 10)%Z -> In c s -> is_digit_of base c = false ->
  c <> "+" -> c <> "-" ->
  exists v e, ParseInt s base = (v, Some e).
Proof.
  intros B I H P M. destruct s as [|c0 s1]; [destruct I|].
  unfold ParseInt.
  set (s' := if (c0 =? "+") || (c0 =? "-") then s1 else c0 :: s1).
  assert (I' : In c s').
  { unfold s'. destruct ((c0 =? "+") || (c0 =? "-")) eqn:Sg; auto.
    destruct I as [->|I]; auto. apply orb_prop in Sg.
    destruct Sg as [Sg|Sg]; apply Ascii.eqb_eq in Sg; contradiction. }
  unfold ParseUint. destruct s' as [|a s'']; [destruct I'|].
  destruct (ParseUint_loop_bad base c (a :: s'') 0%Z B I' H)
    as (v & e & E & R).
  rewrite E. destruct e.
  - eauto.
  - rewrite (R eq_refl). destruct (c0 =? "-"); simpl; eauto.
Qed.

Lemma FormatInt_reads_back n :
  option_map Z.of_int
    (NilZero.int_of_string (string_of_list_ascii (FormatInt n))) = Some n.
Proof.
  unfold FormatInt. rewrite string_of_list_ascii_of_string.
  rewrite NilZero.isi.
  - simpl. rewrite DecimalZ.of_to. reflexivity.
  - destruct n; simpl; try discriminate.
    intros E. injection E as E. apply (DecimalPos.Unsigned.to_uint_nonnil _ E).
  - destruct n; simpl; try discriminate.
    intros E. injection E as E. apply (DecimalPos.Unsigned.to_uint_nonnil _ E).
Qed.

(** ** The compile command *)

Section DriverFacts.

Context {OS : Type}.
Variable ReadFile : OS -> list ascii -> result (list ascii).
Variable WriteFile :
  OS -> list ascii -> list ascii -> OS * option (list ascii).
Variable compiler_Compile : list Token -> result (list ascii).

Local Notation "'compile_file'" :=
  (compileFile OS ReadFile WriteFile compiler_Compile).
Local Notation "'compile_files'" :=
  (compile_each OS ReadFile WriteFile compiler_Compile).

Lemma compileFile_attempted file opts w w1 err :
  compile_file file opts w = Ok (w1, err) ->
  attempted w1 = attempted w ++ [file].
Proof.
  unfold compileFile.
  destruct (negb (HasSuffix file (str ".tkm")));
    [intros E; injection E as <- _; reflexivity|].
  cbn [os attempt].
  destruct (ReadFile (os w) file) as [src|msg];
    [|intros E; injection E as <- _; reflexivity].
  destruct (Compile compiler_Compile src) as [[out|msg]| | |];
    cbn [bind]; try discriminate.
  - destruct (PrintOnly opts || ToStdout opts);
      [intros E; injection E as <- _; reflexivity|].
    destruct (WriteFile _ _ _) as [o [msg|]];
      [intros E; injection E as <- _; reflexivity|].
    destruct (negb (Quiet opts)); intros E; injection E as <- _;
      reflexivity.
  - intros E; injection E as <- _; reflexivity.
Qed.

(** C8, as the code has it: the loop over the expanded files stops at the
    first file whose compilation returns an error.  The error is printed
    on standard error and the process exits with status 1; the files
    after it are not attempted.  When the loop returns, every file was
    attempted, in order. *)
Theorem compile_each_stops_at_first_error :
  (forall file later opts w w1 msg,
      compile_file file opts w = Ok (w1, Some msg) ->
      compile_files (file :: later) opts w
      = Ok (eprint (str "error: " ++ msg ++ [newline]) w1, Exits 1) /\
      attempted w1 = attempted w ++ [file]) /\
  (forall files opts w w' e,
      compile_files files opts w = Ok (w', e) ->
      match e with
      | Returns => attempted w' = attempted w ++ files
      | Exits code =>
          code = 1 /\
          exists done failed later,
            files = done ++ failed :: later /\
            attempted w' = attempted w ++ done ++ [failed]
      end).
Proof.
  split.
  - intros file later opts w w1 msg E. split.
    + cbn [compile_each]. rewrite E. reflexivity.
    + eapply compileFile_attempted; eauto.
  - induction files as [|file files IH]; intros opts w w' e E.
    + injection E as <- <-. rewrite app_nil_r. reflexivity.
    + cbn [compile_each] in E.
      destruct (compileFile OS ReadFile WriteFile compiler_Compile
                  file opts w) as [[w1 [msg|]]| | |] eqn:C;
        cbn [bind] in E; try discriminate E.
      * injection E as <- <-. split; [reflexivity|].
        exists [], file, files. split; [reflexivity|].
        apply (compileFile_attempted _ _ _ _ _ C).
      * apply compileFile_attempted in C. apply IH in E.
        destruct e as [|code].
        -- rewrite E, C, <- app_assoc. reflexivity.
        -- destruct E as (-> & done & failed & later & -> & A).
           split; [reflexivity|].
           exists (file :: done), failed, later. split; [reflexivity|].
           rewrite A, C, <- !app_assoc. reflexivity.
Qed.

End DriverFacts.

(** C8, counterexample: two inputs, the first of which is not a [.tkm]
    file.  The command exits with status 1 after the first and the second
    is never attempted.  The file system is empty and no pattern matches,
    so each pattern stands for itself. *)
Lemma second_file_not_attempted_after_error :
  exists w',
    handleCompile unit (fun _ _ => Failure (str "no such file"))
      (fun o _ _ => (o, None)) (fun _ _ => Success [])
      (fun _ => Success [])
      [str "a.txt"; str "b.tkm"] (mkWorld tt [] [] [])
    = Ok (w', Exits 1) /\
    attempted w' = [str "a.txt"] /\
    ~ In (str "b.tkm") (attempted w') /\
    stderr w' = str "error: 'a.txt' is not a .tkm file" ++ [newline].
Proof.
  eexists. split; [vm_compute; reflexivity|]. simpl.
  repeat split; auto. intros [H|[]]. discriminate H.
Qed.

(** ** The theorems at concrete inputs *)

Lemma unclosed_long_comment_runs_to_end_witness :
  exists l',
    scan_step (NewLexer (str "--[[ abc")) = Ok l' /\
    tokens l' = [] /\ rest l' = [] /\ line l' = 1 + 0 /\
    Tokenize (NewLexer (str "--[[ abc"))
    = Ok ([] ++ [mkToken TOKEN_EOF [] (1 + 0) (column l')]).
Proof.
  apply (unclosed_long_comment_runs_to_end
           (NewLexer (str "--[[ abc")) 0 (str " abc")).
  - reflexivity.
  - apply no_bracket_no_close. simpl. intuition discriminate.
Defined.

Lemma template_string_scanned_or_unterminated_witness :
  exists l' ln,
    scan_step (NewLexer (str "`a${b}c` x")) = Ok l' /\
    tokens l' = [] ++
      [mkToken TOKEN_TEMPLATE_STRING (str "`a${b}c`") ln 1] /\
    current l' = 0 + 8 /\ source l' = str "`a${b}c` x" /\
    hd zero (str "`a${b}c`") = backquote /\
    last (str "`a${b}c`") zero = backquote.
Proof.
  exact (template_string_scanned_or_unterminated
           (NewLexer (str "`a${b}c` x")) (str "a${b}c` x") eq_refl).
Defined.

Lemma bare_bang_tilde_question_witness :
  exists e,
    scan_step (NewLexer (str "!x")) = Err e /\
    Tokenize (NewLexer (str "!x")) = Err e /\ err_line e = 1.
Proof.
  apply (proj2 (proj2 bare_bang_tilde_question)
           (NewLexer (str "!x")) "!" (str "x")).
  - reflexivity.
  - left; reflexivity.
Defined.

Lemma mismatched_bracket_is_line_comment_witness :
  exists l',
    scan_step (NewLexer (str "--[=x y")) = Ok l' /\
    tokens l' = [] /\ line l' = 1 /\ source l' = str "--[=x y" /\
    current l' = 0 + (3 + 1 + 3) /\
    rest l' = [] /\
    ~ In newline (str "x y") /\
    (rest l' = [] \/ hd zero (rest l') = newline).
Proof.
  apply (mismatched_bracket_is_line_comment
           (NewLexer (str "--[=x y")) 1 (str "x y")).
  - reflexivity.
  - discriminate.
  - discriminate.
Defined.

Lemma compile_each_stops_at_first_error_witness :
  compile_each unit (fun _ _ => Failure []) (fun o _ _ => (o, None))
    (fun _ => Success [])
    [str "a.txt"; str "b.tkm"] (mkOptions [] false false false)
    (mkWorld tt [] [] [])
  = Ok (eprint (str "error: " ++ str "'a.txt' is not a .tkm file"
                  ++ [newline])
          (mkWorld tt [] [] [str "a.txt"]), Exits 1) /\
  [str "a.txt"] = [] ++ [str "a.txt"].
Proof.
  apply (proj1 (compile_each_stops_at_first_error
                  (fun _ _ => Failure []) (fun o _ _ => (o, None))
                  (fun _ => Success []))).
  reflexivity.
Defined.

Lemma scan_step_advances_and_Tokenize_terminates_witness :
  0 < 1 <= 1 /\
  ([mkToken TOKEN_IDENT (str "x") 1 1] = [] \/
   exists t, [mkToken TOKEN_IDENT (str "x") 1 1] = [] ++ [t]).
Proof.
  apply (proj1 (proj2 scan_step_advances_and_Tokenize_terminates)
           (NewLexer (str "x"))
           (mkLexer (str "x") [mkToken TOKEN_IDENT (str "x") 1 1] 0 1 1 2 1)).
  reflexivity.
Defined.

Lemma Tokenize_result_ends_in_single_EOF_witness :
  [mkToken TOKEN_IDENT (str "x") 1 1; mkToken TOKEN_EOF [] 1 2] <> [] /\
  exists body eof,
    [mkToken TOKEN_IDENT (str "x") 1 1; mkToken TOKEN_EOF [] 1 2]
    = body ++ [eof] /\
    Type_ eof = TOKEN_EOF /\
    Forall (fun t => Type_ t <> TOKEN_EOF) body /\
    Forall (fun t => Type_ t <> TOKEN_NEWLINE)
      [mkToken TOKEN_IDENT (str "x") 1 1; mkToken TOKEN_EOF [] 1 2].
Proof.
  apply (Tokenize_result_ends_in_single_EOF (str "x")).
  reflexivity.
Defined.

(** * Further properties of the lexer *)

(** ** Outcomes, errors and panics *)

Lemma post_bind {A B : Type} (Q1 : A -> Prop) (Q2 : B -> Prop)
    (E : LexError -> Prop) (P : Prop) (m : outcome A) (k : A -> outcome B) :
  post Q1 E P m -> (forall a, Q1 a -> post Q2 E P (k a)) ->
  post Q2 E P (bind m k).
Proof. destruct m; simpl; auto; contradiction. Qed.

Lemma post_weaken {A : Type} (Q1 Q2 : A -> Prop) (E1 E2 : LexError -> Prop)
    (P1 P2 : Prop) (m : outcome A) :
  post Q1 E1 P1 m -> (forall a, Q1 a -> Q2 a) -> (forall e, E1 e -> E2 e) ->
  (P1 -> P2) -> post Q2 E2 P2 m.
Proof. destruct m; simpl; auto. Qed.

Lemma newlines_app a b : newlines (a ++ b) = newlines a + newlines b.
Proof. unfold newlines. apply count_occ_app. Qed.

Lemma newlines_skipn_le n s : newlines (skipn n s) <= newlines s.
Proof.
  rewrite <- (firstn_skipn n s) at 2. rewrite newlines_app. lia.
Qed.

Lemma kept_refl l : kept l l.
Proof.
  exists 0. split; [apply scan_to_refl|]. split; [lia|apply lines_kept_refl].
Qed.

Lemma kept_trans l1 l2 l3 : kept l1 l2 -> kept l2 l3 -> kept l1 l3.
Proof.
  intros (n & T & B & K) (m & T' & B' & K'). exists (n + m).
  split; [eapply scan_to_trans; eauto|].
  split; [|eapply lines_kept_trans; eauto].
  rewrite (scan_to_rest _ _ _ T), length_skipn in B'. lia.
Qed.

Lemma scan_to_kept n l l' :
  scan_to n l l' -> n <= length (rest l) -> line l' = line l -> kept l l'.
Proof.
  intros T B L. exists n. split; [exact T|]. split; [exact B|].
  unfold lines_kept. rewrite (scan_to_rest _ _ _ T), L.
  pose proof (newlines_skipn_le n (rest l)). lia.
Qed.

Lemma kept_bump l c r : rest l = c :: r -> kept l (bump l).
Proof.
  intros R. apply (scan_to_kept 1); [apply scan_to_bump| |reflexivity].
  rewrite R. simpl. lia.
Qed.

Lemma kept_newline_bump l c r :
  rest l = c :: r -> kept l (bump (count_newline l)).
Proof.
  intros R. exists 1. split; [|split].
  - apply (scan_to_trans 0 1 _ _ _ (scan_to_count_newline l)), scan_to_bump.
  - rewrite R. simpl. lia.
  - eapply lines_kept_count_newline; eauto.
Qed.

Lemma kept_err_in l l1 e : kept l l1 -> err_in l1 e -> err_in l e.
Proof. intros (n & _ & _ & K). unfold err_in, lines_kept in *. lia. Qed.

Lemma emit_kept k l l1 l' : kept l l1 -> emit k l1 l' -> emit k l l'.
Proof.
  intros K (l2 & K2 & ->). exists l2. split; [|reflexivity].
  eapply kept_trans; eauto.
Qed.

Lemma err_in_here l e : err_line e = line l -> err_in l e.
Proof. unfold err_in. lia. Qed.

Lemma peek_nonempty l c :
  (peek l =? c) = true -> c <> zero -> exists r, rest l = c :: r.
Proof.
  rewrite peek_rest. intros E N. apply Ascii.eqb_eq in E.
  destruct (rest l) as [|a r]; simpl in E; [congruence|]. subst a. eauto.
Qed.

Lemma count_newline_id l :
  (hd zero (rest l) =? newline) = false -> count_newline l = l.
Proof. unfold count_newline. rewrite peek_rest. intros ->. reflexivity. Qed.

Lemma span_len_le p s : span_len p s <= length s.
Proof. induction s as [|c s IH]; simpl; [lia|]. destruct (p c); simpl; lia. Qed.

Lemma span_len_all p s : forallb p (firstn (span_len p s) s) = true.
Proof.
  induction s as [|c s IH]; simpl; auto.
  destruct (p c) eqn:E; simpl; auto. rewrite E. exact IH.
Qed.

Lemma span_len_stop p s :
  p zero = false -> p (hd zero (skipn (span_len p s) s)) = false.
Proof.
  intros Z. induction s as [|c s IH]; simpl; auto.
  destruct (p c) eqn:E; simpl; auto.
Qed.

(** ** Loops that cannot fail *)

Lemma while_peek_exact p :
  p zero = false ->
  forall fuel l,
    length (rest l) < fuel ->
    exists l',
      while_advance (fun l => p (peek l)) fuel l = Ok l' /\
      scan_to (span_len p (rest l)) l l' /\ line l' = line l.
Proof.
  intros Z. induction fuel as [|fuel IH]; intros l F; [lia|].
  cbn [while_advance].
  destruct (rest l) as [|c r] eqn:R; view R.
  - rewrite Z. exists l. simpl. auto using scan_to_refl.
  - simpl in F |- *. destruct (p c) eqn:E.
    + destruct (IH (bump l)) as (l' & E' & T' & L').
      { rewrite rest_bump, R. simpl. lia. }
      rewrite rest_bump, R in T'. simpl in T'.
      exists l'. split; [exact E'|]. split; [|exact L'].
      eapply (scan_to_trans 1); [apply scan_to_bump|exact T'].
    + exists l. auto using scan_to_refl.
Qed.

Lemma while_peek_kept p l :
  p zero = false ->
  exists l',
    while_advance (fun l => p (peek l)) (fuel_of l) l = Ok l' /\ kept l l' /\
    rest l' = skipn (span_len p (rest l)) (rest l).
Proof.
  intros Z.
  destruct (while_peek_exact p Z (fuel_of l) l (fuel_of_rest l))
    as (l' & E & T & L).
  exists l'. split; [exact E|]. split.
  - eapply scan_to_kept; eauto. apply span_len_le.
  - apply (scan_to_rest _ _ _ T).
Qed.

Lemma skip_line_kept l : exists l', skip_line l = Ok l' /\ kept l l'.
Proof.
  destruct (skip_line_exact l) as (l' & E & T & L).
  exists l'. split; [exact E|].
  eapply scan_to_kept; eauto. apply until_newline_le.
Qed.

Lemma count_eq_kept : forall fuel k l,
  length (rest l) < fuel ->
  exists k' l',
    count_eq fuel k l = Ok (k', l') /\ kept l l' /\ line l' = line l.
Proof.
  induction fuel as [|fuel IH]; intros k l F; [lia|]. cbn [count_eq].
  destruct (rest l) as [|c r] eqn:R; view R.
  - change (zero =? "=") with false. exists k, l. auto using kept_refl.
  - destruct (c =? "=").
    + destruct (IH (S k) (bump l)) as (k' & l' & E' & K' & L').
      { rewrite rest_bump, R. simpl in *. lia. }
      exists k', l'. split; [exact E'|]. split; [|exact L'].
      eapply kept_trans; [eapply kept_bump; eauto|exact K'].
    + exists k, l. auto using kept_refl.
Qed.

Lemma match_eq_kept fuel k l :
  length (rest l) < fuel ->
  exists m l',
    match_eq fuel k 0 l = Ok (m, l') /\ kept l l' /\ line l' = line l /\
    rest l' = skipn (eq_run k (rest l)) (rest l).
Proof.
  intros F. destruct (match_eq_exact fuel k 0 l) as (l' & E & T & L);
    [lia|exact F|].
  rewrite Nat.sub_0_r in *. exists (0 + eq_run k (rest l)), l'.
  split; [exact E|]. split; [|split; [exact L|apply (scan_to_rest _ _ _ T)]].
  eapply scan_to_kept; eauto. apply eq_run_spec.
Qed.

Lemma comment_body_kept : forall fuel n l,
  length (rest l) < fuel ->
  exists l', comment_body fuel n l = Ok l' /\ kept l l'.
Proof.
  induction fuel as [|fuel IH]; intros n l F; [lia|]. cbn [comment_body].
  destruct (rest l) as [|c r] eqn:R; rewrite isAtEnd_rest, R; cbn [negb].
  { exists l. auto using kept_refl. }
  cbn zeta. rewrite peek_rest, rest_count_newline, R. cbn [hd].
  pose proof (kept_newline_bump l c r R) as K1.
  assert (R1 : rest (bump (count_newline l)) = r)
    by (rewrite rest_bump, rest_count_newline, R; reflexivity).
  rewrite advance_rest, rest_count_newline, R.
  simpl in F.
  destruct (c =? "]"); cbn [bind].
  - destruct (match_eq_kept (fuel_of (bump (count_newline l))) n
                (bump (count_newline l)) (fuel_of_rest _))
      as (m & l2 & E2 & K2 & L2 & R2).
    rewrite E2. cbn [bind].
    assert (K : kept l l2) by (eapply kept_trans; eauto).
    destruct ((m =? n)%nat && (peek l2 =? "]")) eqn:T.
    + apply andb_prop in T. destruct T as (_ & T).
      destruct (peek_nonempty l2 _ T) as (r2 & R2'); [discriminate|].
      rewrite advance_rest, R2'. cbn [bind]. exists (bump l2).
      split; [reflexivity|].
      eapply kept_trans; [exact K|eapply kept_bump; eauto].
    + destruct (IH n l2) as (l' & E' & K').
      { rewrite R2, R1, length_skipn. lia. }
      exists l'. split; [exact E'|]. eapply kept_trans; eauto.
  - destruct (IH n (bump (count_newline l))) as (l' & E' & K').
    { rewrite R1. lia. }
    exists l'. split; [exact E'|]. eapply kept_trans; eauto.
Qed.

Lemma comment_kept l : exists l', comment l = Ok l' /\ kept l l'.
Proof.
  unfold comment.
  destruct ((peek l =? "[") && ((peekNext l =? "[") || (peekNext l =? "=")))
    eqn:T; [|apply skip_line_kept].
  apply andb_prop in T. destruct T as (T & _).
  destruct (peek_nonempty l _ T) as (r & R); [discriminate|].
  rewrite advance_rest, R. cbn [bind].
  pose proof (kept_bump l _ _ R) as K1.
  destruct (count_eq_kept (fuel_of (bump l)) 0 (bump l) (fuel_of_rest _))
    as (k & l2 & E2 & K2 & _).
  rewrite E2. cbn [bind].
  destruct (peek l2 =? "[") eqn:T2; cbn [negb].
  - destruct (peek_nonempty l2 _ T2) as (r2 & R2); [discriminate|].
    rewrite advance_rest, R2. cbn [bind].
    destruct (comment_body_kept (fuel_of (bump l2)) k (bump l2)
                (fuel_of_rest _)) as (l' & E' & K').
    exists l'. split; [exact E'|].
    eapply kept_trans; [exact K1|]. eapply kept_trans; [exact K2|].
    eapply kept_trans; [eapply kept_bump; eauto|exact K'].
  - destruct (skip_line_kept l2) as (l' & E' & K').
    exists l'. split; [exact E'|].
    eapply kept_trans; [exact K1|]. eapply kept_trans; eauto.
Qed.

(** ** Scanners that add a token *)

Lemma emit_here k l l1 : kept l l1 -> emit k l (addToken k l1).
Proof. intros K. exists l1. auto. Qed.

Lemma multiline_body_post : forall fuel n sl l,
  length (rest l) < fuel ->
  post (emit TOKEN_STRING l) (err_in l) False (multiline_body fuel n sl l).
Proof.
  induction fuel as [|fuel IH]; intros n sl l F; [lia|].
  cbn [multiline_body].
  destruct (rest l) as [|c r] eqn:R; rewrite isAtEnd_rest, R; cbn [negb].
  { apply err_in_here. reflexivity. }
  cbn zeta. rewrite peek_rest, rest_count_newline, R. cbn [hd].
  simpl in F.
  destruct (c =? "]") eqn:C.
  - apply Ascii.eqb_eq in C. subst c.
    rewrite (count_newline_id l) by (rewrite R; reflexivity).
    rewrite advance_rest, R. cbn [bind].
    pose proof (kept_bump l _ _ R) as K1.
    assert (R1 : rest (bump l) = r) by (rewrite rest_bump, R; reflexivity).
    destruct (match_eq_kept (fuel_of (bump l)) n (bump l) (fuel_of_rest _))
      as (m & l2 & E2 & K2 & L2 & R2).
    rewrite E2. cbn [bind].
    destruct ((m =? n)%nat && (peek l2 =? "]")) eqn:T.
    + apply andb_prop in T. destruct T as (_ & T).
      destruct (peek_nonempty l2 _ T) as (r2 & R2'); [discriminate|].
      rewrite advance_rest, R2'. cbn [bind post].
      apply (emit_here TOKEN_STRING l (bump l2)).
      eapply kept_trans; [exact K1|].
      eapply kept_trans; [exact K2|eapply kept_bump; eauto].
    + set (l3 := set_current l2 (current l + 1)).
      assert (T3 : scan_to 1 l l3).
      { destruct K2 as (j & (S2 & A2 & B2 & D2 & _) & _).
        unfold scan_to, l3; simpl in *. repeat split; auto. }
      assert (K3 : kept l l3).
      { apply (scan_to_kept 1);
          [exact T3|rewrite R; simpl; lia|].
        unfold l3. simpl. rewrite L2. reflexivity. }
      assert (R3 : rest l3 = r).
      { rewrite (scan_to_rest _ _ _ T3), R. reflexivity. }
      eapply post_weaken; [apply IH; rewrite R3; lia| | |tauto].
      * intros l'. apply emit_kept. exact K3.
      * intros e. apply kept_err_in. exact K3.
  - rewrite advance_rest, rest_count_newline, R. cbn [bind].
    pose proof (kept_newline_bump l c r R) as K1.
    eapply post_weaken; [apply IH| | |tauto].
    + rewrite rest_bump, rest_count_newline, R. simpl. lia.
    + intros l'. apply emit_kept. exact K1.
    + intros e. apply kept_err_in. exact K1.
Qed.

(** [multilineString] is entered with the cursor one past the token
    start. *)
Lemma multilineString_post l :
  current l = start l + 1 ->
  post (fun l' => emit TOKEN_STRING l l' \/ emit TOKEN_LBRACKET l l')
       (err_in l) False (multilineString l).
Proof.
  intros C. unfold multilineString.
  destruct (count_eq_kept (fuel_of l) 0 l (fuel_of_rest _))
    as (k & l1 & E1 & K1 & L1).
  rewrite E1. cbn [bind].
  destruct (peek l1 =? "[") eqn:T; cbn [negb].
  - destruct (peek_nonempty l1 _ T) as (r1 & R1); [discriminate|].
    rewrite advance_rest, R1. cbn [bind].
    assert (K2 : kept l (bump l1))
      by (eapply kept_trans; [exact K1|eapply kept_bump; eauto]).
    eapply post_weaken;
      [apply multiline_body_post; apply fuel_of_rest| | |tauto].
    + intros l' H. left. eapply emit_kept; eauto.
    + intros e. apply kept_err_in. exact K2.
  - right. exists (set_current l1 (start l1 + 1)). split; [|reflexivity].
    destruct K1 as (j & (S1 & A1 & B1 & D1 & C1) & _ & _).
    apply (scan_to_kept 0).
    + unfold scan_to; simpl. repeat split; auto. lia.
    + lia.
    + simpl. exact L1.
Qed.

Lemma slice_extend s st cur k :
  st <= cur ->
  slice s st (cur + k) = slice s st cur ++ firstn k (skipn cur s).
Proof.
  intros H. unfold slice.
  replace (cur + k - st) with ((cur - st) + k) by lia.
  rewrite firstn_plus, skipn_skipn.
  replace (cur - st + st) with cur by lia. reflexivity.
Qed.

Lemma templateString_post l :
  start l <= current l ->
  slice (source l) (start l) (current l) = [backquote] ->
  post (emit TOKEN_TEMPLATE_STRING l) (err_in l) False (templateString l).
Proof.
  intros S0 V0. unfold templateString.
  pose proof (template_loop_exact (fuel_of l) [backquote] l (fuel_of_rest l))
    as P. unfold template_loop_post in P.
  destruct (template_end 0 (rest l)) as [k|] eqn:E.
  - destruct P as (l1 & E1 & T1 & K1 & H1). rewrite E1. cbn [bind].
    apply template_end_bounds in E.
    destruct (rest l1) as [|c r1] eqn:R1; [discriminate|].
    simpl in H1. injection H1 as ->.
    rewrite isAtEnd_rest, advance_rest, R1. cbn [bind post].
    exists (bump l1). split.
    + exists k. split; [|split; [lia|]].
      * eapply scan_to_eq; [|eapply scan_to_trans;
          [exact T1|apply scan_to_bump]]. lia.
      * eapply lines_kept_trans; [exact K1|apply lines_kept_bump].
    + unfold addToken. f_equal.
      destruct T1 as (S1 & A1 & B1 & D1 & C1). simpl.
      rewrite S1, B1, C1.
      replace (S (current l + (k - 1))) with (current l + k) by lia.
      rewrite slice_extend, V0 by exact S0. fold (rest l).
      replace k with (S (k - 1)) at 2 by lia.
      rewrite (firstn_succ_hd (k - 1) (rest l) backquote).
      * rewrite app_assoc. reflexivity.
      * rewrite <- (scan_to_rest _ _ _ (conj S1 (conj A1 (conj B1
                                          (conj D1 C1))))), R1.
        reflexivity.
  - destruct P as (b' & l1 & E1 & R1 & K1). rewrite E1. cbn [bind].
    rewrite isAtEnd_rest, R1. cbn [post].
    unfold err_in. destruct K1 as (K1 & K2). rewrite R1 in K2.
    unfold newlines in K2 at 1. simpl in *. lia.
Qed.

(** *** Quoted strings *)

Lemma bumps_succ n l : bumps (S n) l = bumps n (bump l).
Proof. unfold bumps. apply Nat.iter_succ_r. Qed.

Lemma scan_to_bumps n l : scan_to n l (bumps n l) /\ line (bumps n l) = line l.
Proof.
  revert l; induction n as [|n IH]; intros l.
  - split; [apply scan_to_refl|reflexivity].
  - rewrite bumps_succ. destruct (IH (bump l)) as (T & L). split.
    + apply (scan_to_trans 1 n _ _ _ (scan_to_bump l) T).
    + rewrite L. reflexivity.
Qed.

Lemma quoted_end_bounds_le q : forall n s k,
  length s <= n -> quoted_end q s = Closed k -> 1 <= k <= length s.
Proof.
  induction n as [|n IH]; intros s k L E;
    (destruct s as [|c s]; [discriminate|]); simpl in L; [lia|].
  simpl in E. destruct (c =? q); [injection E as <-; simpl; lia|].
  destruct (c =? newline); [discriminate|].
  destruct (c =? backslash).
  - destruct s as [|c' s']; [discriminate|].
    destruct (quoted_end q s') as [k'| |] eqn:E'; try discriminate.
    injection E as <-. apply IH in E'; simpl in *; lia.
  - destruct (quoted_end q s) as [k'| |] eqn:E'; try discriminate.
    injection E as <-. apply IH in E'; simpl in *; lia.
Qed.

Lemma quoted_end_bounds q s k :
  quoted_end q s = Closed k -> 1 <= k <= length s.
Proof. apply (quoted_end_bounds_le q (length s)). lia. Qed.

Lemma string_loop_exact q : forall fuel l,
  length (rest l) < fuel ->
  (l1 <- string_loop fuel q l ;;
   if isAtEnd l1 then Err (UnterminatedString (line l1))
   else
     '(_, l2) <- advance l1 ;;
     Ok (addTokenValue TOKEN_STRING
           (slice (source l2) (start l2) (current l2)) l2))
  = match quoted_end q (rest l) with
    | Closed k => Ok (addToken TOKEN_STRING (bumps k l))
    | Unclosed => Err (UnterminatedString (line l))
    | Overrun => Panic
    end.
Proof.
  induction fuel as [|fuel IH]; intros l F; [lia|]. cbn [string_loop].
  destruct (rest l) as [|c r] eqn:R; rewrite peek_rest, isAtEnd_rest, R;
    cbn [hd negb andb].
  { rewrite andb_false_r. cbn [bind]. rewrite isAtEnd_rest, R. reflexivity. }
  rewrite andb_true_r. simpl quoted_end. simpl in F.
  destruct (c =? q) eqn:C0; cbn [negb].
  { cbn [bind]. rewrite isAtEnd_rest, advance_rest, R. reflexivity. }
  destruct (c =? newline) eqn:C1; [reflexivity|].
  destruct (c =? backslash) eqn:C2.
  - rewrite advance_rest, R. cbn [bind].
    rewrite advance_rest, rest_bump, R. cbn [tl].
    destruct r as [|c' r']; [reflexivity|]. cbn [bind].
    rewrite IH by (rewrite !rest_bump, R; simpl in *; lia).
    rewrite !rest_bump, R. cbn [tl].
    destruct (quoted_end q r') as [k| |]; cbn [quoted_shift];
      try reflexivity.
    change (2 + k) with (S (S k)). rewrite !bumps_succ. reflexivity.
  - cbn [bind]. rewrite advance_rest, R. cbn [bind].
    rewrite IH by (rewrite rest_bump, R; simpl; lia).
    rewrite rest_bump, R. cbn [tl].
    destruct (quoted_end q r) as [k| |]; cbn [quoted_shift];
      try reflexivity.
    change (1 + k) with (S k). rewrite bumps_succ. reflexivity.
Qed.

Lemma string_exact q l :
  string_ q l = match quoted_end q (rest l) with
                | Closed k => Ok (addToken TOKEN_STRING (bumps k l))
                | Unclosed => Err (UnterminatedString (line l))
                | Overrun => Panic
                end.
Proof. unfold string_. apply string_loop_exact. apply fuel_of_rest. Qed.

Lemma string_post q l :
  post (emit TOKEN_STRING l) (err_in l) True (string_ q l).
Proof.
  rewrite string_exact.
  destruct (quoted_end q (rest l)) as [k| |] eqn:E; simpl; auto.
  - apply quoted_end_bounds in E. destruct (scan_to_bumps k l) as (T & L).
    apply emit_here. apply (scan_to_kept k); auto. lia.
  - apply err_in_here. reflexivity.
Qed.

(** *** Numbers and identifiers *)

Lemma rest_of_test l (b : ascii -> bool) :
  b (peek l) = true -> b zero = false -> exists c r, rest l = c :: r.
Proof.
  rewrite peek_rest. destruct (rest l) as [|c r]; simpl; intros T Z;
    [congruence|eauto].
Qed.

Lemma advance_kept l (b : ascii -> bool) :
  b (peek l) = true -> b zero = false ->
  exists c, advance l = Ok (c, bump l) /\ kept l (bump l).
Proof.
  intros T Z. destruct (rest_of_test l b T Z) as (c & r & R).
  exists c. rewrite advance_rest, R. split; [reflexivity|].
  eapply kept_bump; eauto.
Qed.

Lemma number_decimal_total l :
  exists l', number_decimal l = Ok l' /\ emit TOKEN_NUMBER l l'.
Proof.
  unfold number_decimal, peek_digits.
  destruct (while_peek_kept isDigit l eq_refl) as (l1 & E1 & K1 & _).
  rewrite E1. cbn [bind].
  assert (H2 : exists l2,
             (if (peek l1 =? ".") && isDigit (peekNext l1)
              then '(_, l) <- advance l1 ;;
                   while_advance (fun l => isDigit (peek l)) (fuel_of l) l
              else Ok l1) = Ok l2 /\ kept l1 l2).
  { destruct ((peek l1 =? ".") && isDigit (peekNext l1)) eqn:T;
      [|exists l1; auto using kept_refl].
    apply andb_prop in T. destruct T as (T & _).
    destruct (advance_kept l1 (fun c => c =? ".") T eq_refl) as (c & A & K).
    rewrite A. cbn [bind].
    destruct (while_peek_kept isDigit (bump l1) eq_refl) as (l2 & E2 & K2 & _).
    exists l2. split; [exact E2|]. eapply kept_trans; eauto. }
  destruct H2 as (l2 & E2 & K2). rewrite E2. cbn [bind].
  assert (H3 : exists l3,
             (if (peek l2 =? "e") || (peek l2 =? "E")
              then '(_, l) <- advance l2 ;;
                   l <- (if (peek l =? "+") || (peek l =? "-")
                         then '(_, l1) <- advance l ;; Ok l1
                         else Ok l) ;;
                   while_advance (fun l => isDigit (peek l)) (fuel_of l) l
              else Ok l2) = Ok l3 /\ kept l2 l3).
  { destruct ((peek l2 =? "e") || (peek l2 =? "E")) eqn:T;
      [|exists l2; auto using kept_refl].
    destruct (advance_kept l2 (fun c => (c =? "e") || (c =? "E")) T eq_refl)
      as (c & A & K).
    rewrite A. cbn [bind].
    assert (H4 : exists l4,
               (if (peek (bump l2) =? "+") || (peek (bump l2) =? "-")
                then '(_, l1) <- advance (bump l2) ;; Ok l1
                else Ok (bump l2)) = Ok l4 /\ kept (bump l2) l4).
    { destruct ((peek (bump l2) =? "+") || (peek (bump l2) =? "-")) eqn:T4;
        [|eexists; auto using kept_refl].
      destruct (advance_kept (bump l2)
                  (fun c => (c =? "+") || (c =? "-")) T4 eq_refl)
        as (c4 & A4 & K4).
      rewrite A4. cbn [bind]. eauto. }
    destruct H4 as (l4 & E4 & K4). rewrite E4. cbn [bind].
    destruct (while_peek_kept isDigit l4 eq_refl) as (l5 & E5 & K5 & _).
    exists l5. split; [exact E5|].
    eapply kept_trans; [exact K|]. eapply kept_trans; eauto. }
  destruct H3 as (l3 & E3 & K3). rewrite E3. cbn [bind].
  eexists. split; [reflexivity|]. apply emit_here.
  eapply kept_trans; [exact K1|]. eapply kept_trans; eauto.
Qed.

Lemma number_total l c :
  nth_error (source l) (start l) = Some c ->
  exists l', number l = Ok l' /\ emit TOKEN_NUMBER l l'.
Proof.
  intros N. unfold number. rewrite N.
  assert (BASED : forall p b,
             b (peek l) = true -> b zero = false -> p zero = false ->
             exists l',
               ('(_, l) <- advance l ;;
                l <- while_advance (fun l => p (peek l)) (fuel_of l) l ;;
                Ok (addToken TOKEN_NUMBER l)) = Ok l' /\
               emit TOKEN_NUMBER l l').
  { intros p b T Z Zp. destruct (advance_kept l b T Z) as (a & A & K).
    rewrite A. cbn [bind].
    destruct (while_peek_kept p (bump l) Zp) as (l2 & E2 & K2 & _).
    rewrite E2. cbn [bind]. eexists. split; [reflexivity|].
    apply emit_here. eapply kept_trans; eauto. }
  destruct ((c =? "0") && (current l <? length (source l))%nat);
    [|apply number_decimal_total].
  destruct ((peek l =? "x") || (peek l =? "X")) eqn:T1.
  { apply (BASED isHexDigit (fun c => (c =? "x") || (c =? "X")));
      auto. }
  destruct ((peek l =? "b") || (peek l =? "B")) eqn:T2.
  { apply (BASED (fun c => (c =? "0") || (c =? "1"))
             (fun c => (c =? "b") || (c =? "B"))); auto. }
  destruct ((peek l =? "o") || (peek l =? "O")) eqn:T3.
  { apply (BASED (fun c => ble "0" c && ble c "7")
             (fun c => (c =? "o") || (c =? "O"))); auto. }
  apply number_decimal_total.
Qed.

Lemma identifier_total l :
  exists k l',
    identifier l = Ok l' /\ is_sentinel k = false /\ emit k l l'.
Proof.
  unfold identifier.
  destruct (while_peek_kept isAlphaNumeric l eq_refl) as (l1 & E1 & K1 & _).
  rewrite E1. cbn [bind].
  eexists. eexists. split; [reflexivity|]. split; [|apply emit_here; exact K1].
  destruct (keywords_get _) eqn:K; [|reflexivity].
  eapply keywords_not_sentinel; eauto.
Qed.

Lemma match_kept expected l : kept l (snd (match_ expected l)).
Proof.
  rewrite match_rest. destruct (rest l) as [|c r] eqn:R; [apply kept_refl|].
  destruct (c =? expected); simpl; [eapply kept_bump; eauto|apply kept_refl].
Qed.

(** ** One turn of the loop of [Tokenize] *)

Lemma slice_rest l n :
  slice (source l) (current l) (current l + n) = firstn n (rest l).
Proof.
  unfold slice, rest. replace (current l + n - current l) with n by lia.
  reflexivity.
Qed.

Lemma lines_kept_first l c r l2 :
  rest l = c :: r ->
  kept (bump (set_start l (current l) (column l))) l2 ->
  lines_kept l l2.
Proof.
  intros R (n & _ & _ & K).
  change (lines_kept (bump l) l2) in K.
  eapply lines_kept_trans; [apply lines_kept_bump|exact K].
Qed.

Lemma turn_kept l c r l2 :
  rest l = c :: r ->
  kept (bump (set_start l (current l) (column l))) l2 -> turn l l2.
Proof.
  intros R K. pose proof (lines_kept_first l c r l2 R K) as LK.
  destruct K as (n & (S2 & T2 & A2 & B2 & C2) & Bn & _).
  rewrite rest_bump, rest_set_start, R in Bn. simpl in *.
  split; [exact S2|]. exists (S n).
  split; [lia|]. split; [rewrite R; simpl; lia|].
  split; [exact LK|]. left. exact T2.
Qed.

Lemma turn_emit l c r k l2 :
  rest l = c :: r ->
  kept (bump (set_start l (current l) (column l))) l2 ->
  is_sentinel k = false -> turn l (addToken k l2).
Proof.
  intros R K Sk. pose proof (lines_kept_first l c r l2 R K) as LK.
  destruct K as (n & (S2 & T2 & A2 & B2 & C2) & Bn & _).
  rewrite rest_bump, rest_set_start, R in Bn. simpl in *.
  split; [exact S2|]. exists (S n).
  split; [simpl; lia|]. split; [rewrite R; simpl; lia|].
  split; [exact LK|].
  right. exists k. split; [exact Sk|]. simpl.
  rewrite T2, S2, A2, B2, C2.
  replace (S (current l + n)) with (current l + S n) by lia.
  rewrite slice_rest. reflexivity.
Qed.

Lemma turn_newline l r :
  rest l = newline :: r ->
  let l1 := bump (set_start l (current l) (column l)) in
  turn l (set_line_column l1 (S (line l1)) 1).
Proof.
  intros R. simpl. split; [reflexivity|]. exists 1.
  split; [simpl; lia|]. split; [rewrite R; simpl; lia|].
  split; [|left; reflexivity].
  unfold lines_kept. simpl line.
  change (rest (set_line_column
                  (bump (set_start l (current l) (column l)))
                  (S (line l)) 1)) with (rest (bump l)).
  rewrite rest_bump, R. simpl tl. rewrite newlines_cons. simpl. lia.
Qed.

Lemma err_in_first l c r l2 e :
  rest l = c :: r ->
  kept (bump (set_start l (current l) (column l))) l2 ->
  err_in l2 e -> err_in l e.
Proof.
  intros R K E. pose proof (lines_kept_first l c r l2 R K) as LK.
  unfold err_in, lines_kept in *. lia.
Qed.

Lemma sub_emit_turn l c r l2 (P0 P : Prop) (m : outcome Lexer) :
  rest l = c :: r ->
  kept (bump (set_start l (current l) (column l))) l2 ->
  post (fun l' => exists k, is_sentinel k = false /\ emit k l2 l')
       (err_in l2) P0 m ->
  (P0 -> P) ->
  post (turn l) (err_in l) P m.
Proof.
  intros R K H HP. eapply post_weaken; [exact H| | |exact HP].
  - intros l' (k & Sk & l3 & K3 & ->). eapply turn_emit; eauto.
    eapply kept_trans; eauto.
  - intros e. eapply err_in_first; eauto.
Qed.

Lemma total_post {A : Type} (Q : A -> Prop) (E : LexError -> Prop)
    (P : Prop) (m : outcome A) :
  (exists a, m = Ok a /\ Q a) -> post Q E P m.
Proof. intros (a & -> & H). exact H. Qed.

Lemma match_add_turn l c r l2 expected yes no P :
  rest l = c :: r ->
  kept (bump (set_start l (current l) (column l))) l2 ->
  is_sentinel yes = false -> is_sentinel no = false ->
  post (turn l) (err_in l) P (match_add expected yes no l2).
Proof.
  intros R K Sy Sn. unfold match_add.
  pose proof (match_kept expected l2) as M.
  destruct (match_ expected l2) as [m l3]. cbn [snd] in M.
  destruct m; simpl; eapply turn_emit; eauto; eapply kept_trans; eauto.
Qed.

Ltac turn_match :=
  match goal with
  | K : kept _ ?x |- context [match_ ?e ?x] =>
      let M := fresh "M" in let K' := fresh "K" in
      let m := fresh "m" in let l := fresh "l" in
      pose proof (match_kept e x) as M;
      destruct (match_ e x) as [m l]; cbn [snd] in M;
      assert (K' : kept (bump (set_start _ _ _)) l)
        by (eapply kept_trans; [exact K|exact M]);
      clear M; destruct m
  end.

Ltac turn_leaf R :=
  first
    [ solve [ eapply turn_emit; [exact R|eassumption|reflexivity] ]
    | solve [ eapply match_add_turn; [exact R|eassumption| |]; reflexivity ]
    | solve [ eapply turn_kept; [exact R|eassumption] ]
    | solve [ eapply err_in_first; [exact R|eassumption|];
              apply err_in_here; reflexivity ] ].

(** A scan step on a lexer that is not at the end.  It does not reach its
    loop bound; it panics only if the byte it starts on is a quote. *)
Lemma scan_step_post l c r :
  rest l = c :: r ->
  post (turn l) (err_in l) (c = dquote \/ c = squote) (scan_step l).
Proof.
  intros R. unfold scan_step, scanToken.
  rewrite advance_rest, rest_set_start, R. cbn [bind].
  set (l1 := bump (set_start l (current l) (column l))).
  assert (K1 : kept l1 l1) by apply kept_refl.
  unfold l1 in K1 at 1.
  assert (N1 : nth_error (source l1) (start l1) = Some c).
  { simpl. rewrite <- hd_error_skipn. fold (rest l). rewrite R. reflexivity. }
  assert (V1 : slice (source l1) (start l1) (current l1) = [c]).
  { simpl. replace (S (current l)) with (current l + 1) by lia.
    rewrite slice_rest, R. reflexivity. }
  repeat match goal with
         | |- post _ _ _ (if ?b then _ else _) => destruct b eqn:?
         | |- post _ _ _ (match_add _ _ _ _) => fail 1
         | |- post _ _ _ (let '(_, _) := match_ _ _ in _) => turn_match
         end;
    try (cbn [post]; turn_leaf R).
  - (* long bracket *)
    eapply sub_emit_turn;
      [exact R|exact K1| |exact (fun f : False => match f with end)].
    eapply post_weaken; [apply multilineString_post; simpl; lia| | |tauto];
      [|auto].
    intros l' [H|H]; eexists; (split; [|exact H]); reflexivity.
  - (* comment *)
    match goal with
    | K : kept _ ?x |- context [comment ?x] =>
        destruct (comment_kept x) as (l' & E' & K');
        rewrite E'; cbn [post]; eapply turn_kept; [exact R|];
        eapply kept_trans; [exact K|exact K']
    end.
  - (* number after a dot *)
    match goal with
    | K : kept _ ?x |- context [number ?x] =>
        destruct (number_total x c) as (l' & E' & (l3 & K3 & ->));
        [ destruct K as (n & (S2 & _ & A2 & _) & _); rewrite S2, A2; exact N1
        | rewrite E'; cbn [post];
          eapply turn_emit; [exact R| |reflexivity];
          eapply kept_trans; [exact K|exact K3] ]
    end.
  - (* quoted string *)
    eapply sub_emit_turn; [exact R|exact K1| |].
    + eapply post_weaken; [apply (string_post c l1)| | |exact (fun H => H)];
        [|auto].
      intros l' H. exists TOKEN_STRING. split; [reflexivity|exact H].
    + intros _.
      match goal with
      | H : (c =? dquote) || (c =? squote) = true |- _ =>
          apply orb_prop in H; destruct H as [H|H];
          apply Ascii.eqb_eq in H; auto
      end.
  - (* template string *)
    eapply sub_emit_turn;
      [exact R|exact K1| |exact (fun f : False => match f with end)].
    eapply post_weaken; [apply templateString_post| | |tauto]; [| |auto|auto].
    + simpl. lia.
    + rewrite V1.
      match goal with
      | H : (c =? backquote) = true |- _ =>
          apply Ascii.eqb_eq in H; rewrite H; reflexivity
      end.
    + intros l' H. exists TOKEN_TEMPLATE_STRING. split; [reflexivity|exact H].
  - (* newline *)
    match goal with
    | H : (c =? newline) = true |- _ =>
        apply Ascii.eqb_eq in H; subst c; apply (turn_newline l r R)
    end.
  - (* number *)
    destruct (number_total l1 c N1) as (l' & E' & (l3 & K3 & ->)).
    rewrite E'. cbn [post]. eapply turn_emit; [exact R|exact K3|reflexivity].
  - (* identifier *)
    destruct (identifier_total l1) as (k & l' & E' & Sk & (l3 & K3 & ->)).
    rewrite E'. cbn [post]. eapply turn_emit; [exact R|exact K3|exact Sk].
Qed.

(** ** The whole of [Tokenize] *)

Lemma nondecreasing_snoc xs x :
  nondecreasing xs -> Forall (fun y => y <= x) xs -> nondecreasing (xs ++ [x]).
Proof.
  induction xs as [|a xs IH]; simpl; intros N F.
  - split; [constructor|exact I].
  - destruct N as (N1 & N2). inversion F as [|? ? Fa Fx]; subst.
    split; [|apply IH; auto].
    apply Forall_app. split; [exact N1|]. constructor; [exact Fa|constructor].
Qed.

Lemma substring_rest l n :
  substring (firstn n (rest l)) (source l).
Proof.
  exists (firstn (current l) (source l)), (skipn n (rest l)).
  rewrite firstn_skipn. unfold rest. rewrite firstn_skipn. reflexivity.
Qed.

Lemma in_rest l c : In c (rest l) -> In c (source l).
Proof.
  intros H. rewrite <- (firstn_skipn (current l) (source l)).
  apply in_or_app. right. exact H.
Qed.

Lemma lexing_init src : lexing src (NewLexer src).
Proof.
  unfold lexing. simpl. repeat split; auto.
Qed.

Lemma lexing_turn src l l' : lexing src l -> turn l l' -> lexing src l'.
Proof.
  intros (S0 & L0 & P0 & B0 & N0 & V0) (S1 & n & C1 & (N1 & N2) & (K1 & K2) & T).
  assert (B0' : Forall (fun t => 1 <= Line t <= line l') (tokens l)).
  { eapply Forall_impl; [|exact B0]. simpl. intros t H. lia. }
  unfold lexing. split; [congruence|]. split; [lia|]. split; [lia|].
  destruct T as [T|(k & Sk & T)]; rewrite T.
  - auto.
  - split; [|split].
    + apply Forall_app. split; [exact B0'|].
      constructor; [simpl; lia|constructor].
    + rewrite map_app. simpl. apply nondecreasing_snoc; [exact N0|].
      rewrite Forall_map. eapply Forall_impl; [|exact B0].
      simpl. intros t H. lia.
    + apply Forall_app. split; [exact V0|].
      constructor; [|constructor]. simpl. split; [exact Sk|]. split.
      * destruct (rest l) as [|c r]; [simpl in N2; lia|].
        destruct n; [lia|]. simpl. discriminate.
      * rewrite <- S0. apply substring_rest.
Qed.

Lemma Tokenize_loop_post src : forall fuel l,
  length (rest l) < fuel -> lexing src l ->
  post (fun l' => lexing src l')
       (fun e => 1 <= err_line e <= 1 + newlines src)
       (In dquote src \/ In squote src)
       (Tokenize_loop fuel l).
Proof.
  induction fuel as [|fuel IH]; intros l F X; [lia|].
  cbn [Tokenize_loop]. rewrite isAtEnd_rest.
  destruct (rest l) as [|c r] eqn:R; cbn [negb]; [exact X|].
  eapply post_bind.
  - eapply post_weaken; [apply (scan_step_post l c r R)| | |].
    + intros l' T. exact (conj T (lexing_turn _ _ _ X T)).
    + intros e (E1 & E2). destruct X as (_ & L0 & P0 & _). lia.
    + intros Q. destruct X as (S0 & _).
      assert (I : In c src).
      { rewrite <- S0. apply in_rest. rewrite R. left. reflexivity. }
      destruct Q as [-> | ->]; auto.
  - intros l' (T & X'). apply IH; [|exact X'].
    destruct T as (S1 & n & C1 & (N1 & N2) & _).
    pose proof (length_skipn (current l) (source l)) as A.
    pose proof (length_skipn (current l') (source l')) as A'.
    fold (rest l) in A. fold (rest l') in A'. rewrite S1 in A'.
    rewrite R in A, N2. simpl in F, A, N2. lia.
Qed.

(** X1: the lexer panics in one place only.  A scan step panics exactly
    when it starts on a quote and the input ends right after a backslash of
    that quoted string; [Tokenize] on a source without quote characters
    never panics. *)
Theorem panic_only_in_quoted_string :
  (forall l c r,
      rest l = c :: r ->
      (scan_step l = Panic <->
       (c = dquote \/ c = squote) /\ quoted_end c r = Overrun)) /\
  (forall src, tokenize src = Panic -> In dquote src \/ In squote src).
Proof.
  split.
  - intros l c r R. split.
    + intros E. pose proof (scan_step_post l c r R) as P.
      rewrite E in P. simpl in P. split; [exact P|].
      unfold scan_step in E.
      assert (E' : string_ c (bump (set_start l (current l) (column l)))
                   = Panic).
      { destruct P as [-> | ->]; rewrite <- E; symmetry;
          [eapply scanToken_dquote|eapply scanToken_squote];
          rewrite rest_set_start; exact R. }
      rewrite string_exact, rest_bump, rest_set_start, R in E'. cbn [tl] in E'.
      destruct (quoted_end c r); [discriminate E'|discriminate E'|reflexivity].
    + intros (Q & O). unfold scan_step.
      assert (E : scanToken (set_start l (current l) (column l))
                  = string_ c (bump (set_start l (current l) (column l)))).
      { destruct Q as [-> | ->];
          [eapply scanToken_dquote|eapply scanToken_squote];
          rewrite rest_set_start; exact R. }
      rewrite E, string_exact, rest_bump, rest_set_start, R. cbn [tl].
      rewrite O. reflexivity.
  - intros src E. unfold tokenize, Tokenize in E.
    pose proof (Tokenize_loop_post src (fuel_of (NewLexer src))
                  (NewLexer src) (fuel_of_rest _) (lexing_init src)) as P.
    destruct (Tokenize_loop (fuel_of (NewLexer src)) (NewLexer src));
      cbn [bind] in E; try discriminate E. exact P.
Qed.

(** X2: line numbers.  On every source the tokens [Tokenize] returns carry
    lines between 1 and 1 plus the number of newlines of the source, in
    nondecreasing order; an error it returns carries a line in the same
    range. *)
Theorem Tokenize_lines_in_range :
  forall src,
    match tokenize src with
    | Ok toks =>
        Forall (fun t => 1 <= Line t <= 1 + newlines src) toks /\
        nondecreasing (map Line toks)
    | Err e => 1 <= err_line e <= 1 + newlines src
    | Panic => True
    | OutOfFuel => False
    end.
Proof.
  intros src. unfold tokenize, Tokenize.
  pose proof (Tokenize_loop_post src (fuel_of (NewLexer src))
                (NewLexer src) (fuel_of_rest _) (lexing_init src)) as P.
  destruct (Tokenize_loop (fuel_of (NewLexer src)) (NewLexer src)) as [l| e| |];
    cbn [bind]; simpl in P; auto.
  destruct P as (S0 & L0 & P0 & B0 & N0 & V0). split.
  - apply Forall_app. split.
    + eapply Forall_impl; [|exact B0]. simpl. intros t H. lia.
    + constructor; [simpl; lia|constructor].
  - rewrite map_app. simpl. apply nondecreasing_snoc; [exact N0|].
    rewrite Forall_map. eapply Forall_impl; [|exact B0].
    simpl. intros t H. lia.
Qed.

(** X3: tokens carry the text they were read from.  A scan step that
    returns has read at least one byte; if it added a token, the value of the
    token is exactly the bytes read, undecoded, its line is the line reached
    and its column the column the step began at.  In the result of
    [Tokenize] every token before the final one has a non-empty value that
    occurs in the source as a block of consecutive bytes. *)
Theorem token_values_are_source_text :
  (forall l c r l',
      rest l = c :: r -> scan_step l = Ok l' -> turn l l') /\
  (forall src toks,
      tokenize src = Ok toks ->
      exists body ln col,
        toks = body ++ [mkToken TOKEN_EOF [] ln col] /\
        Forall (fun t => Value t <> [] /\ substring (Value t) src) body).
Proof.
  split.
  - intros l c r l' R E. pose proof (scan_step_post l c r R) as P.
    rewrite E in P. exact P.
  - intros src toks E. unfold tokenize, Tokenize in E.
    pose proof (Tokenize_loop_post src (fuel_of (NewLexer src))
                  (NewLexer src) (fuel_of_rest _) (lexing_init src)) as P.
    destruct (Tokenize_loop (fuel_of (NewLexer src)) (NewLexer src)) as [l| e| |];
      cbn [bind] in E; try discriminate E.
    injection E as <-. simpl in P.
    destruct P as (_ & _ & _ & _ & _ & V0).
    exists (tokens l), (line l), (column l). split; [reflexivity|].
    eapply Forall_impl; [|exact V0]. simpl. intros t H. tauto.
Qed.

Lemma panic_only_in_quoted_string_witness :
  scan_step (NewLexer [dquote; backslash]) = Panic <->
  (dquote = dquote \/ dquote = squote) /\
  quoted_end dquote [backslash] = Overrun.
Proof.
  exact (proj1 panic_only_in_quoted_string
           (NewLexer [dquote; backslash]) dquote [backslash] eq_refl).
Defined.

Lemma token_values_are_source_text_witness :
  turn (NewLexer (str "if x"))
       (mkLexer (str "if x") [mkToken TOKEN_IF (str "if") 1 1] 0 2 1 3 1).
Proof.
  apply (proj1 token_values_are_source_text
           (NewLexer (str "if x")) "i" (str "f x")); reflexivity.
Defined.

(** ** Quoted strings, in full *)

Lemma scan_step_quoted l q body :
  rest l = q :: body -> q = dquote \/ q = squote ->
  scan_step l = string_ q (bump (set_start l (current l) (column l))).
Proof.
  intros R [-> | ->]; unfold scan_step;
    [eapply scanToken_dquote|eapply scanToken_squote];
    rewrite rest_set_start; exact R.
Qed.

Lemma quoted_end_nth_le q : forall n s k,
  length s <= n -> quoted_end q s = Closed (S k) -> nth k s zero = q.
Proof.
  induction n as [|n IH]; intros s k L E;
    (destruct s as [|c s]; [discriminate|]); simpl in L; [lia|].
  simpl in E. destruct (c =? q) eqn:C0.
  { injection E as <-. simpl. apply Ascii.eqb_eq in C0. exact C0. }
  destruct (c =? newline); [discriminate|].
  destruct (c =? backslash).
  - destruct s as [|c' s']; [discriminate|].
    destruct (quoted_end q s') as [k'| |] eqn:E'; try discriminate.
    injection E as <-. destruct k' as [|k'];
      [apply quoted_end_bounds in E'; lia|].
    simpl. apply IH; [simpl in L; lia|exact E'].
  - destruct (quoted_end q s) as [k'| |] eqn:E'; try discriminate.
    injection E as <-. destruct k' as [|k'];
      [apply quoted_end_bounds in E'; lia|].
    simpl. apply IH; [lia|exact E'].
Qed.

Lemma quoted_end_nth q s k :
  quoted_end q s = Closed (S k) -> nth k s zero = q.
Proof. apply (quoted_end_nth_le q (length s)). lia. Qed.

(** X4: a quoted string, read off the text after its opening quote.  If
    the matching quote comes before any newline, skipping the byte after each
    backslash, the step adds one [TOKEN_STRING] token whose value is the raw
    text from quote to quote and keeps the line counter, also when a
    backslash hid a newline.  If a newline or the end of the input comes
    first it returns the unterminated-string error with the current line.
    If the input ends right after a backslash it panics. *)
Theorem quoted_string_scanned :
  forall l q body,
    rest l = q :: body -> q = dquote \/ q = squote ->
    match quoted_end q body with
    | Closed k =>
        exists l',
          scan_step l = Ok l' /\
          tokens l' = tokens l ++
            [mkToken TOKEN_STRING (firstn (S k) (rest l)) (line l)
                     (column l)] /\
          current l' = current l + S k /\ line l' = line l /\
          nth k (rest l) zero = q
    | Unclosed => scan_step l = Err (UnterminatedString (line l))
    | Overrun => scan_step l = Panic
    end.
Proof.
  intros l q body R Q. rewrite (scan_step_quoted l q body R Q).
  set (l1 := bump (set_start l (current l) (column l))).
  rewrite string_exact.
  assert (R1 : rest l1 = body)
    by (unfold l1; rewrite rest_bump, rest_set_start, R; reflexivity).
  rewrite R1.
  destruct (quoted_end q body) as [k| |] eqn:E; try reflexivity.
  destruct (scan_to_bumps k l1) as ((S2 & T2 & A2 & B2 & C2) & L2).
  eexists. split; [reflexivity|]. simpl.
  rewrite T2, S2, A2, B2, C2, L2. simpl.
  replace (S (current l + k)) with (current l + S k) by lia.
  rewrite slice_rest. repeat split; auto.
  rewrite R. destruct k as [|k]; [apply quoted_end_bounds in E; lia|].
  simpl. eapply quoted_end_nth; eauto.
Qed.

Lemma quoted_string_scanned_witness :
  exists l',
    scan_step (NewLexer (squote :: str "a\'b' x")) = Ok l' /\
    tokens l' = [] ++
      [mkToken TOKEN_STRING (squote :: str "a\'b'") 1 1] /\
    current l' = 0 + 6 /\ line l' = 1 /\
    nth 5 (squote :: str "a\'b' x") zero = squote.
Proof.
  exact (quoted_string_scanned
           (NewLexer (squote :: str "a\'b' x")) squote (str "a\'b' x")
           eq_refl (or_intror eq_refl)).
Defined.

(** ** Long brackets that are closed *)

Lemma eq_run_repeat n s : eq_run n (repeat "=" n ++ s) = n.
Proof. induction n as [|n IH]; simpl; [destruct s; reflexivity|]. rewrite IH. reflexivity. Qed.

Lemma eq_run_stop n : forall b x, eq_run n (b ++ "]" :: x) = eq_run n b.
Proof.
  induction n as [|n IH]; intros [|c b] x; simpl; auto.
  destruct (c =? "="); [rewrite IH|]; reflexivity.
Qed.

Lemma hd_app_cons (a : list ascii) c y d : hd d (a ++ c :: y) = hd c a.
Proof. destruct a; reflexivity. Qed.

Lemma skipn_app_le {A : Type} j (a b : list A) :
  j <= length a -> skipn j (a ++ b) = skipn j a ++ b.
Proof.
  intros H. rewrite skipn_app. replace (j - length a) with 0 by lia.
  reflexivity.
Qed.

Lemma closer_app n post :
  closer n ++ post = "]" :: repeat "=" n ++ "]" :: post.
Proof. unfold closer. simpl. rewrite <- app_assoc. reflexivity. Qed.

Lemma closes_first_tail n c b : closes_first n (c :: b) -> closes_first n b.
Proof. unfold closes_first. simpl. apply no_close_tail. Qed.

Lemma closes_first_skip n b :
  closes_first n ("]" :: b) -> closes_first n (skipn (eq_run n b) b).
Proof.
  unfold closes_first. intros H pre post E.
  apply (H (("]" :: firstn (eq_run n b) b) ++ pre) post).
  cbn [app]. f_equal.
  rewrite <- app_assoc, <- E, app_assoc, firstn_skipn. reflexivity.
Qed.

Lemma closes_first_test n b post :
  closes_first n ("]" :: b) ->
  let r := b ++ closer n ++ post in
  eq_run n r = eq_run n b /\
  ((eq_run n r =? n)%nat && (hd zero (skipn (eq_run n r) r) =? "]")) = false.
Proof.
  intros H r. unfold r. rewrite closer_app.
  assert (J : eq_run n (b ++ "]" :: repeat "=" n ++ "]" :: post) = eq_run n b)
    by apply eq_run_stop.
  split; [exact J|]. rewrite J.
  pose proof (no_close_head n (b ++ "]" :: repeat "=" n) H) as T.
  rewrite eq_run_stop in T.
  destruct (eq_run_spec n b) as (_ & Lb & _).
  rewrite !skipn_app_le in * by exact Lb.
  rewrite hd_app_cons in *. exact T.
Qed.

Lemma comment_body_closed n post : forall fuel l body,
  rest l = body ++ closer n ++ post -> closes_first n body ->
  length (rest l) < fuel ->
  exists l',
    comment_body fuel n l = Ok l' /\
    scan_to (length body + (n + 2)) l l' /\
    line l' = line l + newlines body.
Proof.
  induction fuel as [|fuel IH]; intros l body R H F; [lia|].
  cbn [comment_body].
  pose proof (count_newline_line l) as L0.
  pose proof (scan_to_count_newline l) as T0.
  pose proof (rest_count_newline l) as R0.
  destruct body as [|c b].
  - cbn [app] in R. rewrite closer_app in R.
    rewrite isAtEnd_rest, R. cbn [negb].
    rewrite (count_newline_id l) by (rewrite R; reflexivity).
    rewrite peek_rest, R. cbn [hd]. change ("]" =? "]") with true.
    rewrite advance_rest, R. cbn [bind].
    destruct (match_eq_exact (fuel_of (bump l)) n 0 (bump l))
      as (l2 & E2 & T2 & L2); [lia|apply fuel_of_rest|].
    rewrite rest_bump, R, Nat.sub_0_r in E2, T2. cbn [tl] in E2, T2.
    rewrite eq_run_repeat in E2, T2.
    rewrite E2. cbn [bind Nat.add]. rewrite Nat.eqb_refl.
    pose proof (scan_to_rest _ _ _ T2) as R2.
    rewrite rest_bump, R in R2. cbn [tl] in R2.
    rewrite <- (repeat_length "=" n) in R2 at 1.
    rewrite <- (Nat.add_0_r (length (repeat "=" n))) in R2.
    rewrite skipn_app_plus in R2. simpl in R2.
    rewrite peek_rest, R2. cbn [hd andb]. change ("]" =? "]") with true.
    rewrite advance_rest, R2. cbn [bind].
    exists (bump l2). split; [reflexivity|]. split.
    + eapply scan_to_eq; [|eapply scan_to_trans; [apply scan_to_bump|
        eapply scan_to_trans; [exact T2|apply scan_to_bump]]]. simpl. lia.
    + simpl. rewrite L2. simpl. unfold newlines. simpl. lia.
  - cbn [app] in R. rewrite isAtEnd_rest, R. cbn [negb]. cbn zeta.
    rewrite R in L0, R0. cbn [hd] in L0.
    remember (count_newline l) as l0 eqn:E0. clear E0.
    rewrite peek_rest, R0. cbn [hd]. rewrite advance_rest, R0. cbn [bind].
    rewrite R in F. cbn [length] in F. rewrite length_app in F.
    destruct (c =? "]") eqn:C.
    + apply Ascii.eqb_eq in C. subst c.
      change ("]" =? newline) with false in L0. rewrite Nat.add_0_r in L0.
      destruct (closes_first_test n b post H) as (J & T).
      destruct (match_eq_exact (fuel_of (bump l0)) n 0 (bump l0))
        as (l2 & E2 & T2 & L2); [lia|apply fuel_of_rest|].
      rewrite rest_bump, R0, Nat.sub_0_r in E2, T2. cbn [tl] in E2, T2.
      rewrite E2. cbn [bind Nat.add].
      pose proof (scan_to_rest _ _ _ T2) as R2.
      rewrite rest_bump, R0 in R2. cbn [tl] in R2.
      rewrite peek_rest, R2, T.
      destruct (eq_run_spec n b) as (_ & Lb & _).
      rewrite J in *. rewrite skipn_app_le in R2 by exact Lb.
      destruct (IH l2 (skipn (eq_run n b) b)) as (l' & E' & T' & L').
      { exact R2. }
      { apply closes_first_skip. exact H. }
      { rewrite R2, length_app, length_skipn. lia. }
      exists l'. split; [exact E'|]. split.
      * eapply scan_to_eq; [|eapply scan_to_trans; [exact T0|
          eapply scan_to_trans; [apply scan_to_bump|
          eapply scan_to_trans; [exact T2|exact T']]]].
        rewrite length_skipn. simpl. lia.
      * rewrite L', L2, newlines_eq_run, newlines_cons. simpl. lia.
    + destruct (IH (bump l0) b) as (l' & E' & T' & L').
      { rewrite rest_bump, R0. reflexivity. }
      { eapply closes_first_tail; eauto. }
      { rewrite rest_bump, R0. cbn [tl]. rewrite length_app. lia. }
      exists l'. split; [exact E'|]. split.
      * eapply scan_to_eq; [|eapply scan_to_trans; [exact T0|
          eapply scan_to_trans; [apply scan_to_bump|exact T']]]. simpl. lia.
      * rewrite L', newlines_cons. simpl. lia.
Qed.

Lemma multiline_body_closed n sl post : forall fuel l body,
  rest l = body ++ closer n ++ post -> closes_first n body ->
  length (rest l) < fuel ->
  exists l1,
    multiline_body fuel n sl l = Ok (addToken TOKEN_STRING l1) /\
    scan_to (length body + (n + 2)) l l1 /\
    line l1 = line l + newlines body.
Proof.
  induction fuel as [|fuel IH]; intros l body R H F; [lia|].
  cbn [multiline_body].
  pose proof (count_newline_line l) as L0.
  pose proof (scan_to_count_newline l) as T0.
  pose proof (rest_count_newline l) as R0.
  destruct body as [|c b].
  - cbn [app] in R. rewrite closer_app in R.
    rewrite isAtEnd_rest, R. cbn [negb].
    rewrite (count_newline_id l) by (rewrite R; reflexivity).
    rewrite peek_rest, R. cbn [hd]. change ("]" =? "]") with true.
    cbn zeta. rewrite advance_rest, R. cbn [bind].
    destruct (match_eq_exact (fuel_of (bump l)) n 0 (bump l))
      as (l2 & E2 & T2 & L2); [lia|apply fuel_of_rest|].
    rewrite rest_bump, R, Nat.sub_0_r in E2, T2. cbn [tl] in E2, T2.
    rewrite eq_run_repeat in E2, T2.
    rewrite E2. cbn [bind Nat.add]. rewrite Nat.eqb_refl.
    pose proof (scan_to_rest _ _ _ T2) as R2.
    rewrite rest_bump, R in R2. cbn [tl] in R2.
    rewrite <- (repeat_length "=" n) in R2 at 1.
    rewrite <- (Nat.add_0_r (length (repeat "=" n))) in R2.
    rewrite skipn_app_plus in R2. simpl in R2.
    rewrite peek_rest, R2. cbn [hd andb]. change ("]" =? "]") with true.
    rewrite advance_rest, R2. cbn [bind].
    exists (bump l2). split; [reflexivity|]. split.
    + eapply scan_to_eq; [|eapply scan_to_trans; [apply scan_to_bump|
        eapply scan_to_trans; [exact T2|apply scan_to_bump]]]. simpl. lia.
    + simpl. rewrite L2. simpl. unfold newlines. simpl. lia.
  - cbn [app] in R. rewrite isAtEnd_rest, R. cbn [negb]. cbn zeta.
    rewrite R in L0, R0. cbn [hd] in L0.
    rewrite R in F. cbn [length] in F. rewrite length_app in F.
    destruct (c =? "]") eqn:C.
    + apply Ascii.eqb_eq in C. subst c.
      rewrite (count_newline_id l) by (rewrite R; reflexivity).
      rewrite peek_rest, R. cbn [hd]. change ("]" =? "]") with true.
      rewrite advance_rest, R. cbn [bind].
      destruct (closes_first_test n b post H) as (J & T).
      destruct (match_eq_exact (fuel_of (bump l)) n 0 (bump l))
        as (l2 & E2 & T2 & L2); [lia|apply fuel_of_rest|].
      rewrite rest_bump, R, Nat.sub_0_r in E2, T2. cbn [tl] in E2, T2.
      rewrite E2. cbn [bind Nat.add].
      pose proof (scan_to_rest _ _ _ T2) as R2.
      rewrite rest_bump, R in R2. cbn [tl] in R2.
      rewrite peek_rest, R2, T.
      set (l3 := set_current l2 (current l + 1)).
      assert (T3 : scan_to 1 l l3).
      { destruct T2 as (S2 & A2 & B2 & D2 & _).
        unfold scan_to, l3; simpl in *. repeat split; auto. }
      destruct (IH l3 b) as (l1 & E1 & T1 & L1).
      { rewrite (scan_to_rest _ _ _ T3), R. reflexivity. }
      { eapply closes_first_tail; eauto. }
      { rewrite (scan_to_rest _ _ _ T3), R. cbn [skipn].
        rewrite length_app. lia. }
      exists l1. split; [exact E1|]. split.
      * eapply scan_to_eq; [|eapply scan_to_trans; [exact T3|exact T1]].
        simpl. lia.
      * rewrite L1. unfold l3. simpl. rewrite L2, newlines_cons. simpl. lia.
    + remember (count_newline l) as l0 eqn:E0. clear E0.
      rewrite peek_rest, R0. cbn [hd]. rewrite C.
      rewrite advance_rest, R0. cbn [bind].
      destruct (IH (bump l0) b) as (l1 & E1 & T1 & L1).
      { rewrite rest_bump, R0. reflexivity. }
      { eapply closes_first_tail; eauto. }
      { rewrite rest_bump, R0. cbn [tl]. rewrite length_app. lia. }
      exists l1. split; [exact E1|]. split.
      * eapply scan_to_eq; [|eapply scan_to_trans; [exact T0|
          eapply scan_to_trans; [apply scan_to_bump|exact T1]]]. simpl. lia.
      * rewrite L1, newlines_cons. simpl. lia.
Qed.

Lemma firstn_app_exact {A : Type} (a b : list A) :
  firstn (length a) (a ++ b) = a.
Proof. induction a; simpl; [destruct b; reflexivity|]. f_equal. assumption. Qed.

Lemma skipn_app_exact {A : Type} (a b : list A) :
  skipn (length a) (a ++ b) = b.
Proof. induction a; simpl; auto. Qed.

Lemma opener_length n : length (opener n) = n + 2.
Proof. unfold opener. simpl. rewrite length_app, repeat_length. simpl. lia. Qed.

Lemma closer_length n : length (closer n) = n + 2.
Proof. unfold closer. simpl. rewrite length_app, repeat_length. simpl. lia. Qed.

(** X5: a long-bracket string.  When the text after the opening bracket of
    level [n] is [body] followed by the first closing bracket of that level,
    the step adds one [TOKEN_STRING] token whose value is the whole text,
    brackets included, and resumes right after the closing bracket.  The
    line of the token is the line of its closing bracket: the starting line
    plus the newlines of [body]. *)
Theorem long_string_scanned :
  forall l n body post,
    rest l = opener n ++ body ++ closer n ++ post ->
    closes_first n body ->
    exists l',
      scan_step l = Ok l' /\
      tokens l' = tokens l ++
        [mkToken TOKEN_STRING (opener n ++ body ++ closer n)
                 (line l + newlines body) (column l)] /\
      rest l' = post /\ line l' = line l + newlines body.
Proof.
  intros l n body post R H.
  rewrite (scan_step_multiline l n _ R).
  set (l1 := bump (set_start l (current l) (column l))).
  assert (R1 : rest l1 = repeat "=" n ++ "[" :: body ++ closer n ++ post).
  { unfold l1. rewrite rest_bump, rest_set_start, R. unfold opener. simpl.
    rewrite <- app_assoc. reflexivity. }
  unfold multilineString.
  destruct (count_eq_exact n (fuel_of l1) 0 l1
              ("[" :: body ++ closer n ++ post))
    as (l2 & E2 & T2 & L2 & R2); auto.
  { simpl. discriminate. }
  { pose proof (fuel_of_rest l1) as F. rewrite R1, length_app, repeat_length in F.
    lia. }
  rewrite E2. cbn [bind]. rewrite peek_rest, R2. cbn [hd].
  change ("[" =? "[") with true. cbn [negb].
  rewrite advance_rest, R2. cbn [bind].
  destruct (multiline_body_closed n (line (bump l2)) post
              (fuel_of (bump l2)) (bump l2) body)
    as (l3 & E3 & T3 & L3); auto.
  { rewrite rest_bump, R2. reflexivity. }
  { apply fuel_of_rest. }
  change (0 + n) with n. rewrite E3. eexists. split; [reflexivity|].
  destruct (scan_to_trans _ _ _ _ _ T2
              (scan_to_trans _ _ _ _ _ (scan_to_bump l2) T3))
    as (S3 & A3 & B3 & D3 & C3).
  unfold l1 in S3, A3, B3, D3, C3. simpl in S3, A3, B3, D3, C3.
  assert (L : line l3 = line l + newlines body).
  { rewrite L3. simpl. rewrite L2. reflexivity. }
  assert (C : current l3 = current l + length (opener n ++ body ++ closer n)).
  { rewrite C3, !length_app, opener_length, closer_length. lia. }
  assert (P : opener n ++ body ++ closer n ++ post =
              (opener n ++ body ++ closer n) ++ post).
  { rewrite <- !app_assoc. reflexivity. }
  unfold addToken, addTokenValue. simpl.
  rewrite A3, S3, B3, D3, C, L, slice_rest, R, P, firstn_app_exact.
  split; [reflexivity|]. split; [|reflexivity].
  unfold rest. simpl. rewrite S3, C, Nat.add_comm, <- skipn_skipn.
  fold (rest l). rewrite R, P. apply skipn_app_exact.
Qed.

Lemma closes_first_example : closes_first 1 (str "a]]b").
Proof.
  intros pre post E. unfold closer, str in E. simpl in E.
  do 8 (destruct pre as [|? pre]; simpl in E; try discriminate E).
Qed.

Lemma long_string_scanned_witness :
  exists l',
    scan_step (NewLexer (str "[=[a]]b]=]c")) = Ok l' /\
    tokens l' = [mkToken TOKEN_STRING (str "[=[a]]b]=]") 1 1] /\
    rest l' = str "c" /\ line l' = 1.
Proof.
  exact (long_string_scanned (NewLexer (str "[=[a]]b]=]c")) 1 (str "a]]b")
           (str "c") eq_refl closes_first_example).
Defined.

(** X6: a long comment.  Two dashes followed by an opening long bracket of
    level [n], a [body] and the first closing bracket of that level are
    skipped as a whole: the step adds no token, resumes right after the
    closing bracket, and has counted the newlines of [body]. *)
Theorem long_comment_skipped :
  forall l n body post,
    rest l = str "--" ++ opener n ++ body ++ closer n ++ post ->
    closes_first n body ->
    exists l',
      scan_step l = Ok l' /\
      tokens l' = tokens l /\
      rest l' = post /\ line l' = line l + newlines body.
Proof.
  intros l n body post R H. unfold str in R. cbn [app list_ascii_of_string] in R.
  rewrite (scan_step_comment l _ R).
  set (l1 := bump (bump (set_start l (current l) (column l)))).
  assert (R1 : rest l1 = "[" :: repeat "=" n ++ "[" :: body ++ closer n ++ post).
  { unfold l1. rewrite !rest_bump, rest_set_start, R. unfold opener. simpl.
    rewrite <- app_assoc. reflexivity. }
  unfold comment. rewrite peek_rest, peekNext_rest, R1. cbn [hd tl].
  change ("[" =? "[") with true. cbn [andb].
  assert (N : (hd zero (repeat "=" n ++ "[" :: body ++ closer n ++ post) =? "[")
              || (hd zero (repeat "=" n ++ "[" :: body ++ closer n ++ post)
                    =? "=") = true).
  { destruct n; reflexivity. }
  rewrite N. rewrite advance_rest, R1. cbn [bind].
  destruct (count_eq_exact n (fuel_of (bump l1)) 0 (bump l1)
              ("[" :: body ++ closer n ++ post))
    as (l2 & E2 & T2 & L2 & R2).
  { rewrite rest_bump, R1. reflexivity. }
  { simpl. discriminate. }
  { pose proof (fuel_of_rest (bump l1)) as F.
    rewrite rest_bump, R1 in F. cbn [tl] in F.
    rewrite length_app, repeat_length in F. lia. }
  rewrite E2. cbn [bind]. rewrite peek_rest, R2. cbn [hd].
  change ("[" =? "[") with true. cbn [negb].
  rewrite advance_rest, R2. cbn [bind].
  destruct (comment_body_closed n post (fuel_of (bump l2)) (bump l2) body)
    as (l3 & E3 & T3 & L3).
  { rewrite rest_bump, R2. reflexivity. }
  { exact H. }
  { apply fuel_of_rest. }
  change (0 + n) with n. rewrite E3. exists l3. split; [reflexivity|].
  destruct (scan_to_trans _ _ _ _ _ (scan_to_bump l1)
              (scan_to_trans _ _ _ _ _ T2
                 (scan_to_trans _ _ _ _ _ (scan_to_bump l2) T3)))
    as (S3 & A3 & B3 & D3 & C3).
  unfold l1 in S3, A3, B3, D3, C3. simpl in S3, A3, B3, D3, C3.
  split; [exact A3|]. split.
  - assert (P : "-" :: "-" :: opener n ++ body ++ closer n ++ post =
                ("-" :: "-" :: opener n ++ body ++ closer n) ++ post).
    { cbn [app]. do 2 f_equal. rewrite <- !app_assoc. reflexivity. }
    assert (C : current l3 =
                current l + length ("-" :: "-" :: opener n ++ body ++ closer n)).
    { rewrite C3. cbn [length].
      rewrite !length_app, opener_length, closer_length. lia. }
    unfold rest. rewrite S3, C, Nat.add_comm, <- skipn_skipn.
    fold (rest l). rewrite R, P. apply skipn_app_exact.
  - rewrite L3. simpl. rewrite L2. reflexivity.
Qed.

Lemma long_comment_skipped_witness :
  exists l',
    scan_step (NewLexer (str "--[=[a]]b]=]c")) = Ok l' /\
    tokens l' = [] /\ rest l' = str "c" /\ line l' = 1.
Proof.
  exact (long_comment_skipped (NewLexer (str "--[=[a]]b]=]c")) 1 (str "a]]b")
           (str "c") eq_refl closes_first_example).
Defined.

(** ** Words and numbers *)

Lemma addToken_scan k m l l3 :
  scan_to m (set_start l (current l) (column l)) l3 ->
  tokens (addToken k l3) =
    tokens l ++ [mkToken k (firstn m (rest l)) (line l3) (column l)] /\
  rest (addToken k l3) = skipn m (rest l).
Proof.
  intros T. pose proof (scan_to_rest _ _ _ T) as R3.
  rewrite rest_set_start in R3.
  destruct T as (S3 & A3 & B3 & D3 & C3). simpl in S3, A3, B3, D3, C3.
  split.
  - unfold addToken, addTokenValue. simpl.
    rewrite A3, S3, B3, D3, C3, slice_rest. reflexivity.
  - exact R3.
Qed.

Lemma scanToken_alpha l c r :
  rest l = c :: r -> isAlpha c = true -> scanToken l = identifier (bump l).
Proof.
  intros R A. unfold scanToken. rewrite advance_rest, R. cbn [bind].
  destruct c as [[] [] [] [] [] [] [] []];
    try (vm_compute in A; discriminate A); reflexivity.
Qed.

Lemma scanToken_digit l c r :
  rest l = c :: r -> isDigit c = true -> scanToken l = number (bump l).
Proof.
  intros R A. unfold scanToken. rewrite advance_rest, R. cbn [bind].
  destruct c as [[] [] [] [] [] [] [] []];
    try (vm_compute in A; discriminate A); reflexivity.
Qed.

(** X7: a word.  At a letter or underscore the step reads the longest run
    of letters, digits and underscores and adds one token for it: the
    keyword token when the whole run is a keyword, [TOKEN_IDENT]
    otherwise.  It never fails and stays on the line. *)
Theorem word_scanned :
  forall l c r,
    rest l = c :: r -> isAlpha c = true ->
    let n := span_len isAlphaNumeric r in
    let w := c :: firstn n r in
    exists l',
      scan_step l = Ok l' /\
      tokens l' = tokens l ++
        [mkToken (match keywords_get w with
                  | Some t => t
                  | None => TOKEN_IDENT
                  end) w (line l) (column l)] /\
      rest l' = skipn n r /\ line l' = line l /\
      isAlphaNumeric (hd zero (rest l')) = false.
Proof.
  intros l c r R A n w. unfold scan_step.
  set (l0 := set_start l (current l) (column l)).
  assert (R0 : rest l0 = c :: r) by (unfold l0; rewrite rest_set_start; exact R).
  rewrite (scanToken_alpha l0 c r R0 A). unfold identifier.
  destruct (while_peek_exact isAlphaNumeric eq_refl (fuel_of (bump l0))
              (bump l0) (fuel_of_rest _)) as (l3 & E3 & T3 & L3).
  rewrite rest_bump, R0 in T3. cbn [tl] in T3. fold n in T3.
  rewrite E3. cbn [bind].
  pose proof (scan_to_trans _ _ _ _ _ (scan_to_bump l0) T3) as T.
  destruct (addToken_scan
              (match keywords_get (slice (source l3) (start l3) (current l3))
               with Some t => t | None => TOKEN_IDENT end) _ l l3 T)
    as (TK & RS).
  rewrite R in TK, RS. cbn [firstn skipn Nat.add] in TK, RS. fold w in TK.
  assert (SL : slice (source l3) (start l3) (current l3) = w).
  { destruct T as (S3 & _ & B3 & _ & C3). simpl in S3, B3, C3.
    rewrite S3, B3, C3, slice_rest, R. reflexivity. }
  rewrite SL in TK, RS |- *.
  eexists. split; [reflexivity|]. split.
  { rewrite TK. rewrite L3. reflexivity. }
  split; [exact RS|]. split; [simpl; rewrite L3; reflexivity|].
  rewrite RS. unfold n. clear. induction r as [|a r IH]; [reflexivity|].
  simpl. destruct (isAlphaNumeric a) eqn:E; [exact IH|simpl; exact E].
Qed.

Lemma word_scanned_witness :
  exists l',
    scan_step (NewLexer (str "while1 do")) = Ok l' /\
    tokens l' = [mkToken TOKEN_IDENT (str "while1") 1 1] /\
    rest l' = str " do" /\ line l' = 1 /\
    isAlphaNumeric (hd zero (rest l')) = false.
Proof.
  exact (word_scanned (NewLexer (str "while1 do")) "w" (str "hile1 do")
           eq_refl eq_refl).
Defined.

Lemma start_byte l c r :
  rest l = c :: r ->
  nth_error (source (bump (set_start l (current l) (column l))))
            (start (bump (set_start l (current l) (column l)))) = Some c.
Proof.
  intros R. simpl. rewrite <- hd_error_skipn. fold (rest l). rewrite R.
  reflexivity.
Qed.

(** X8: a based literal.  After [0x], [0b] or [0o] the step reads the
    longest run of digits of the base, which may be empty, and adds one
    [TOKEN_NUMBER] token for the prefix and the run.  No digit has to
    follow the prefix, and the step never fails. *)
Theorem based_number_scanned :
  forall l p r digit,
    rest l = "0" :: p :: r -> base_digit p = Some digit ->
    let n := span_len digit r in
    exists l',
      scan_step l = Ok l' /\
      tokens l' = tokens l ++
        [mkToken TOKEN_NUMBER ("0" :: p :: firstn n r) (line l) (column l)] /\
      rest l' = skipn n r /\ line l' = line l.
Proof.
  intros l p r digit R B n. unfold scan_step.
  set (l0 := set_start l (current l) (column l)).
  assert (R0 : rest l0 = "0" :: p :: r)
    by (unfold l0; rewrite rest_set_start; exact R).
  rewrite (scanToken_digit l0 "0" _ R0 eq_refl). unfold number.
  unfold l0 at 1 2. rewrite (start_byte l _ _ R). fold l0.
  change ("0" =? "0") with true. cbn [andb].
  assert (R1 : rest (bump l0) = p :: r) by (rewrite rest_bump, R0; reflexivity).
  replace (current (bump l0) <? length (source (bump l0)))%nat with true
    by (symmetry; apply Nat.ltb_lt; exact (rest_cons_lt _ _ _ R1)).
  rewrite peek_rest, R1. cbn [hd].
  assert (G : forall d, d zero = false -> digit = d ->
            exists l',
              ('(_, l2) <- advance (bump l0) ;;
               l3 <- while_advance (fun l => d (peek l)) (fuel_of l2) l2 ;;
               Ok (addToken TOKEN_NUMBER l3)) = Ok l' /\
              tokens l' = tokens l ++
                [mkToken TOKEN_NUMBER ("0" :: p :: firstn n r)
                         (line l) (column l)] /\
              rest l' = skipn n r /\ line l' = line l).
  { intros d Z <-. rewrite advance_rest, R1. cbn [bind].
    destruct (while_peek_exact digit Z (fuel_of (bump (bump l0)))
                (bump (bump l0)) (fuel_of_rest _)) as (l3 & E3 & T3 & L3).
    rewrite !rest_bump, R0 in T3. cbn [tl] in T3. fold n in T3.
    rewrite E3. cbn [bind].
    pose proof (scan_to_trans _ _ _ _ _ (scan_to_bump l0)
                  (scan_to_trans _ _ _ _ _ (scan_to_bump (bump l0)) T3)) as T.
    destruct (addToken_scan TOKEN_NUMBER _ l l3 T) as (TK & RS).
    rewrite R in TK, RS. cbn [firstn skipn Nat.add] in TK, RS.
    eexists. split; [reflexivity|]. split; [rewrite TK, L3; reflexivity|].
    split; [exact RS|]. simpl. exact L3. }
  unfold base_digit in B.
  destruct ((p =? "x") || (p =? "X")).
  { injection B as B. apply (G isHexDigit eq_refl). symmetry. exact B. }
  destruct ((p =? "b") || (p =? "B")).
  { injection B as B.
    apply (G (fun c => (c =? "0") || (c =? "1")) eq_refl). symmetry. exact B. }
  destruct ((p =? "o") || (p =? "O")); [|discriminate B].
  injection B as B.
  apply (G (fun c => ble "0" c && ble c "7") eq_refl). symmetry. exact B.
Qed.

Lemma based_number_scanned_witness :
  exists l',
    scan_step (NewLexer (str "0b2")) = Ok l' /\
    tokens l' = [mkToken TOKEN_NUMBER (str "0b") 1 1] /\
    rest l' = str "2" /\ line l' = 1.
Proof.
  exact (based_number_scanned (NewLexer (str "0b2")) "b" (str "2")
           (fun c => (c =? "0") || (c =? "1")) eq_refl eq_refl).
Defined.

(** ** Literals the lexer accepts and [ConvertNumber] rejects *)

Lemma digits_from_cons base n c ds :
  digits_from base n (c :: ds) =
  digits_from base (n * base + (byte_val c - byte_val "0"))%Z ds.
Proof. reflexivity. Qed.

Lemma ParseUint_loop_over base : forall ds n,
  (2 <= base <= 10)%Z -> forallb (is_digit_of base) ds = true ->
  (0 <= n <= maxUint64)%Z -> (maxUint64 < digits_from base n ds)%Z ->
  ParseUint_loop base n ds = (maxUint64, Some ErrRange).
Proof.
  induction ds as [|c ds IH]; intros n B H N M.
  - unfold digits_from in M. simpl in M. lia.
  - cbn [forallb] in H. apply andb_prop in H. destruct H as (H1 & H2).
    destruct (is_digit_of_digit base c) as (d & E & D & R); auto; [lia|].
    cbn [ParseUint_loop]. rewrite E. subst d.
    replace (base <=? byte_val c - byte_val "0")%Z with false
      by (symmetry; apply Z.leb_gt; lia).
    destruct (maxUint64 / base + 1 <=? n)%Z eqn:O1; [reflexivity|].
    apply Z.leb_gt in O1.
    destruct (maxUint64 <? n * base + (byte_val c - byte_val "0"))%Z eqn:O2;
      [reflexivity|].
    apply Z.ltb_ge in O2. rewrite digits_from_cons in M.
    apply IH; auto. split; [nia|exact O2].
Qed.

Lemma digit_not_sign base c :
  is_digit_of base c = true -> (c =? "+") = false /\ (c =? "-") = false.
Proof.
  intros H. unfold is_digit_of in H. apply andb_prop in H.
  destruct H as (H & _). rewrite ble_byte_val in H. apply Z.leb_le in H.
  split; apply Ascii.eqb_neq; intros ->; vm_compute in H; auto.
Qed.

Lemma ParseInt_over base ds :
  (2 <= base <= 10)%Z -> forallb (is_digit_of base) ds = true ->
  (2 ^ 63 <= digits_value base ds)%Z ->
  exists v, ParseInt ds base = (v, Some ErrRange).
Proof.
  intros B H V. destruct ds as [|c0 ds].
  { unfold digits_value in V. simpl in V. lia. }
  unfold ParseInt.
  assert (H0 : is_digit_of base c0 = true)
    by (cbn [forallb] in H; apply andb_prop in H; apply H).
  destruct (digit_not_sign base c0 H0) as (-> & ->). cbn [orb negb andb].
  unfold ParseUint.
  destruct (Z.le_gt_cases (digits_from base 0 (c0 :: ds)) maxUint64) as [M|M].
  - rewrite ParseUint_loop_digits; auto; [|lia].
    change (digits_value base (c0 :: ds))
      with (digits_from base 0 (c0 :: ds)) in V.
    replace (2 ^ 63 <=? digits_from base 0 (c0 :: ds))%Z with true
      by (symmetry; apply Z.leb_le; exact V).
    eexists. reflexivity.
  - rewrite ParseUint_loop_over; auto; [|unfold maxUint64; lia].
    eexists. reflexivity.
Qed.

Lemma bin_digit_of c : ((c =? "0") || (c =? "1")) = is_digit_of 2 c.
Proof. destruct c as [[] [] [] [] [] [] [] []]; vm_compute; reflexivity. Qed.

Lemma oct_digit_of c : (ble "0" c && ble c "7") = is_digit_of 8 c.
Proof. destruct c as [[] [] [] [] [] [] [] []]; vm_compute; reflexivity. Qed.

Lemma forallb_ext_eq {A : Type} (f g : A -> bool) (s : list A) :
  (forall a, f a = g a) -> forallb f s = forallb g s.
Proof. intros E. induction s as [|a s IH]; simpl; [|rewrite E, IH]; auto. Qed.

(** X9: which literals convert.  Take a binary or octal literal as the
    lexer reads it: the prefix and a run of digits of the base, possibly
    empty.  [ConvertNumber] gives the decimal string of its value when
    there is at least one digit and the value is below 2^63, and the error
    naming the literal in every other case: no digit, or a value of 2^63
    or more. *)
Theorem ConvertNumber_of_lexed_literal :
  forall p base digit ds,
    prefix_base p = Some base -> base_digit p = Some digit ->
    forallb digit ds = true ->
    ConvertNumber ("0" :: p :: ds) =
      if negb (eqs ds []) && (digits_value base ds <? 2 ^ 63)%Z
      then Success (FormatInt (digits_value base ds))
      else Failure (invalid_literal base ("0" :: p :: ds)).
Proof.
  intros p base digit ds PB BD H.
  assert (K : (base = 2%Z \/ base = 8%Z) /\
              forallb (is_digit_of base) ds = true /\
              ConvertNumber ("0" :: p :: ds) =
                match ParseInt ds base with
                | (n, None) => Success (FormatInt n)
                | (_, Some _) => Failure (invalid_literal base ("0" :: p :: ds))
                end).
  { unfold prefix_base in PB. unfold base_digit in BD.
    unfold ConvertNumber. change ("0" =? "0") with true. cbn iota.
    destruct ((p =? "b") || (p =? "B")) eqn:PB1.
    - injection PB as <-.
      assert (X : (p =? "x") || (p =? "X") = false).
      { apply orb_prop in PB1. destruct PB1 as [E|E];
          apply Ascii.eqb_eq in E; subst p; reflexivity. }
      rewrite X in BD. injection BD as <-.
      split; [auto|]. split; [|reflexivity].
      rewrite <- H. apply forallb_ext_eq. intros a. symmetry.
      apply bin_digit_of.
    - destruct ((p =? "o") || (p =? "O")) eqn:PB2; [|discriminate PB].
      injection PB as <-.
      assert (X : (p =? "x") || (p =? "X") = false).
      { apply orb_prop in PB2. destruct PB2 as [E|E];
          apply Ascii.eqb_eq in E; subst p; reflexivity. }
      rewrite X in BD. injection BD as <-.
      split; [auto|]. split; [|reflexivity].
      rewrite <- H. apply forallb_ext_eq. intros a. symmetry.
      apply oct_digit_of. }
  destruct K as (B & D & ->).
  assert (B' : (2 <= base <= 10)%Z) by lia.
  destruct ds as [|c ds]; [reflexivity|].
  change (eqs (c :: ds) []) with false. cbn [negb andb].
  destruct (digits_value base (c :: ds) <? 2 ^ 63)%Z eqn:V.
  - apply Z.ltb_lt in V. rewrite ParseInt_digits; auto. discriminate.
  - apply Z.ltb_ge in V. destruct (ParseInt_over base (c :: ds) B' D V) as (v & ->).
    reflexivity.
Qed.

Lemma ConvertNumber_of_lexed_literal_witness :
  ConvertNumber (str "0b") = Failure (str "invalid binary literal: 0b") /\
  ConvertNumber (str "0o17") = Success (str "15").
Proof.
  split.
  - exact (ConvertNumber_of_lexed_literal "b" 2 (fun c => (c =? "0") || (c =? "1"))
             [] eq_refl eq_refl eq_refl).
  - exact (ConvertNumber_of_lexed_literal "o" 8
             (fun c => ble "0" c && ble c "7") (str "17")
             eq_refl eq_refl eq_refl).
Defined.

(** ** Decimal literals *)

Lemma digits_exact l :
  exists l',
    while_advance peek_digits (fuel_of l) l = Ok l' /\
    scan_to (span_len isDigit (rest l)) l l' /\ line l' = line l.
Proof.
  exact (while_peek_exact isDigit eq_refl (fuel_of l) l (fuel_of_rest l)).
Qed.

Lemma fraction_exact l :
  exists l',
    (if (peek l =? ".") && isDigit (peekNext l) then
       '(_, l) <- advance l ;;
       while_advance peek_digits (fuel_of l) l
     else Ok l) = Ok l' /\
    scan_to (fraction_len (rest l)) l l' /\ line l' = line l.
Proof.
  rewrite peek_rest, peekNext_rest.
  destruct (rest l) as [|a [|b t]] eqn:R; cbn [hd tl fraction_len].
  - exists l. auto using scan_to_refl.
  - rewrite andb_false_r. exists l. auto using scan_to_refl.
  - destruct ((a =? ".") && isDigit b) eqn:T;
      [|exists l; auto using scan_to_refl].
    rewrite advance_rest, R. cbn [bind].
    destruct (digits_exact (bump l)) as (l' & E & S & L).
    rewrite rest_bump, R in S. cbn [tl] in S.
    apply andb_prop in T. destruct T as (_ & T).
    cbn [span_len] in S. rewrite T in S.
    exists l'. split; [exact E|]. split; [|exact L].
    eapply scan_to_eq; [|eapply scan_to_trans; [apply scan_to_bump|exact S]].
    reflexivity.
Qed.

Lemma exponent_exact l :
  exists l',
    (if (peek l =? "e") || (peek l =? "E") then
       '(_, l) <- advance l ;;
       l <- (if (peek l =? "+") || (peek l =? "-")
             then '(_, l1) <- advance l ;; Ok l1
             else Ok l) ;;
       while_advance peek_digits (fuel_of l) l
     else Ok l) = Ok l' /\
    scan_to (exponent_len (rest l)) l l' /\ line l' = line l.
Proof.
  rewrite peek_rest.
  destruct (rest l) as [|a s1] eqn:R; cbn [hd exponent_len].
  - exists l. auto using scan_to_refl.
  - destruct ((a =? "e") || (a =? "E")) eqn:T;
      [|exists l; auto using scan_to_refl].
    rewrite advance_rest, R. cbn [bind].
    assert (R1 : rest (bump l) = s1) by (rewrite rest_bump, R; reflexivity).
    rewrite peek_rest, R1.
    destruct s1 as [|sg s2]; cbn [hd].
    + change ((zero =? "+") || (zero =? "-")) with false. cbn [bind].
      destruct (digits_exact (bump l)) as (l' & E & S & L).
      rewrite R1 in S. cbn [span_len] in S.
      exists l'. split; [exact E|]. split; [|exact L].
      eapply scan_to_eq; [|eapply scan_to_trans; [apply scan_to_bump|exact S]].
      reflexivity.
    + destruct ((sg =? "+") || (sg =? "-")) eqn:G.
      * rewrite advance_rest, R1. cbn [bind].
        destruct (digits_exact (bump (bump l))) as (l' & E & S & L).
        rewrite rest_bump, R1 in S. cbn [tl] in S.
        exists l'. split; [exact E|]. split; [|exact L].
        eapply scan_to_eq;
          [|eapply scan_to_trans;
             [apply scan_to_bump|
              eapply scan_to_trans; [apply scan_to_bump|exact S]]].
        reflexivity.
      * cbn [bind].
        destruct (digits_exact (bump l)) as (l' & E & S & L).
        rewrite R1 in S.
        exists l'. split; [exact E|]. split; [|exact L].
        eapply scan_to_eq; [|eapply scan_to_trans; [apply scan_to_bump|exact S]].
        reflexivity.
Qed.

Lemma number_decimal_exact l :
  exists l',
    number_decimal l = Ok (addToken TOKEN_NUMBER l') /\
    scan_to (decimal_len (rest l)) l l' /\ line l' = line l.
Proof.
  unfold number_decimal.
  destruct (digits_exact l) as (l1 & E1 & S1 & L1). rewrite E1. cbn [bind].
  destruct (fraction_exact l1) as (l2 & E2 & S2 & L2). rewrite E2. cbn [bind].
  destruct (exponent_exact l2) as (l3 & E3 & S3 & L3). rewrite E3. cbn [bind].
  exists l3. split; [reflexivity|].
  pose proof (scan_to_rest _ _ _ S1) as R1.
  pose proof (scan_to_rest _ _ _ (scan_to_trans _ _ _ _ _ S1 S2)) as R2.
  rewrite R1 in S2, R2. rewrite R2 in S3. split.
  - eapply scan_to_eq;
      [|eapply scan_to_trans; [exact S1|
          eapply scan_to_trans; [exact S2|exact S3]]].
    unfold decimal_len. cbv zeta. lia.
  - congruence.
Qed.

Lemma scanToken_dot_digit l d r :
  rest l = "." :: d :: r -> isDigit d = true ->
  scanToken l = number (bump l).
Proof.
  intros R D. unfold scanToken. rewrite advance_rest, R. cbn [bind].
  change ("." =? "(") with false. cbv beta iota.
  assert (N : (d =? ".") = false).
  { destruct (d =? ".") eqn:E; [|reflexivity].
    apply Ascii.eqb_eq in E. subst d. discriminate D. }
  cbn [Ascii.eqb Bool.eqb andb orb].
  rewrite match_rest, rest_bump, R. cbn [tl]. rewrite N.
  rewrite peek_rest, rest_bump, R. cbn [tl hd]. rewrite D. reflexivity.
Qed.

Lemma number_plain l0 c :
  nth_error (source l0) (start l0) = Some c ->
  (c = "0" -> base_digit (peek l0) = None) ->
  number l0 = number_decimal l0.
Proof.
  intros N B. unfold number. rewrite N.
  destruct (c =? "0") eqn:C; [|reflexivity].
  apply Ascii.eqb_eq in C. specialize (B C). unfold base_digit in B.
  destruct (current l0 <? length (source l0))%nat; [|reflexivity].
  cbn [andb].
  destruct ((peek l0 =? "x") || (peek l0 =? "X")); [discriminate B|].
  destruct ((peek l0 =? "b") || (peek l0 =? "B")); [discriminate B|].
  destruct ((peek l0 =? "o") || (peek l0 =? "O")); [discriminate B|].
  reflexivity.
Qed.

(** X10: a decimal literal.  At a digit that does not open a based literal
    the step reads the digits, then a fraction if a dot and a digit follow,
    then an exponent if [e] or [E] follows, and adds one [TOKEN_NUMBER]
    token for the text read.  The exponent needs no digit.  A dot followed
    by a digit starts a literal in the same way, with the digits after the
    dot read as the integer part, so that a second fraction may follow. *)
Theorem decimal_number_scanned :
  (forall l c r,
      rest l = c :: r -> isDigit c = true ->
      (c = "0" -> base_digit (hd zero r) = None) ->
      let n := decimal_len r in
      exists l',
        scan_step l = Ok l' /\
        tokens l' = tokens l ++
          [mkToken TOKEN_NUMBER (c :: firstn n r) (line l) (column l)] /\
        rest l' = skipn n r /\ line l' = line l) /\
  (forall l d r,
      rest l = "." :: d :: r -> isDigit d = true ->
      let n := decimal_len (d :: r) in
      exists l',
        scan_step l = Ok l' /\
        tokens l' = tokens l ++
          [mkToken TOKEN_NUMBER ("." :: firstn n (d :: r)) (line l) (column l)] /\
        rest l' = skipn n (d :: r) /\ line l' = line l).
Proof.
  assert (G : forall l c r,
             rest l = c :: r ->
             number (bump (set_start l (current l) (column l))) =
             number_decimal (bump (set_start l (current l) (column l))) ->
             scanToken (set_start l (current l) (column l)) =
             number (bump (set_start l (current l) (column l))) ->
             exists l',
               scan_step l = Ok l' /\
               tokens l' = tokens l ++
                 [mkToken TOKEN_NUMBER (c :: firstn (decimal_len r) r)
                          (line l) (column l)] /\
               rest l' = skipn (decimal_len r) r /\ line l' = line l).
  { intros l c r R N S. unfold scan_step. rewrite S, N.
    set (l0 := set_start l (current l) (column l)).
    destruct (number_decimal_exact (bump l0)) as (l3 & E3 & T3 & L3).
    assert (R1 : rest (bump l0) = r).
    { unfold l0. rewrite rest_bump, rest_set_start, R. reflexivity. }
    rewrite R1 in T3. rewrite E3.
    pose proof (scan_to_trans _ _ _ _ _ (scan_to_bump l0) T3) as T.
    destruct (addToken_scan TOKEN_NUMBER _ l l3 T) as (TK & RS).
    rewrite R in TK, RS. cbn [firstn skipn Nat.add] in TK, RS.
    eexists. split; [reflexivity|]. split; [rewrite TK, L3; reflexivity|].
    split; [exact RS|]. simpl. exact L3. }
  split.
  - intros l c r R D B n. apply G; auto.
    + apply (number_plain _ c); [apply (start_byte l c r R)|].
      intros C. rewrite peek_rest, rest_bump, rest_set_start, R. auto.
    + apply (scanToken_digit _ c r); [rewrite rest_set_start; exact R|exact D].
  - intros l d r R D n. apply (G l "." (d :: r)); auto.
    + apply (number_plain _ "."); [apply (start_byte l _ _ R)|].
      intros C. discriminate C.
    + apply (scanToken_dot_digit _ d r); [rewrite rest_set_start; exact R|exact D].
Qed.

Lemma decimal_number_scanned_witness :
  (exists l',
     scan_step (NewLexer (str "0.5e+x")) = Ok l' /\
     tokens l' = [mkToken TOKEN_NUMBER (str "0.5e+") 1 1] /\
     rest l' = str "x" /\ line l' = 1) /\
  (exists l',
     scan_step (NewLexer (str ".5.25")) = Ok l' /\
     tokens l' = [mkToken TOKEN_NUMBER (str ".5.25") 1 1] /\
     rest l' = [] /\ line l' = 1).
Proof.
  split.
  - apply (proj1 decimal_number_scanned (NewLexer (str "0.5e+x")) "0"
             (str ".5e+x") eq_refl eq_refl).
    intros _. reflexivity.
  - exact (proj2 decimal_number_scanned (NewLexer (str ".5.25")) "5"
             (str ".25") eq_refl eq_refl).
Defined.

(** * Further properties of the compile command *)

Lemma eqs_true a b : eqs a b = true -> a = b.
Proof. unfold eqs. destruct (list_eq_dec ascii_dec a b); [auto|discriminate]. Qed.

(** An argument without a dash is none of the option words. *)
Lemma undashed_not_option arg w :
  dashed arg = false -> dashed (str w) = true -> eqs arg (str w) = false.
Proof.
  intros U D. destruct (eqs arg (str w)) eqn:E; [|reflexivity].
  apply eqs_true in E. subst arg. congruence.
Qed.

Lemma parseCompileOptions_step_file arg args files opts :
  dashed arg = false ->
  parseCompileOptions (arg :: args) files opts =
  parseCompileOptions args (files ++ [arg]) opts.
Proof.
  intros U. cbn [parseCompileOptions].
  rewrite (undashed_not_option arg "-o" U eq_refl),
    (undashed_not_option arg "--output" U eq_refl),
    (undashed_not_option arg "-p" U eq_refl),
    (undashed_not_option arg "--print" U eq_refl),
    (undashed_not_option arg "-q" U eq_refl),
    (undashed_not_option arg "--quiet" U eq_refl),
    (undashed_not_option arg "--stdout" U eq_refl).
  cbn [orb].
  fold (dashed arg). rewrite U. reflexivity.
Qed.

Lemma parseCompileOptions_files_only : forall args files0 opts0,
  Forall (fun a => dashed a = false) args ->
  parseCompileOptions args files0 opts0 = Success (files0 ++ args, opts0).
Proof.
  induction args as [|arg args IH]; intros files0 opts0 U.
  - rewrite app_nil_r. reflexivity.
  - inversion U as [|? ? U1 U2]; subst.
    rewrite parseCompileOptions_step_file by exact U1.
    rewrite IH by exact U2. rewrite <- app_assoc. reflexivity.
Qed.

Lemma last_cons_default {A : Type} (a d : A) (s : list A) :
  last (a :: s) d = last s a.
Proof.
  revert a d. induction s as [|b s IH]; intros a d; [reflexivity|].
  change (last (a :: b :: s) d) with (last (b :: s) d).
  rewrite !IH. reflexivity.
Qed.

Lemma options_eta o :
  o = mkOptions (OutputFile o) (PrintOnly o) (Quiet o) (ToStdout o).
Proof. destruct o; reflexivity. Qed.

Lemma parseCompileOptions_items : forall items files0 opts0,
  Forall item_ok items ->
  parseCompileOptions (flat_map render_item items) files0 opts0
  = Success (files0 ++ files_of items, options_of items opts0).
Proof.
  induction items as [|i items IH]; intros files0 opts0 W.
  { cbn. rewrite app_nil_r. unfold options_of. cbn.
    rewrite !orb_false_r. f_equal. f_equal. apply options_eta. }
  inversion W as [|? ? W1 W2]; subst.
  destruct i as [f|long out|long|long|];
    cbn [flat_map render_item app].
  - rewrite parseCompileOptions_step_file by exact W1.
    rewrite IH by exact W2. cbn [files_of flat_map app].
    rewrite <- app_assoc. reflexivity.
  - cbn [parseCompileOptions].
    replace (eqs (if long then str "--output" else str "-o") (str "-o")
             || eqs (if long then str "--output" else str "-o")
                  (str "--output")) with true
      by (destruct long; reflexivity).
    rewrite IH by exact W2. unfold options_of.
    cbn [OutputFile PrintOnly Quiet ToStdout outputs_of flat_map app
         has_print has_quiet has_stdout existsb orb files_of].
    rewrite last_cons_default. reflexivity.
  - cbn [parseCompileOptions].
    replace (eqs (if long then str "--print" else str "-p") (str "-o")
             || eqs (if long then str "--print" else str "-p")
                  (str "--output")) with false
      by (destruct long; reflexivity).
    replace (eqs (if long then str "--print" else str "-p") (str "-p")
             || eqs (if long then str "--print" else str "-p")
                  (str "--print")) with true
      by (destruct long; reflexivity).
    rewrite IH by exact W2. unfold options_of.
    cbn [OutputFile PrintOnly Quiet ToStdout outputs_of flat_map app
         has_print has_quiet has_stdout existsb orb files_of].
    rewrite orb_true_r. reflexivity.
  - cbn [parseCompileOptions].
    replace (eqs (if long then str "--quiet" else str "-q") (str "-o")
             || eqs (if long then str "--quiet" else str "-q")
                  (str "--output")) with false
      by (destruct long; reflexivity).
    replace (eqs (if long then str "--quiet" else str "-q") (str "-p")
             || eqs (if long then str "--quiet" else str "-q")
                  (str "--print")) with false
      by (destruct long; reflexivity).
    replace (eqs (if long then str "--quiet" else str "-q") (str "-q")
             || eqs (if long then str "--quiet" else str "-q")
                  (str "--quiet")) with true
      by (destruct long; reflexivity).
    rewrite IH by exact W2. unfold options_of.
    cbn [OutputFile PrintOnly Quiet ToStdout outputs_of flat_map app
         has_print has_quiet has_stdout existsb orb files_of].
    rewrite orb_true_r. reflexivity.
  - cbn [parseCompileOptions].
    change (eqs (str "--stdout") (str "-o")
            || eqs (str "--stdout") (str "--output")) with false.
    change (eqs (str "--stdout") (str "-p")
            || eqs (str "--stdout") (str "--print")) with false.
    change (eqs (str "--stdout") (str "-q")
            || eqs (str "--stdout") (str "--quiet")) with false.
    change (eqs (str "--stdout") (str "--stdout")) with true.
    cbv iota. rewrite IH by exact W2. unfold options_of.
    cbn [OutputFile PrintOnly Quiet ToStdout outputs_of flat_map app
         has_print has_quiet has_stdout existsb orb files_of].
    rewrite orb_true_r. reflexivity.
Qed.

Lemma flag_word arg a b :
  eqs arg (str a) || eqs arg (str b) = true ->
  exists long : bool, arg = if long then str b else str a.
Proof.
  intros H. apply orb_prop in H. destruct H as [H|H]; apply eqs_true in H;
    [exists false|exists true]; exact H.
Qed.

Lemma parseCompileOptions_read : forall n args files0 opts0 r,
  length args <= n ->
  parseCompileOptions args files0 opts0 = Success r ->
  exists items, Forall item_ok items /\ args = flat_map render_item items.
Proof.
  induction n as [|n IH]; intros [|arg args] files0 opts0 r L E;
    cbn [length] in L; try lia;
    try (exists []; split; [constructor|reflexivity]).
  cbn [parseCompileOptions] in E.
  assert (K : forall i f o,
             render_item i = [arg] -> item_ok i ->
             parseCompileOptions args f o = Success r ->
             exists items, Forall item_ok items /\
                           arg :: args = flat_map render_item items).
  { intros i f o Ri Wi E1.
    destruct (IH args f o r ltac:(lia) E1) as (items & W & ->).
    exists (i :: items). split; [constructor; auto|].
    cbn [flat_map]. rewrite Ri. reflexivity. }
  destruct (eqs arg (str "-o") || eqs arg (str "--output")) eqn:T1.
  { destruct args as [|out args]; [discriminate E|]. cbn [length] in L.
    destruct (flag_word _ _ _ T1) as (long & ->).
    destruct (IH args _ _ r ltac:(lia) E) as (items & W & ->).
    exists (AOutput long out :: items). split; [constructor; simpl; auto|].
    reflexivity. }
  destruct (eqs arg (str "-p") || eqs arg (str "--print")) eqn:T2.
  { destruct (flag_word _ _ _ T2) as (long & ->).
    apply (K (APrint long) _ _ eq_refl I E). }
  destruct (eqs arg (str "-q") || eqs arg (str "--quiet")) eqn:T3.
  { destruct (flag_word _ _ _ T3) as (long & ->).
    apply (K (AQuiet long) _ _ eq_refl I E). }
  destruct (eqs arg (str "--stdout")) eqn:T4.
  { apply eqs_true in T4. subst arg. apply (K AStdout _ _ eq_refl I E). }
  destruct (HasPrefix arg (str "-")) eqn:P; [discriminate E|].
  apply (K (AFile arg) _ _ eq_refl P E).
Qed.

Lemma parseCompileOptions_fatal : forall n args files0 opts0 msg,
  length args <= n ->
  parseCompileOptions args files0 opts0 = Failure msg ->
  msg = str "error: -o requires an output file argument" \/
  exists a,
    In a args /\ dashed a = true /\
    msg = str "error: unknown option '" ++ a ++ str "'".
Proof.
  induction n as [|n IH]; intros [|arg args] files0 opts0 msg L E;
    cbn [length] in L; try lia; try discriminate E.
  cbn [parseCompileOptions] in E.
  assert (K : forall f o, parseCompileOptions args f o = Failure msg ->
              msg = str "error: -o requires an output file argument" \/
              exists a, In a (arg :: args) /\ dashed a = true /\
                        msg = str "error: unknown option '" ++ a ++ str "'").
  { intros f o E1.
    destruct (IH args f o msg ltac:(lia) E1) as [M|(a & J & D & M)];
      [left; exact M|right; exists a; simpl; auto]. }
  destruct (eqs arg (str "-o") || eqs arg (str "--output")).
  { destruct args as [|out args]; [injection E as <-; left; reflexivity|].
    cbn [length] in L.
    destruct (IH args _ _ msg ltac:(lia) E) as [M|(a & J & D & M)];
      [left; exact M|right; exists a; simpl; auto]. }
  destruct (eqs arg (str "-p") || eqs arg (str "--print")); [eauto|].
  destruct (eqs arg (str "-q") || eqs arg (str "--quiet")); [eauto|].
  destruct (eqs arg (str "--stdout")); [eauto|].
  destruct (HasPrefix arg (str "-")) eqn:P; [|eauto].
  injection E as <-. right. exists arg. simpl. auto.
Qed.

(** X11: the arguments of the compile command.  Read the arguments as
    items: a file, which does not begin with a dash; the output option,
    short or long, with the argument after it, whatever that is; or one of
    the flags.  On the arguments of a list of items [parseCompileOptions]
    returns the files of the items, in their order, after the files it
    had, and the options of the items: the output file is the argument of
    the last output option, and a flag is set if it was set before or
    occurs.  The argument of an output option is never a file.  Every list
    of arguments on which it returns is such a list of items.  When it
    ends the process, the message is one of two: the output option was
    the last argument, or an argument that begins with a dash is not an
    option. *)
Theorem parseCompileOptions_sorts_arguments :
  (forall items files0 opts0,
      Forall item_ok items ->
      parseCompileOptions (flat_map render_item items) files0 opts0
      = Success (files0 ++ files_of items, options_of items opts0)) /\
  (forall args files0 opts0 files opts,
      parseCompileOptions args files0 opts0 = Success (files, opts) ->
      exists items,
        Forall item_ok items /\ args = flat_map render_item items /\
        files = files0 ++ files_of items /\ opts = options_of items opts0) /\
  (forall args files0 opts0,
      Forall (fun a => dashed a = false) args ->
      parseCompileOptions args files0 opts0 = Success (files0 ++ args, opts0)) /\
  (forall args files0 opts0 msg,
      parseCompileOptions args files0 opts0 = Failure msg ->
      msg = str "error: -o requires an output file argument" \/
      exists a,
        In a args /\ dashed a = true /\
        msg = str "error: unknown option '" ++ a ++ str "'").
Proof.
  split; [exact parseCompileOptions_items|]. split; [|split].
  - intros args files0 opts0 files opts E.
    destruct (parseCompileOptions_read (length args) args files0 opts0 _
                (le_n _) E) as (items & W & A).
    exists items. split; [exact W|]. split; [exact A|].
    rewrite A, (parseCompileOptions_items items files0 opts0 W) in E.
    injection E as <- <-. auto.
  - apply parseCompileOptions_files_only.
  - intros args files0 opts0 msg E.
    apply (parseCompileOptions_fatal (length args) args files0 opts0 msg
             (le_n _) E).
Qed.

Lemma parseCompileOptions_sorts_arguments_witness :
  parseCompileOptions
    [str "a.tkm"; str "-o"; str "-p"; str "--output"; str "b.tkm";
     str "-q"; str "c.tkm"]
    [] (mkOptions [] false false false)
  = Success ([] ++ [str "a.tkm"; str "c.tkm"],
             mkOptions (str "b.tkm") false true false) /\
  (exists items,
     Forall item_ok items /\
     [str "a.tkm"; str "--stdout"] = flat_map render_item items /\
     [str "a.tkm"] = [] ++ files_of items /\
     mkOptions [] false false true
     = options_of items (mkOptions [] false false false)) /\
  parseCompileOptions [str "a.tkm"; str "b.tkm"] []
    (mkOptions [] false false false)
  = Success ([] ++ [str "a.tkm"; str "b.tkm"], mkOptions [] false false false) /\
  (str "error: unknown option '-x'"
   = str "error: -o requires an output file argument" \/
   exists a,
     In a [str "a.tkm"; str "-x"] /\ dashed a = true /\
     str "error: unknown option '-x'"
     = str "error: unknown option '" ++ a ++ str "'").
Proof.
  split; [|split; [|split]].
  - apply (proj1 parseCompileOptions_sorts_arguments
             [AFile (str "a.tkm"); AOutput false (str "-p");
              AOutput true (str "b.tkm"); AQuiet false; AFile (str "c.tkm")]
             [] (mkOptions [] false false false)).
    repeat constructor.
  - apply (proj1 (proj2 parseCompileOptions_sorts_arguments)
             [str "a.tkm"; str "--stdout"] []
             (mkOptions [] false false false)).
    reflexivity.
  - apply (proj1 (proj2 (proj2 parseCompileOptions_sorts_arguments))).
    repeat constructor.
  - apply (proj2 (proj2 (proj2 parseCompileOptions_sorts_arguments))
             [str "a.tkm"; str "-x"] [] (mkOptions [] false false false)).
    reflexivity.
Defined.

Lemma Error_names_line e :
  exists tail, Error e = str "line " ++ fmt_d (err_line e) ++ str ": " ++ tail.
Proof.
  destruct e; cbn [Error err_line]; eexists; do 2 f_equal; reflexivity.
Qed.

Ltac effects_done :=
  repeat match goal with
         | |- _ /\ _ => split
         | |- _ -> _ => intro
         | H : Some _ = None |- _ => discriminate H
         | H : None <> None |- _ => contradiction H; reflexivity
         | H : true = false |- _ => discriminate H
         | H : false = true |- _ => discriminate H
         end;
  try discriminate; auto.

Section CompileFacts.

Context {OS : Type}.
Variable ReadFile : OS -> list ascii -> result (list ascii).
Variable WriteFile :
  OS -> list ascii -> list ascii -> OS * option (list ascii).
Variable Glob : OS -> list ascii -> result (list (list ascii)).
Variable compiler_Compile : list Token -> result (list ascii).

Local Notation "'compile_file'" :=
  (compileFile OS ReadFile WriteFile compiler_Compile).
Local Notation "'compile_files'" :=
  (compile_each OS ReadFile WriteFile compiler_Compile).
Local Notation "'handle_compile'" :=
  (handleCompile OS ReadFile WriteFile Glob compiler_Compile).

(** X12: what [compileFile] leaves alone.  It never writes to standard
    error.  When it returns an error it has printed nothing.  With
    [--print] or [--stdout] it leaves the file system as it was, whatever
    [-o] and [--quiet] say, and a successful run prints the compiled text
    and nothing else.  A path that does not end in [.tkm] is refused
    without touching the file system. *)
Theorem compileFile_effects :
  forall inputPath opts w w' err,
    compile_file inputPath opts w = Ok (w', err) ->
    stderr w' = stderr w /\
    (err <> None -> stdout w' = stdout w) /\
    (PrintOnly opts || ToStdout opts = true ->
     os w' = os w /\
     (err = None ->
      exists src tokens output,
        ReadFile (os w) inputPath = Success src /\
        tokenize src = Ok tokens /\
        compiler_Compile tokens = Success output /\
        stdout w' = stdout w ++ output)) /\
    (HasSuffix inputPath (str ".tkm") = false ->
     os w' = os w /\
     err = Some (str "'" ++ inputPath ++ str "' is not a .tkm file")).
Proof.
  intros inputPath opts w w' err. unfold compileFile.
  destruct (HasSuffix inputPath (str ".tkm")); cbn [negb];
    [|intros E; injection E as <- <-; effects_done].
  cbn [os attempt].
  destruct (ReadFile (os w) inputPath) as [src|msg] eqn:RF;
    [|intros E; injection E as <- <-; effects_done].
  unfold Compile.
  destruct (tokenize src) as [toks|e| |] eqn:T; cbn [bind]; try discriminate;
    [|intros E; injection E as <- <-; effects_done].
  destruct (compiler_Compile toks) as [output|msg] eqn:C;
    [|intros E; injection E as <- <-; effects_done].
  destruct (PrintOnly opts || ToStdout opts).
  { intros E; injection E as <- <-. effects_done.
    exists src, toks, output. auto. }
  destruct (WriteFile _ _ _) as [o [msg|]];
    [intros E; injection E as <- <-; effects_done|].
  destruct (negb (Quiet opts)); intros E; injection E as <- <-;
    effects_done.
Qed.

(** X13: a lexical error, from the lexer to the exit status.  When the
    lexer rejects the text of a [.tkm] file, [compileFile] returns the
    lexer's message behind the path, and the message begins with the line
    of the error; nothing is printed or written, whatever the stages after
    the lexer would do.  The compile command then prints that message behind
    [error: ] on standard error and exits with status 1, without compiling
    the files after it.  A panic of the lexer is not recovered: the command
    panics with it. *)
Theorem lexical_error_ends_compile :
  forall file later opts w src,
    HasSuffix file (str ".tkm") = true ->
    ReadFile (os w) file = Success src ->
    match tokenize src with
    | Err e =>
        compile_file file opts w
        = Ok (attempt file w, Some (file ++ str ": " ++ Error e)) /\
        compile_files (file :: later) opts w
        = Ok (eprint (str "error: " ++ file ++ str ": " ++ Error e
                        ++ [newline]) (attempt file w), Exits 1) /\
        exists tail,
          Error e = str "line " ++ fmt_d (err_line e) ++ str ": " ++ tail
    | Panic =>
        compile_file file opts w = Panic /\
        compile_files (file :: later) opts w = Panic
    | _ => True
    end.
Proof.
  intros file later opts w src S RF.
  assert (CF : compile_file file opts w =
               (r <- Compile compiler_Compile src ;;
                match r with
                | Failure err => Ok (attempt file w, Some (file ++ str ": " ++ err))
                | Success output =>
                    if PrintOnly opts || ToStdout opts
                    then Ok (print output (attempt file w), None)
                    else
                      let outputPath :=
                        if eqs (OutputFile opts) []
                        then TrimSuffix file (str ".tkm") ++ str ".lua"
                        else OutputFile opts in
                      match WriteFile (os (attempt file w)) outputPath output with
                      | (o, Some err) =>
                          Ok (set_os o (attempt file w),
                              Some (str "cannot write '" ++ outputPath
                                      ++ str "': " ++ err))
                      | (o, None) =>
                          if negb (Quiet opts)
                          then Ok (print (check_mark ++ str " " ++ file
                                            ++ str " " ++ arrow ++ str " "
                                            ++ outputPath ++ [newline])
                                     (set_os o (attempt file w)), None)
                          else Ok (set_os o (attempt file w), None)
                      end
                end)).
  { unfold compileFile. rewrite S. cbn [negb os attempt]. rewrite RF.
    reflexivity. }
  cbn [compile_each]. rewrite CF. unfold Compile.
  destruct (tokenize src) as [toks|e| |]; cbn [bind]; auto.
  split; [reflexivity|]. split.
  - rewrite <- !app_assoc. reflexivity.
  - apply Error_names_line.
Qed.

Lemma expand_globs_all o : forall files acc,
  (forall p, In p files -> exists ms, Glob o p = Success ms) ->
  expand_globs OS Glob o files acc
  = Success (acc ++ flat_map (matches_or_literal Glob o) files).
Proof.
  induction files as [|p files IH]; intros acc G.
  - simpl. rewrite app_nil_r. reflexivity.
  - cbn [expand_globs flat_map]. unfold matches_or_literal at 1.
    destruct (G p (or_introl eq_refl)) as (ms & ->).
    destruct ms as [|m ms]; rewrite IH by (intros q I; apply G; right; exact I);
      rewrite <- app_assoc; reflexivity.
Qed.

Lemma expand_globs_bad o err p post : forall pre acc,
  (forall q, In q pre -> exists ms, Glob o q = Success ms) ->
  Glob o p = Failure err ->
  expand_globs OS Glob o (pre ++ p :: post) acc
  = Failure (str "error: invalid file pattern '" ++ p ++ str "': " ++ err).
Proof.
  induction pre as [|q pre IH]; intros acc G B.
  - cbn [app expand_globs]. rewrite B. reflexivity.
  - cbn [app expand_globs].
    destruct (G q (or_introl eq_refl)) as (ms & ->).
    destruct ms as [|m ms]; apply IH; auto; intros q' I; apply G; right;
      exact I.
Qed.

(** X14: file patterns.  For arguments that are all files, the compile
    command expands every pattern before it compiles anything: a pattern
    stands for its matches, in the order [Glob] gives them, and for itself
    when nothing matches.  The files are then compiled in that order with
    the default options.  If [Glob] rejects a pattern, the command ends
    with the message naming that pattern and status 1, and no file has been
    compiled, not even the matches of the patterns before it. *)
Theorem handleCompile_expands_patterns :
  (forall args w,
      args <> [] -> Forall (fun a => dashed a = false) args ->
      (forall p, In p args -> exists ms, Glob (os w) p = Success ms) ->
      handle_compile args w
      = compile_files (flat_map (matches_or_literal Glob (os w)) args)
          (mkOptions [] false false false) w) /\
  (forall pre p post w err,
      Forall (fun a => dashed a = false) (pre ++ p :: post) ->
      (forall q, In q pre -> exists ms, Glob (os w) q = Success ms) ->
      Glob (os w) p = Failure err ->
      handle_compile (pre ++ p :: post) w
      = Ok (eprint (str "error: invalid file pattern '" ++ p ++ str "': "
                      ++ err ++ [newline]) w, Exits 1)).
Proof.
  split.
  - intros args w N U G. unfold handleCompile.
    rewrite (parseCompileOptions_files_only args [] _ U). cbn [app].
    destruct args as [|a args]; [contradiction|].
    rewrite (expand_globs_all (os w) (a :: args) [] G). reflexivity.
  - intros pre p post w err U G B. unfold handleCompile.
    rewrite (parseCompileOptions_files_only _ [] _ U). cbn [app].
    destruct (pre ++ p :: post) as [|a args] eqn:A;
      [destruct pre; discriminate A|].
    rewrite <- A. rewrite (expand_globs_bad (os w) err p post pre [] G B).
    unfold fatal. rewrite <- !app_assoc. reflexivity.
Qed.

End CompileFacts.

Lemma compileFile_effects_witness :
  stderr (mkWorld tt (str "out") [] [str "a.tkm"])
  = stderr (mkWorld tt [] [] []) /\
  (@None (list ascii) <> None ->
   stdout (mkWorld tt (str "out") [] [str "a.tkm"])
   = stdout (mkWorld tt [] [] [])) /\
  (PrintOnly (mkOptions (str "b.lua") true false false)
   || ToStdout (mkOptions (str "b.lua") true false false) = true ->
   os (mkWorld tt (str "out") [] [str "a.tkm"]) = os (mkWorld tt [] [] []) /\
   (@None (list ascii) = None ->
    exists src tokens output,
      Success (str "x") = Success src /\
      tokenize src = Ok tokens /\
      Success (str "out") = Success output /\
      stdout (mkWorld tt (str "out") [] [str "a.tkm"])
      = stdout (mkWorld tt [] [] []) ++ output)) /\
  (HasSuffix (str "a.tkm") (str ".tkm") = false ->
   os (mkWorld tt (str "out") [] [str "a.tkm"]) = os (mkWorld tt [] [] []) /\
   None = Some (str "'" ++ str "a.tkm" ++ str "' is not a .tkm file")).
Proof.
  apply (compileFile_effects
           (fun _ _ => Success (str "x")) (fun o _ _ => (o, None))
           (fun _ => Success (str "out"))
           (str "a.tkm") (mkOptions (str "b.lua") true false false)
           (mkWorld tt [] [] [])).
  reflexivity.
Defined.

Lemma lexical_error_ends_compile_witness :
  compileFile unit (fun _ _ => Success (str "~")) (fun o _ _ => (o, None))
    (fun _ => Success []) (str "a.tkm") (mkOptions [] false false false)
    (mkWorld tt [] [] [])
  = Ok (mkWorld tt [] [] [str "a.tkm"],
        Some (str "a.tkm: line 1: unexpected character '~' (did you mean '~='?)")) /\
  compile_each unit (fun _ _ => Success (str "~")) (fun o _ _ => (o, None))
    (fun _ => Success []) [str "a.tkm"; str "b.tkm"]
    (mkOptions [] false false false) (mkWorld tt [] [] [])
  = Ok (mkWorld tt []
          (str "error: a.tkm: line 1: unexpected character '~' (did you mean '~='?)"
             ++ [newline])
          [str "a.tkm"], Exits 1) /\
  exists tail,
    Error (UnexpectedTilde 1) = str "line " ++ fmt_d 1 ++ str ": " ++ tail.
Proof.
  exact (lexical_error_ends_compile
           (fun _ _ => Success (str "~")) (fun o _ _ => (o, None))
           (fun _ => Success [])
           (str "a.tkm") [str "b.tkm"] (mkOptions [] false false false)
           (mkWorld tt [] [] []) (str "~") eq_refl eq_refl).
Defined.

Lemma handleCompile_expands_patterns_witness :
  handleCompile unit (fun _ _ => Failure []) (fun o _ _ => (o, None))
    (fun _ p => if eqs p (str "*.tkm")
                then Success [str "a.tkm"; str "b.tkm"] else Success [])
    (fun _ => Success [])
    [str "*.tkm"; str "c.tkm"] (mkWorld tt [] [] [])
  = compile_each unit (fun _ _ => Failure []) (fun o _ _ => (o, None))
      (fun _ => Success [])
      [str "a.tkm"; str "b.tkm"; str "c.tkm"]
      (mkOptions [] false false false) (mkWorld tt [] [] []) /\
  handleCompile unit (fun _ _ => Failure []) (fun o _ _ => (o, None))
    (fun _ p => if eqs p (str "[") then Failure (str "syntax error in pattern")
                else Success [])
    (fun _ => Success [])
    ([str "a.tkm"] ++ str "[" :: [str "b.tkm"]) (mkWorld tt [] [] [])
  = Ok (eprint (str "error: invalid file pattern '" ++ str "[" ++ str "': "
                  ++ str "syntax error in pattern" ++ [newline])
          (mkWorld tt [] [] []), Exits 1).
Proof.
  split.
  - apply (proj1 (handleCompile_expands_patterns
                    (fun _ _ => Failure []) (fun o _ _ => (o, None))
                    (fun _ p => if eqs p (str "*.tkm")
                                then Success [str "a.tkm"; str "b.tkm"]
                                else Success [])
                    (fun _ => Success []))
             [str "*.tkm"; str "c.tkm"] (mkWorld tt [] [] [])).
    + discriminate.
    + repeat constructor.
    + intros p _. cbv beta. destruct (eqs p (str "*.tkm")); eexists; reflexivity.
  - apply (proj2 (handleCompile_expands_patterns
                    (fun _ _ => Failure []) (fun o _ _ => (o, None))
                    (fun _ p => if eqs p (str "[")
                                then Failure (str "syntax error in pattern")
                                else Success [])
                    (fun _ => Success []))
             [str "a.tkm"] (str "[") [str "b.tkm"] (mkWorld tt [] [] [])).
    + repeat constructor.
    + intros q [<-|[]]. eexists. reflexivity.
    + reflexivity.
Defined.

(** * Columns *)

Lemma returns_bind {A B : Type} (Q1 : A -> Prop) (Q2 : B -> Prop)
    (m : outcome A) (k : A -> outcome B) :
  returns Q1 m -> (forall a, Q1 a -> returns Q2 (k a)) ->
  returns Q2 (bind m k).
Proof.
  intros H1 H2 b E. destruct m as [a| | |]; cbn [bind] in E; try discriminate E.
  exact (H2 a (H1 a eq_refl) b E).
Qed.

Lemma returns_Ok {A : Type} (Q : A -> Prop) (a : A) : Q a -> returns Q (Ok a).
Proof. intros H b E. injection E as <-. exact H. Qed.

Lemma returns_Err {A : Type} (Q : A -> Prop) e : returns Q (Err e).
Proof. intros b E. discriminate E. Qed.

Lemma same_line_refl l : same_line l l.
Proof. split; reflexivity. Qed.

Lemma same_line_trans l1 l2 l3 :
  same_line l1 l2 -> same_line l2 l3 -> same_line l1 l3.
Proof. unfold same_line. intros (A1 & B1) (A2 & B2). split; [congruence|lia]. Qed.

Lemma same_line_bump l0 l : same_line l0 l -> same_line l0 (bump l).
Proof. unfold same_line. simpl. intros (A & B). split; [exact A|lia]. Qed.

Lemma same_line_addTokenValue l0 l k v :
  same_line l0 l -> same_line l0 (addTokenValue k v l).
Proof. intros H. exact H. Qed.

Lemma advance_same_line l0 l :
  same_line l0 l ->
  returns (fun cl => same_line l0 (snd cl) /\ rest (snd cl) = tl (rest l))
          (advance l).
Proof.
  intros H [c l'] E. rewrite advance_rest in E.
  destruct (rest l) as [|c0 r] eqn:R; [discriminate E|].
  injection E as <- <-. cbn [snd]. split; [apply same_line_bump; exact H|].
  rewrite rest_bump, R. reflexivity.
Qed.

Lemma while_advance_same_line cond l0 : forall fuel l,
  same_line l0 l ->
  returns (fun l' => same_line l0 l') (while_advance cond fuel l).
Proof.
  induction fuel as [|fuel IH]; intros l H; [intros a E; discriminate E|].
  cbn [while_advance]. destruct (cond l); [|apply returns_Ok; exact H].
  eapply returns_bind; [apply (advance_same_line l0 l H)|].
  intros [c l1] (H1 & _). cbn [snd] in H1. apply IH. exact H1.
Qed.

Lemma string_same_line q l0 l :
  same_line l0 l -> returns (fun l' => same_line l0 l') (string_ q l).
Proof.
  intros H. unfold string_.
  assert (L : forall fuel l, same_line l0 l ->
              returns (fun l' => same_line l0 l') (string_loop fuel q l)).
  { induction fuel as [|fuel IH]; intros l1 H1; [intros a E; discriminate E|].
    cbn [string_loop].
    destruct (negb (peek l1 =? q) && negb (isAtEnd l1));
      [|apply returns_Ok; exact H1].
    destruct (peek l1 =? newline); [apply returns_Err|].
    eapply returns_bind with (Q1 := fun l' => same_line l0 l').
    - destruct (peek l1 =? backslash); [|apply returns_Ok; exact H1].
      eapply returns_bind; [apply (advance_same_line l0 l1 H1)|].
      intros [c l2] (H2 & _). apply returns_Ok. exact H2.
    - intros l2 H2.
      eapply returns_bind; [apply (advance_same_line l0 l2 H2)|].
      intros [c l3] (H3 & _). apply IH. exact H3. }
  eapply returns_bind; [apply L; exact H|].
  intros l1 H1. destruct (isAtEnd l1); [apply returns_Err|].
  eapply returns_bind; [apply (advance_same_line l0 l1 H1)|].
  intros [c l2] (H2 & _). apply returns_Ok. exact H2.
Qed.

Lemma number_same_line l0 l :
  same_line l0 l -> returns (fun l' => same_line l0 l') (number l).
Proof.
  intros H.
  assert (W : forall cond l1, same_line l0 l1 ->
              returns (fun l' => same_line l0 l')
                      (while_advance cond (fuel_of l1) l1)).
  { intros cond l1 H1. apply while_advance_same_line. exact H1. }
  assert (BASED : forall cond,
             returns (fun l' => same_line l0 l')
               ('(_, l1) <- advance l ;;
                l2 <- while_advance cond (fuel_of l1) l1 ;;
                Ok (addToken TOKEN_NUMBER l2))).
  { intros cond.
    eapply returns_bind; [apply (advance_same_line l0 l H)|].
    intros [c l1] (H1 & _).
    eapply returns_bind; [apply W; exact H1|].
    intros l2 H2. apply returns_Ok. exact H2. }
  assert (DEC : returns (fun l' => same_line l0 l') (number_decimal l)).
  { unfold number_decimal.
    eapply returns_bind; [apply W; exact H|]. intros l1 H1.
    eapply returns_bind with (Q1 := fun l' => same_line l0 l').
    - destruct ((peek l1 =? ".") && isDigit (peekNext l1));
        [|apply returns_Ok; exact H1].
      eapply returns_bind; [apply (advance_same_line l0 l1 H1)|].
      intros [c l2] (H2 & _). apply W. exact H2.
    - intros l2 H2.
      eapply returns_bind with (Q1 := fun l' => same_line l0 l').
      + destruct ((peek l2 =? "e") || (peek l2 =? "E"));
          [|apply returns_Ok; exact H2].
        eapply returns_bind; [apply (advance_same_line l0 l2 H2)|].
        intros [c l3] (H3 & _). cbn [snd] in H3.
        eapply returns_bind with (Q1 := fun l' => same_line l0 l').
        * destruct ((peek l3 =? "+") || (peek l3 =? "-"));
            [|apply returns_Ok; exact H3].
          eapply returns_bind; [apply (advance_same_line l0 l3 H3)|].
          intros [c4 l4] (H4 & _). apply returns_Ok. exact H4.
        * intros l4 H4. apply W. exact H4.
      + intros l3 H3. apply returns_Ok. exact H3. }
  unfold number. destruct (nth_error (source l) (start l));
    [|intros a E; discriminate E].
  destruct ((a =? "0") && (current l <? length (source l))%nat); [|exact DEC].
  destruct ((peek l =? "x") || (peek l =? "X")); [apply BASED|].
  destruct ((peek l =? "b") || (peek l =? "B")); [apply BASED|].
  destruct ((peek l =? "o") || (peek l =? "O")); [apply BASED|].
  exact DEC.
Qed.

Lemma identifier_same_line l0 l :
  same_line l0 l -> returns (fun l' => same_line l0 l') (identifier l).
Proof.
  intros H. unfold identifier.
  eapply returns_bind; [apply while_advance_same_line; exact H|].
  intros l1 H1. apply returns_Ok. exact H1.
Qed.

Lemma match_same_line l0 l expected :
  same_line l0 l ->
  same_line l0 (snd (match_ expected l)) /\
  (forall x, In x (rest (snd (match_ expected l))) -> In x (rest l)).
Proof.
  intros H. rewrite match_rest.
  destruct (rest l) as [|c r] eqn:R; cbn [snd].
  - split; [exact H|]. rewrite R. auto.
  - destruct (c =? expected); cbn [snd].
    + split; [apply same_line_bump; exact H|].
      rewrite rest_bump, R. cbn [tl]. intros x I. right. exact I.
    + split; [exact H|]. rewrite R. auto.
Qed.

Lemma match_add_same_line l0 l expected yes no :
  same_line l0 l ->
  returns (fun l' => same_line l0 l') (match_add expected yes no l).
Proof.
  intros H. unfold match_add.
  destruct (match_same_line l0 l expected H) as (M & _).
  destruct (match_ expected l) as [m l1]. cbn [snd] in M.
  destruct m; apply returns_Ok; exact M.
Qed.

Lemma comment_same_line l0 l :
  same_line l0 l -> ~ In "[" (rest l) ->
  returns (fun l' => same_line l0 l') (comment l).
Proof.
  intros H N. unfold comment. rewrite peek_rest.
  destruct (rest l) as [|c r] eqn:R; cbn [hd].
  - change (zero =? "[") with false. cbn [andb].
    apply while_advance_same_line. exact H.
  - destruct (c =? "[") eqn:C.
    + apply Ascii.eqb_eq in C. subst c. exfalso. apply N. left. reflexivity.
    + cbn [andb]. apply while_advance_same_line. exact H.
Qed.

Ltac col_match l0 :=
  match goal with
  | K : same_line l0 ?x, I : (forall y, In y (rest ?x) -> In y (rest l0))
    |- context [match_ ?e ?x] =>
      let M := fresh "M" in let J := fresh "J" in
      let m := fresh "m" in let l := fresh "l" in
      destruct (match_same_line l0 x e K) as (M & J);
      destruct (match_ e x) as [m l]; cbn [snd] in M, J;
      assert (forall y, In y (rest l) -> In y (rest l0))
        by (intros y F; apply I, J; exact F);
      clear J; destruct m
  end.

Ltac col_leaf :=
  first
    [ solve [ apply returns_Err ]
    | solve [ apply returns_Ok; first [eassumption
                                      |apply same_line_addTokenValue; eassumption] ]
    | solve [ apply match_add_same_line; eassumption ]
    | solve [ apply string_same_line; eassumption ]
    | solve [ apply number_same_line; eassumption ]
    | solve [ apply identifier_same_line; eassumption ]
    | solve [ apply comment_same_line; [eassumption|]; eauto ] ].

Lemma scanToken_same_line l0 c r :
  rest l0 = c :: r -> c <> newline ->
  ~ In "[" (rest l0) -> ~ In backquote (rest l0) ->
  returns (fun l' => same_line l0 l') (scanToken l0).
Proof.
  intros R NL NB NQ. unfold scanToken. rewrite advance_rest, R. cbn [bind].
  set (l1 := bump l0).
  assert (K1 : same_line l0 l1) by apply same_line_bump, same_line_refl.
  assert (I1 : forall y, In y (rest l1) -> In y (rest l0)).
  { unfold l1. rewrite rest_bump, R. cbn [tl]. intros y F. right. exact F. }
  assert (C1 : (c =? "[") = false).
  { apply Ascii.eqb_neq. intros ->. apply NB. rewrite R. left. reflexivity. }
  assert (C2 : (c =? backquote) = false).
  { apply Ascii.eqb_neq. intros ->. apply NQ. rewrite R. left. reflexivity. }
  assert (C3 : (c =? newline) = false) by (apply Ascii.eqb_neq; exact NL).
  rewrite C1, C2, C3.
  repeat match goal with
         | |- returns _ (if ?b then _ else _) => destruct b eqn:?
         | |- returns _ (match_add _ _ _ _) => fail 1
         | |- returns _ (let '(_, _) := match_ _ _ in _) => col_match l0
         end;
    col_leaf.
Qed.

Lemma scan_step_same_line l c r l' :
  rest l = c :: r -> c <> newline ->
  ~ In "[" (rest l) -> ~ In backquote (rest l) ->
  scan_step l = Ok l' -> same_line l l'.
Proof.
  intros R NL NB NQ E. unfold scan_step in E.
  apply (scanToken_same_line (set_start l (current l) (column l)) c r)
    in E; auto; rewrite rest_set_start; auto.
Qed.

Lemma one_line_step src l c r l' :
  ~ In newline src -> ~ In "[" src -> ~ In backquote src ->
  one_line src l -> rest l = c :: r -> scan_step l = Ok l' ->
  one_line src l' /\ length (rest l') < length (rest l).
Proof.
  intros NL NB NQ (S0 & L0 & C0 & W0 & P0) R E.
  assert (IN : forall x, In x (rest l) -> In x src).
  { intros x I. rewrite <- S0. apply in_rest. exact I. }
  assert (K : same_line l l').
  { apply (scan_step_same_line l c r); auto.
    intros ->. apply NL, IN. rewrite R. left. reflexivity. }
  pose proof (scan_step_post l c r R) as T. rewrite E in T. cbn [post] in T.
  destruct K as (K1 & K2).
  destruct T as (S1 & n & C1 & (N1 & N2) & _ & T).
  assert (LR : length (rest l) = length src - current l).
  { unfold rest. rewrite length_skipn, S0. reflexivity. }
  assert (LR' : length (rest l') = length src - current l').
  { unfold rest. rewrite length_skipn, S1, S0. reflexivity. }
  split; [|lia].
  unfold one_line. split; [congruence|]. split; [congruence|].
  split; [lia|]. split; [lia|].
  destruct T as [T|(k & _ & T)]; rewrite T; [exact P0|].
  apply Forall_app. split; [exact P0|]. constructor; [|constructor].
  exists (firstn (current l) src), (skipn n (rest l)). cbn [Value Line Column].
  split; [|split].
  - rewrite firstn_skipn. unfold rest. rewrite S0, firstn_skipn. reflexivity.
  - congruence.
  - rewrite length_firstn, C0. lia.
Qed.

Lemma one_line_loop src :
  ~ In newline src -> ~ In "[" src -> ~ In backquote src ->
  forall fuel l l',
    one_line src l -> Tokenize_loop fuel l = Ok l' ->
    one_line src l' /\ rest l' = [].
Proof.
  intros NL NB NQ. induction fuel as [|fuel IH]; intros l l' X E;
    [discriminate E|].
  cbn [Tokenize_loop] in E. rewrite isAtEnd_rest in E.
  destruct (rest l) as [|c r] eqn:R; cbn [negb] in E.
  - injection E as <-. auto.
  - destruct (scan_step l) as [l1| | |] eqn:S1; cbn [bind] in E;
      try discriminate E.
    destruct (one_line_step src l c r l1 NL NB NQ X R S1) as (X1 & _).
    apply (IH l1 l' X1 E).
Qed.

(** X15: columns.  While the text still to be read has no opening bracket
    and no back-quote, a scan step keeps the column in step with the cursor:
    at a newline it moves to the next line and column 1, and at any other
    byte it stays on the line and adds to the column the number of bytes it
    read.  For a source of one line without those two characters, every
    token [Tokenize] returns lies on line 1 at the column that is the
    1-based byte offset of its text, and the final token has the column one
    past the end of the source. *)
Theorem columns_follow_the_cursor :
  (forall l c r l',
      rest l = c :: r ->
      ~ In "[" (rest l) -> ~ In backquote (rest l) ->
      scan_step l = Ok l' ->
      if c =? newline
      then line l' = S (line l) /\ column l' = 1 /\ current l' = S (current l)
      else line l' = line l /\
           column l' + current l = column l + current l') /\
  (forall src toks,
      ~ In newline src -> ~ In "[" src -> ~ In backquote src ->
      tokenize src = Ok toks ->
      exists body,
        toks = body ++ [mkToken TOKEN_EOF [] 1 (1 + length src)] /\
        Forall (placed src) body).
Proof.
  split.
  - intros l c r l' R NB NQ E. destruct (c =? newline) eqn:C.
    + apply Ascii.eqb_eq in C. subst c. unfold scan_step, scanToken in E.
      rewrite advance_rest, rest_set_start, R in E. cbn [bind] in E.
      cbn [Ascii.eqb Bool.eqb andb orb] in E.
      injection E as <-. simpl. auto.
    + apply Ascii.eqb_neq in C.
      exact (scan_step_same_line l c r l' R C NB NQ E).
  - intros src toks NL NB NQ E. unfold tokenize, Tokenize in E.
    destruct (Tokenize_loop (fuel_of (NewLexer src)) (NewLexer src))
      as [l| | |] eqn:L; cbn [bind] in E; try discriminate E.
    injection E as <-.
    assert (X0 : one_line src (NewLexer src)).
    { unfold one_line. simpl. repeat split; auto. lia. }
    destruct (one_line_loop src NL NB NQ _ _ _ X0 L)
      as ((S1 & L1 & C1 & W1 & P1) & R1).
    exists (tokens l). split; [|exact P1].
    assert (current l = length src).
    { pose proof (length_skipn (current l) (source l)) as A.
      fold (rest l) in A. rewrite R1, S1 in A. simpl in A. lia. }
    rewrite L1, C1. congruence.
Qed.

Lemma columns_follow_the_cursor_witness :
  exists body,
    [mkToken TOKEN_IDENT (str "x") 1 1; mkToken TOKEN_PLUS_ASSIGN (str "+=") 1 3;
     mkToken TOKEN_NUMBER (str "10") 1 6; mkToken TOKEN_EOF [] 1 8]
    = body ++ [mkToken TOKEN_EOF [] 1 (1 + length (str "x += 10"))] /\
    Forall (placed (str "x += 10")) body.
Proof.
  apply (proj2 columns_follow_the_cursor (str "x += 10")).
  - intros H. repeat (destruct H as [H|H]; [discriminate H|]). exact H.
  - intros H. repeat (destruct H as [H|H]; [discriminate H|]). exact H.
  - intros H. repeat (destruct H as [H|H]; [discriminate H|]). exact H.
  - reflexivity.
Defined.

Lemma count_eq_same_line l0 : forall fuel k l,
  same_line l0 l ->
  returns (fun kl => same_line l0 (snd kl)) (count_eq fuel k l).
Proof.
  induction fuel as [|fuel IH]; intros k l H; [intros a E; discriminate E|].
  cbn [count_eq]. destruct (peek l =? "="); [|apply returns_Ok; exact H].
  eapply returns_bind; [apply (advance_same_line l0 l H)|].
  intros [c l1] (H1 & _). apply IH. exact H1.
Qed.

(** X16: a bracket that opens no long string.  At an opening bracket
    followed by [n] equals signs and then by neither a bracket nor an equals
    sign, the step adds the token of the bracket alone and goes back to the
    byte after it, so that the equals signs are read again as operators.
    The column is not taken back: it stays ahead of the cursor by [n], for
    the rest of the line. *)
Theorem bracket_fallback_keeps_column :
  forall l n r,
    rest l = "[" :: repeat "=" n ++ r ->
    hd zero r <> "=" -> hd zero r <> "[" ->
    exists l',
      scan_step l = Ok l' /\
      tokens l' = tokens l ++
        [mkToken TOKEN_LBRACKET ["["] (line l) (column l)] /\
      rest l' = repeat "=" n ++ r /\ line l' = line l /\
      current l' = current l + 1 /\ column l' = column l + 1 + n.
Proof.
  intros l n r R N1 N2. unfold scan_step.
  set (l0 := set_start l (current l) (column l)).
  assert (R0 : rest l0 = "[" :: repeat "=" n ++ r)
    by (unfold l0; rewrite rest_set_start; exact R).
  rewrite (scanToken_bracket l0 _ R0).
  assert (R1 : rest (bump l0) = repeat "=" n ++ r)
    by (rewrite rest_bump, R0; reflexivity).
  assert (V : slice (source l) (current l) (current l + 1) = ["["])
    by (rewrite slice_rest, R; reflexivity).
  rewrite peek_rest, R1.
  destruct n as [|n].
  - cbn [repeat app] in *.
    rewrite (eqb_neq_false _ _ N1), (eqb_neq_false _ _ N2). cbn [orb].
    eexists. split; [reflexivity|].
    unfold addToken, addTokenValue. simpl.
    replace (S (current l)) with (current l + 1) by lia. rewrite V.
    repeat split; auto; lia.
  - cbn [repeat app hd]. change ("=" =? "=") with true. rewrite orb_true_r.
    unfold multilineString.
    destruct (count_eq_exact (S n) (fuel_of (bump l0)) 0 (bump l0) r)
      as (l2 & E2 & T2 & L2 & R2); auto.
    { pose proof (fuel_of_rest (bump l0)) as F.
      rewrite R1, length_app, repeat_length in F. lia. }
    pose proof (count_eq_same_line (bump l0) (fuel_of (bump l0)) 0 (bump l0)
                  (same_line_refl _) _ E2) as (_ & K2).
    cbn [snd] in K2.
    rewrite E2. cbn [bind]. rewrite peek_rest, R2.
    rewrite (eqb_neq_false _ _ N2). cbn [negb].
    destruct T2 as (S2 & A2 & B2 & D2 & C2).
    simpl in S2, A2, B2, D2, C2, K2.
    eexists. split; [reflexivity|].
    unfold addToken, addTokenValue. simpl.
    rewrite A2, S2, B2, D2, L2, V. simpl.
    repeat split; auto; try lia.
    unfold rest. simpl. rewrite S2.
    replace (current l + 1) with (S (current l)) by lia.
    change (rest (bump l) = "=" :: repeat "=" n ++ r).
    rewrite rest_bump, R. reflexivity.
Qed.

Lemma bracket_fallback_keeps_column_witness :
  exists l',
    scan_step (NewLexer (str "[== x")) = Ok l' /\
    tokens l' = [mkToken TOKEN_LBRACKET ["["] 1 1] /\
    rest l' = repeat "=" 2 ++ str " x" /\ line l' = 1 /\
    current l' = 0 + 1 /\ column l' = 1 + 1 + 2.
Proof.
  apply (bracket_fallback_keeps_column (NewLexer (str "[== x")) 2 (str " x")).
  - reflexivity.
  - discriminate.
  - discriminate.
Defined.

(** * Operators *)

Lemma operators_longest_first : longest_first operators.
Proof. cbv. repeat constructor. Qed.

Lemma find_longest {A : Type} (f : list ascii * A -> bool) :
  forall t e e',
    longest_first t -> find f t = Some e -> In e' t -> f e' = true ->
    length (fst e') <= length (fst e).
Proof.
  induction t as [|a t IH]; intros e e' L F I T; [destruct I|].
  cbn [find] in F. destruct L as (L1 & L2). destruct (f a) eqn:Fa.
  - injection F as <-. destruct I as [<-|I]; [lia|].
    rewrite Forall_forall in L1. apply L1. exact I.
  - destruct I as [<-|I]; [congruence|]. eapply IH; eauto.
Qed.

Lemma op_token m l k :
  let l3 := bumps m (set_start l (current l) (column l)) in
  tokens (addToken k l3) =
    tokens l ++ [mkToken k (firstn m (rest l)) (line l) (column l)] /\
  rest (addToken k l3) = skipn m (rest l) /\
  line (addToken k l3) = line l.
Proof.
  intros l3.
  destruct (scan_to_bumps m (set_start l (current l) (column l))) as (T & L).
  destruct (addToken_scan k m l l3 T) as (TK & RS).
  split; [rewrite TK; unfold l3; rewrite L; reflexivity|].
  split; [exact RS|exact L].
Qed.

Lemma operator_step l w k :
  operator_at (rest l) = Some (w, k) ->
  starts_with (rest l) (str "--") = false ->
  (starts_with (rest l) (str ".") = true ->
   isDigit (hd zero (tl (rest l))) = false) ->
  (starts_with (rest l) (str "[") = true ->
   (hd zero (tl (rest l)) =? "[") = false /\
   (hd zero (tl (rest l)) =? "=") = false) ->
  exists l',
    scan_step l = Ok l' /\
    tokens l' = tokens l ++ [mkToken k w (line l) (column l)] /\
    rest l' = skipn (length w) (rest l) /\ line l' = line l.
Proof.
  intros H NC ND NB. unfold scan_step, scanToken.
  rewrite advance_rest, rest_set_start.
  destruct (rest l) as [|c r] eqn:R; [discriminate H|].
  cbn [bind].
  destruct c as [[] [] [] [] [] [] [] []];
    cbn [operator_at operators find starts_with fst str list_ascii_of_string
         Ascii.eqb Bool.eqb andb] in H;
    try discriminate H.
  all: cbn [Ascii.eqb Bool.eqb andb orb].
  all: repeat (first
         [ discriminate H
         | match type of H with
           | context [match ?x with [] => _ | _ :: _ => _ end] =>
               is_var x; destruct x as [|? ?]
           | context [(?a =? ?b) && _] => destruct (a =? b) eqn:?
           end; cbn [andb] in H ]).
  all: injection H as <- <-.
  all: repeat match goal with
              | E : (?a =? ?b) = true |- _ =>
                  apply Ascii.eqb_eq in E; subst a
              end.
  all: cbn [starts_with str list_ascii_of_string Ascii.eqb Bool.eqb andb
            hd tl] in NC, ND, NB;
       rewrite ?andb_true_r in NC.
  all: try specialize (ND eq_refl).
  all: try (destruct (NB eq_refl) as (NB1 & NB2)).
  all: unfold match_add.
  all: repeat (progress
         (rewrite ?match_rest, ?peek_rest, ?rest_bump, ?rest_set_start, ?R;
          cbn [tl hd fst snd Ascii.eqb Bool.eqb andb orb negb];
          change (isDigit zero) with false;
          repeat match goal with
                 | E : (?a =? ?b) = false |- context [?a =? ?b] => rewrite E
                 | E : isDigit ?a = false |- context [isDigit ?a] => rewrite E
                 end)).
  all: eexists; (split; [reflexivity|]).
  all: match goal with
       | |- tokens (addToken ?K _) = _ /\ _ =>
           first [ pose proof (op_token 1 l K) as P; rewrite R in P; exact P
                 | pose proof (op_token 2 l K) as P; rewrite R in P; exact P
                 | pose proof (op_token 3 l K) as P; rewrite R in P; exact P ]
       end.
Qed.

(** X17: operators.  Where the text to be read begins with an operator or
    a punctuation mark of the table, the scan step adds the token of the
    first entry of the table that the text begins with, which is the longest
    such entry, with that text as its value.  Three beginnings are read
    otherwise and are left out here: two dashes (a comment), a dot before a
    digit (a number), and a bracket before a bracket or an equals sign (a
    long string). *)
Theorem operators_read_by_longest_match :
  (forall l w k,
      operator_at (rest l) = Some (w, k) ->
      starts_with (rest l) (str "--") = false ->
      (starts_with (rest l) (str ".") = true ->
       isDigit (hd zero (tl (rest l))) = false) ->
      (starts_with (rest l) (str "[") = true ->
       (hd zero (tl (rest l)) =? "[") = false /\
       (hd zero (tl (rest l)) =? "=") = false) ->
      exists l',
        scan_step l = Ok l' /\
        tokens l' = tokens l ++ [mkToken k w (line l) (column l)] /\
        rest l' = skipn (length w) (rest l) /\ line l' = line l) /\
  (forall s w k,
      operator_at s = Some (w, k) ->
      starts_with s w = true /\
      forall w' k',
        In (w', k') operators -> starts_with s w' = true ->
        length w' <= length w).
Proof.
  split; [exact operator_step|].
  intros s w k H. split.
  - apply find_some in H. apply H.
  - intros w' k' I S.
    apply (find_longest (fun e => starts_with s (fst e)) operators
             (w, k) (w', k') operators_longest_first H I S).
Qed.

Lemma operators_read_by_longest_match_witness :
  exists l',
    scan_step (NewLexer (str "..=x")) = Ok l' /\
    tokens l' = [] ++ [mkToken TOKEN_DOTDOT_ASSIGN (str "..=") 1 1] /\
    rest l' = skipn (length (str "..=")) (str "..=x") /\ line l' = 1.
Proof.
  apply (proj1 operators_read_by_longest_match (NewLexer (str "..=x"))).
  - reflexivity.
  - reflexivity.
  - intros _. reflexivity.
  - intros E. discriminate E.
Defined.

(** * Bytes that begin nothing *)

Lemma scanToken_unknown l c r :
  rest l = c :: r -> known_byte c = false ->
  scanToken l = Err (UnexpectedChar (line l) c).
Proof.
  intros R K. unfold scanToken. rewrite advance_rest, R. cbn [bind].
  destruct c as [[] [] [] [] [] [] [] []];
    try (vm_compute in K; discriminate K); reflexivity.
Qed.

(** X18: bytes that begin nothing.  A byte that is not a letter, a digit,
    an underscore, white space, a quote or one of the operator and
    punctuation characters ends the scan with the error naming the byte and
    the current line, which is what [Tokenize] returns: the tokens read so
    far are not returned.  Every byte of 128 or more is such a byte, so a
    character outside ASCII is refused at its first byte when it stands
    outside strings and comments, and the message shows that byte as a
    character of two bytes. *)
Theorem unknown_byte_rejected :
  (forall l c r,
      rest l = c :: r -> known_byte c = false ->
      scan_step l = Err (UnexpectedChar (line l) c) /\
      Tokenize l = Err (UnexpectedChar (line l) c)) /\
  (forall c,
      (128 <= N_of_ascii c)%N ->
      known_byte c = false /\ length (fmt_c c) = 2).
Proof.
  split.
  - intros l c r R K.
    assert (E : scan_step l = Err (UnexpectedChar (line l) c)).
    { unfold scan_step.
      rewrite (scanToken_unknown _ c r); [reflexivity| |exact K].
      rewrite rest_set_start. exact R. }
    split; [exact E|]. exact (Tokenize_Err l c r _ R E).
  - intros c H. destruct c as [[] [] [] [] [] [] [] []];
      try (vm_compute in H; contradiction H; reflexivity);
      split; reflexivity.
Qed.

Lemma unknown_byte_rejected_witness :
  scan_step (NewLexer (str "@x")) = Err (UnexpectedChar 1 "@") /\
  Tokenize (NewLexer (str "@x")) = Err (UnexpectedChar 1 "@").
Proof.
  exact (proj1 unknown_byte_rejected (NewLexer (str "@x")) "@" (str "x")
           eq_refl eq_refl).
Defined.

(** * Line comments *)

(** X19: a line comment.  Two dashes not followed by an opening bracket
    start a comment that runs up to, and not including, the next newline, or
    to the end of the input: the step adds no token, stays on the line, and
    leaves the newline to the next step.  The column has moved with the
    cursor. *)
Theorem line_comment_skipped :
  forall l r,
    rest l = str "--" ++ r -> hd zero r <> "[" ->
    exists l',
      scan_step l = Ok l' /\
      tokens l' = tokens l /\ line l' = line l /\
      rest l' = skipn (until_newline r) r /\
      ~ In newline (firstn (until_newline r) r) /\
      (rest l' = [] \/ hd zero (rest l') = newline) /\
      current l' = current l + 2 + until_newline r /\
      column l' = column l + 2 + until_newline r.
Proof.
  intros l r R H. unfold str in R. cbn [list_ascii_of_string app] in R.
  rewrite (scan_step_comment l _ R).
  set (l2 := bump (bump (set_start l (current l) (column l)))).
  assert (R2 : rest l2 = r).
  { unfold l2. rewrite !rest_bump, rest_set_start, R. reflexivity. }
  unfold comment. rewrite peek_rest, R2, (eqb_neq_false _ _ H). cbn [andb].
  destruct (skip_line_exact l2) as (l' & E' & T' & L').
  rewrite R2 in T'.
  pose proof (while_advance_same_line _ l2 (fuel_of l2) l2 (same_line_refl l2)
                l' E') as (_ & K).
  pose proof (scan_to_rest _ _ _ T') as R'. rewrite R2 in R'.
  destruct T' as (S' & A' & _ & _ & C').
  exists l'. split; [exact E'|].
  unfold l2 in A', C', K, L'. simpl in A', C', K, L'.
  split; [exact A'|]. split; [exact L'|]. split; [exact R'|].
  split; [apply until_newline_prefix|].
  split; [rewrite R'; apply until_newline_stop|].
  split; lia.
Qed.

Lemma line_comment_skipped_witness :
  exists l',
    scan_step (NewLexer (str "-- a" ++ [newline] ++ str "b")) = Ok l' /\
    tokens l' = [] /\ line l' = 1 /\
    rest l' = skipn (until_newline (str " a" ++ [newline] ++ str "b"))
                (str " a" ++ [newline] ++ str "b") /\
    ~ In newline (firstn (until_newline (str " a" ++ [newline] ++ str "b"))
                    (str " a" ++ [newline] ++ str "b")) /\
    (rest l' = [] \/ hd zero (rest l') = newline) /\
    current l' = 0 + 2 + until_newline (str " a" ++ [newline] ++ str "b") /\
    column l' = 1 + 2 + until_newline (str " a" ++ [newline] ++ str "b").
Proof.
  apply (line_comment_skipped (NewLexer (str "-- a" ++ [newline] ++ str "b"))
           (str " a" ++ [newline] ++ str "b")).
  - reflexivity.
  - discriminate.
Defined.

(** * Counting lines *)

Lemma in_skipn_in {A : Type} (x : A) n s : In x (skipn n s) -> In x s.
Proof.
  intros H. rewrite <- (firstn_skipn n s). apply in_or_app. right. exact H.
Qed.

Lemma counted_refl l : counted l l.
Proof. unfold counted. auto. Qed.

Lemma counted_in l0 l x : counted l0 l -> In x (rest l) -> In x (rest l0).
Proof.
  intros (S & _ & C & _) I. unfold rest in *. rewrite S in I.
  replace (current l) with ((current l - current l0) + current l0) in I by lia.
  rewrite <- skipn_skipn in I. apply in_skipn_in in I. exact I.
Qed.

Lemma counted_bump l0 l c r :
  counted l0 l -> rest l = c :: r -> c <> newline -> counted l0 (bump l).
Proof.
  intros (S & A & C & N) R H. unfold counted.
  rewrite rest_bump, R. cbn [tl]. rewrite R, newlines_cons in N.
  rewrite (eqb_neq_false _ _ H) in N. simpl in *. repeat split; auto; lia.
Qed.

Lemma counted_count_bump l0 l c r :
  counted l0 l -> rest l = c :: r -> counted l0 (bump (count_newline l)).
Proof.
  intros (S & A & C & N) R.
  destruct (scan_to_count_newline l) as (S1 & _ & A1 & _ & C1).
  unfold counted. rewrite rest_bump, rest_count_newline, R. cbn [tl].
  pose proof (count_newline_line l) as L. rewrite R in L, N. cbn [hd] in L.
  rewrite newlines_cons in N. simpl.
  split; [congruence|]. split; [congruence|]. split; [lia|].
  destruct (c =? newline); lia.
Qed.

Lemma counted_newline l0 l r col :
  counted l0 l -> rest l = newline :: r ->
  counted l0 (set_line_column (bump l) (S (line l)) col).
Proof.
  intros (S & A & C & N) R. unfold counted.
  rewrite rest_set_line_column, rest_bump, R. cbn [tl].
  rewrite R, newlines_cons in N. simpl in *. repeat split; auto; lia.
Qed.

Lemma counted_addTokenValue l0 l k v :
  counted l0 l -> counted l0 (addTokenValue k v l).
Proof. intros H. exact H. Qed.

Lemma returns_Panic {A : Type} (Q : A -> Prop) : returns Q Panic.
Proof. intros a E. discriminate E. Qed.

Lemma advance_counted l0 l :
  counted l0 l -> peek l <> newline ->
  returns (fun cl => counted l0 (snd cl) /\ line (snd cl) = line l)
          (advance l).
Proof.
  intros K P. rewrite advance_rest. rewrite peek_rest in P.
  destruct (rest l) as [|c r] eqn:R; [apply returns_Panic|].
  apply returns_Ok. cbn [snd]. split; [|reflexivity].
  apply (counted_bump l0 l c r K R P).
Qed.

Lemma test_not_newline (b : ascii -> bool) c :
  b c = true -> b newline = false -> c <> newline.
Proof. intros T F ->. congruence. Qed.

Lemma while_advance_counted cond l0 :
  (forall l, cond l = true -> peek l <> newline) ->
  forall fuel l,
    counted l0 l ->
    returns (fun l' => counted l0 l' /\ line l' = line l)
            (while_advance cond fuel l).
Proof.
  intros G. induction fuel as [|fuel IH]; intros l K;
    [intros a E; discriminate E|].
  cbn [while_advance]. destruct (cond l) eqn:C;
    [|apply returns_Ok; auto].
  eapply returns_bind; [apply (advance_counted l0 l K (G l C))|].
  intros [c l1] (K1 & L1). cbn [snd] in K1, L1.
  intros a E. apply IH in E; [|exact K1]. destruct E as (E1 & E2).
  split; [exact E1|congruence].
Qed.

Lemma count_eq_counted l0 : forall fuel k l,
  counted l0 l ->
  returns (fun kl => counted l0 (snd kl) /\ line (snd kl) = line l)
          (count_eq fuel k l).
Proof.
  induction fuel as [|fuel IH]; intros k l K; [intros a E; discriminate E|].
  cbn [count_eq]. destruct (peek l =? "=") eqn:C; [|apply returns_Ok; auto].
  eapply returns_bind.
  - apply (advance_counted l0 l K).
    apply (test_not_newline (fun c => c =? "=") _ C eq_refl).
  - intros [c l1] (K1 & L1). cbn [snd] in K1, L1.
    intros a E. apply IH in E; [|exact K1]. destruct E as (E1 & E2).
    split; [exact E1|congruence].
Qed.

Lemma match_eq_counted l0 : forall fuel k m l,
  counted l0 l ->
  returns (fun kl => counted l0 (snd kl) /\ line (snd kl) = line l)
          (match_eq fuel k m l).
Proof.
  induction fuel as [|fuel IH]; intros k m l K; [intros a E; discriminate E|].
  cbn [match_eq]. destruct (peek l =? "=") eqn:C; cbn [andb];
    [|apply returns_Ok; auto].
  destruct (m <? k)%nat; [|apply returns_Ok; auto].
  eapply returns_bind.
  - apply (advance_counted l0 l K).
    apply (test_not_newline (fun c => c =? "=") _ C eq_refl).
  - intros [c l1] (K1 & L1). cbn [snd] in K1, L1.
    intros a E. apply IH in E; [|exact K1]. destruct E as (E1 & E2).
    split; [exact E1|congruence].
Qed.

Lemma closing_test m n l :
  (m =? n)%nat && (peek l =? "]") = true -> peek l <> newline.
Proof.
  intros H. apply andb_prop in H. destruct H as (_ & H).
  apply (test_not_newline (fun c => c =? "]") _ H eq_refl).
Qed.

Lemma comment_body_counted l0 n : forall fuel l,
  counted l0 l -> returns (counted l0) (comment_body fuel n l).
Proof.
  induction fuel as [|fuel IH]; intros l K; [intros a E; discriminate E|].
  cbn [comment_body]. rewrite isAtEnd_rest.
  destruct (rest l) as [|c r] eqn:R; cbn [negb]; [apply returns_Ok; exact K|].
  cbv zeta. rewrite peek_rest, rest_count_newline, R. cbn [hd].
  destruct (c =? "]") eqn:C.
  - apply Ascii.eqb_eq in C. subst c.
    rewrite (count_newline_id l) by (rewrite R; reflexivity).
    rewrite advance_rest, R. cbn [bind].
    assert (K1 : counted l0 (bump l)).
    { apply (counted_bump l0 l _ r K R). discriminate. }
    eapply returns_bind; [apply (match_eq_counted l0 _ _ _ _ K1)|].
    intros [m l2] (K2 & _). cbn [snd] in K2.
    destruct ((m =? n)%nat && (peek l2 =? "]")) eqn:T; [|apply IH; exact K2].
    eapply returns_bind;
      [apply (advance_counted l0 l2 K2 (closing_test _ _ _ T))|].
    intros [c l3] (K3 & _). apply returns_Ok. exact K3.
  - rewrite advance_rest, rest_count_newline, R. cbn [bind].
    apply IH. apply (counted_count_bump l0 l c r K R).
Qed.

Lemma multiline_body_counted l0 n sl : forall fuel l,
  counted l0 l -> returns (counted l0) (multiline_body fuel n sl l).
Proof.
  induction fuel as [|fuel IH]; intros l K; [intros a E; discriminate E|].
  cbn [multiline_body]. rewrite isAtEnd_rest.
  destruct (rest l) as [|c r] eqn:R; cbn [negb]; [apply returns_Err|].
  cbv zeta. rewrite peek_rest, rest_count_newline, R. cbn [hd].
  destruct (c =? "]") eqn:C.
  - apply Ascii.eqb_eq in C. subst c.
    rewrite (count_newline_id l) by (rewrite R; reflexivity).
    rewrite advance_rest, R. cbn [bind].
    assert (K1 : counted l0 (bump l)).
    { apply (counted_bump l0 l _ r K R). discriminate. }
    eapply returns_bind; [apply (match_eq_counted l0 _ _ _ _ K1)|].
    intros [m l2] (K2 & L2). cbn [snd] in K2, L2.
    destruct ((m =? n)%nat && (peek l2 =? "]")) eqn:T.
    + eapply returns_bind;
        [apply (advance_counted l0 l2 K2 (closing_test _ _ _ T))|].
      intros [c l3] (K3 & _). apply returns_Ok. exact K3.
    + apply IH. destruct K as (S0 & A & C & N).
      destruct K2 as (S2 & A2 & C2 & N2). unfold counted.
      assert (RR : rest (set_current l2 (current l + 1)) = r).
      { unfold rest. simpl. rewrite S2, <- S0.
        replace (current l + 1) with (S (current l)) by lia.
        change (rest (bump l) = r). rewrite rest_bump, R. reflexivity. }
      rewrite RR. rewrite R, newlines_cons in N. simpl in *.
      repeat split; auto; lia.
  - rewrite advance_rest, rest_count_newline, R. cbn [bind].
    apply IH. apply (counted_count_bump l0 l c r K R).
Qed.

Lemma skip_line_counted l0 l :
  counted l0 l -> returns (counted l0) (skip_line l).
Proof.
  intros K a E. unfold skip_line in E.
  apply (while_advance_counted _ l0) in E; [apply E| |exact K].
  intros l1 C. apply andb_prop in C. destruct C as (C & _).
  intros P. rewrite P in C. discriminate C.
Qed.

Lemma bracket_test l :
  (peek l =? "[") = true -> peek l <> newline.
Proof. intros H. apply (test_not_newline (fun c => c =? "[") _ H eq_refl). Qed.

Lemma comment_counted l0 l :
  counted l0 l -> returns (counted l0) (comment l).
Proof.
  intros K. unfold comment.
  destruct ((peek l =? "[") && ((peekNext l =? "[") || (peekNext l =? "=")))
    eqn:T; [|apply skip_line_counted; exact K].
  apply andb_prop in T. destruct T as (T & _).
  eapply returns_bind; [apply (advance_counted l0 l K (bracket_test l T))|].
  intros [c l1] (K1 & _). cbn [snd] in K1.
  eapply returns_bind; [apply (count_eq_counted l0 _ _ _ K1)|].
  intros [m l2] (K2 & _). cbn [snd] in K2.
  destruct (peek l2 =? "[") eqn:B; cbn [negb];
    [|apply skip_line_counted; exact K2].
  eapply returns_bind; [apply (advance_counted l0 l2 K2 (bracket_test l2 B))|].
  intros [c3 l3] (K3 & _). apply comment_body_counted. exact K3.
Qed.

Lemma multilineString_counted l0 r :
  start l0 = current l0 -> rest l0 = "[" :: r ->
  returns (counted l0) (multilineString (bump l0)).
Proof.
  intros ST R. unfold multilineString.
  assert (K1 : counted l0 (bump l0)).
  { apply (counted_bump l0 l0 _ r (counted_refl l0) R). discriminate. }
  eapply returns_bind; [apply (count_eq_counted l0 _ _ _ K1)|].
  intros [m l2] (K2 & L2). cbn [snd] in K2, L2.
  destruct (peek l2 =? "[") eqn:B; cbn [negb].
  - eapply returns_bind;
      [apply (advance_counted l0 l2 K2 (bracket_test l2 B))|].
    intros [c3 l3] (K3 & _). apply multiline_body_counted. exact K3.
  - apply returns_Ok. apply counted_addTokenValue.
    destruct K2 as (S2 & A2 & C2 & N2). unfold counted.
    assert (RR : rest (set_current l2 (start l2 + 1)) = r).
    { unfold rest. simpl. rewrite S2, A2, ST.
      replace (current l0 + 1) with (S (current l0)) by lia.
      change (rest (bump l0) = r). rewrite rest_bump, R. reflexivity. }
    rewrite RR. rewrite R, newlines_cons. simpl in *.
    repeat split; auto; lia.
Qed.

Lemma no_escaped_newline_skipn n : forall s,
  no_escaped_newline s -> no_escaped_newline (skipn n s).
Proof.
  induction n as [|n IH]; intros [|c s] H; simpl; auto.
  apply IH. apply H.
Qed.

Lemma no_backslash_no_escaped s :
  ~ In backslash s -> no_escaped_newline s.
Proof.
  induction s as [|c s IH]; intros H; simpl; [exact I|]. split.
  - intros ->. exfalso. apply H. left. reflexivity.
  - apply IH. intros J. apply H. right. exact J.
Qed.

Lemma counted_rest l0 l :
  counted l0 l -> rest l = skipn (current l - current l0) (rest l0).
Proof.
  intros (S0 & _ & C & _). unfold rest. rewrite S0, skipn_skipn.
  f_equal. lia.
Qed.

Lemma counted_escapes l0 l :
  no_escaped_newline (rest l0) -> counted l0 l ->
  no_escaped_newline (rest l).
Proof.
  intros H K. rewrite (counted_rest l0 l K).
  apply no_escaped_newline_skipn. exact H.
Qed.

Lemma string_loop_counted q l0 :
  no_escaped_newline (rest l0) ->
  forall fuel l,
    counted l0 l ->
    returns (fun l' => counted l0 l' /\ (isAtEnd l' = false -> peek l' = q))
            (string_loop fuel q l).
Proof.
  intros NB. induction fuel as [|fuel IH]; intros l1 K1;
    [intros a E; discriminate E|].
  cbn [string_loop]. rewrite peek_rest, isAtEnd_rest.
  destruct (rest l1) as [|c r] eqn:R; cbn [hd negb].
  { rewrite andb_false_r. apply returns_Ok. split; [exact K1|].
    rewrite isAtEnd_rest, R. discriminate. }
  rewrite andb_true_r. destruct (c =? q) eqn:C; cbn [negb].
  { apply returns_Ok. split; [exact K1|]. intros _.
    rewrite peek_rest, R. apply Ascii.eqb_eq in C. exact C. }
  destruct (c =? newline) eqn:N; [apply returns_Err|].
  assert (K2 : counted l0 (bump l1)).
  { apply (counted_bump l0 l1 c r K1 R). apply Ascii.eqb_neq. exact N. }
  destruct (c =? backslash) eqn:B.
  - apply Ascii.eqb_eq in B. subst c.
    rewrite advance_rest, R. cbn [bind].
    rewrite advance_rest, rest_bump, R. cbn [tl].
    destruct r as [|d r']; [apply returns_Panic|]. cbn [bind].
    apply IH. apply (counted_bump l0 (bump l1) d r' K2).
    + rewrite rest_bump, R. reflexivity.
    + pose proof (counted_escapes l0 l1 NB K1) as H. rewrite R in H.
      apply (proj1 H eq_refl).
  - cbn [bind]. rewrite advance_rest, R. cbn [bind]. apply IH. exact K2.
Qed.

Lemma string_counted q l0 l :
  no_escaped_newline (rest l0) -> q <> newline -> counted l0 l ->
  returns (counted l0) (string_ q l).
Proof.
  intros NB Q K. unfold string_.
  eapply returns_bind; [apply (string_loop_counted q l0 NB); exact K|].
  intros l1 (K1 & P1). destruct (isAtEnd l1) eqn:A; [apply returns_Err|].
  eapply returns_bind.
  - apply (advance_counted l0 l1 K1). rewrite (P1 eq_refl). exact Q.
  - intros [c l2] (K2 & _). apply returns_Ok. exact K2.
Qed.

Lemma template_interp_counted l0 : forall fuel d b l,
  counted l0 l ->
  returns (fun bl => counted l0 (snd bl)) (template_interp fuel d b l).
Proof.
  induction fuel as [|fuel IH]; intros d b l K; [intros a E; discriminate E|].
  cbn [template_interp].
  destruct ((0 <? d)%nat && negb (isAtEnd l)); [|apply returns_Ok; exact K].
  rewrite advance_rest.
  destruct (rest l) as [|c r] eqn:R; [apply returns_Panic|]. cbn [bind].
  destruct (c =? "{") eqn:C1.
  { apply IH. apply (counted_bump l0 l c r K R).
    apply (test_not_newline (fun c => c =? "{") _ C1 eq_refl). }
  destruct (c =? "}") eqn:C2.
  { apply IH. apply (counted_bump l0 l c r K R).
    apply (test_not_newline (fun c => c =? "}") _ C2 eq_refl). }
  destruct (c =? newline) eqn:C3.
  - apply Ascii.eqb_eq in C3. subst c. apply IH.
    apply (counted_newline l0 l r 0 K R).
  - apply IH. apply (counted_bump l0 l c r K R).
    apply Ascii.eqb_neq. exact C3.
Qed.

Lemma template_loop_counted l0 :
  no_escaped_newline (rest l0) ->
  forall fuel b l,
    counted l0 l ->
    returns (fun bl => counted l0 (snd bl) /\
                       (isAtEnd (snd bl) = false ->
                        peek (snd bl) = backquote))
            (template_loop fuel b l).
Proof.
  intros NB. induction fuel as [|fuel IH]; intros b l1 K1;
    [intros a E; discriminate E|].
  cbn [template_loop]. rewrite peek_rest, isAtEnd_rest.
  destruct (rest l1) as [|c r] eqn:R; cbn [hd negb].
  { rewrite andb_false_r. apply returns_Ok. split; [exact K1|].
    cbn [snd]. rewrite isAtEnd_rest, R. discriminate. }
  rewrite andb_true_r. destruct (c =? backquote) eqn:C; cbn [negb].
  { apply returns_Ok. split; [exact K1|]. intros _. cbn [snd].
    rewrite peek_rest, R. apply Ascii.eqb_eq in C. exact C. }
  cbv zeta. rewrite peek_rest, peekNext_rest, rest_count_newline, R.
  cbn [hd tl].
  destruct (c =? backslash) eqn:B.
  { apply Ascii.eqb_eq in B. subst c.
    rewrite (count_newline_id l1) by (rewrite R; reflexivity).
    rewrite advance_rest, R. cbn [bind].
    assert (K2 : counted l0 (bump l1)).
    { apply (counted_bump l0 l1 _ r K1 R). discriminate. }
    rewrite isAtEnd_rest, rest_bump, R. cbn [tl].
    destruct r as [|d r']; cbn [negb]; [apply IH; exact K2|].
    rewrite advance_rest, rest_bump, R. cbn [tl bind].
    apply IH. apply (counted_bump l0 (bump l1) d r' K2).
    - rewrite rest_bump, R. reflexivity.
    - pose proof (counted_escapes l0 l1 NB K1) as H. rewrite R in H.
      apply (proj1 H eq_refl). }
  destruct ((c =? "$") && (hd zero r =? "{")) eqn:D.
  - apply andb_prop in D. destruct D as (D1 & D2).
    apply Ascii.eqb_eq in D1. subst c.
    rewrite (count_newline_id l1) by (rewrite R; reflexivity).
    rewrite advance_rest, R. cbn [bind].
    destruct r as [|c2 r2]; [discriminate D2|]. cbn [hd] in D2.
    apply Ascii.eqb_eq in D2. subst c2.
    rewrite advance_rest, rest_bump, R. cbn [tl bind].
    assert (K2 : counted l0 (bump (bump l1))).
    { apply (counted_bump l0 (bump l1) "{" r2).
      - apply (counted_bump l0 l1 "$" _ K1 R). discriminate.
      - rewrite rest_bump, R. reflexivity.
      - discriminate. }
    eapply returns_bind; [apply (template_interp_counted l0 _ _ _ _ K2)|].
    intros [b3 l3] K3. cbn [snd] in K3. apply IH. exact K3.
  - rewrite advance_rest, rest_count_newline, R. cbn [bind].
    apply IH. apply (counted_count_bump l0 l1 c r K1 R).
Qed.

Lemma templateString_counted l0 l :
  no_escaped_newline (rest l0) -> counted l0 l ->
  returns (counted l0) (templateString l).
Proof.
  intros NB K. unfold templateString.
  eapply returns_bind; [apply (template_loop_counted l0 NB); exact K|].
  intros [b1 l1] (K1 & P1). cbn [snd] in K1, P1.
  destruct (isAtEnd l1) eqn:A; [apply returns_Err|].
  eapply returns_bind.
  - apply (advance_counted l0 l1 K1). rewrite (P1 eq_refl). discriminate.
  - intros [c l2] (K2 & _). apply returns_Ok. exact K2.
Qed.

Lemma peek_test_counted (b : ascii -> bool) l0 l :
  counted l0 l -> b (peek l) = true -> b newline = false ->
  returns (fun cl => counted l0 (snd cl)) (advance l).
Proof.
  intros K T F a E.
  apply (advance_counted l0 l K (test_not_newline b _ T F)) in E. apply E.
Qed.

Lemma while_peek_counted (p : ascii -> bool) l0 l fuel :
  p newline = false -> counted l0 l ->
  returns (counted l0) (while_advance (fun l => p (peek l)) fuel l).
Proof.
  intros F K a E.
  apply (while_advance_counted _ l0) in E; [apply E| |exact K].
  intros l1 C. apply (test_not_newline p _ C F).
Qed.

Lemma number_counted l0 l :
  counted l0 l -> returns (counted l0) (number l).
Proof.
  intros K.
  assert (BASED : forall (p b : ascii -> bool),
             b (peek l) = true -> b newline = false -> p newline = false ->
             returns (counted l0)
               ('(_, l1) <- advance l ;;
                l2 <- while_advance (fun l => p (peek l)) (fuel_of l1) l1 ;;
                Ok (addToken TOKEN_NUMBER l2))).
  { intros p b T Fb Fp.
    eapply returns_bind; [apply (peek_test_counted b l0 l K T Fb)|].
    intros [c l1] K1. cbn [snd] in K1.
    eapply returns_bind; [apply (while_peek_counted p l0 l1 _ Fp K1)|].
    intros l2 K2. apply returns_Ok. exact K2. }
  assert (DEC : returns (counted l0) (number_decimal l)).
  { unfold number_decimal, peek_digits.
    eapply returns_bind;
      [apply (while_peek_counted isDigit l0 l _ eq_refl K)|].
    intros l1 K1.
    eapply returns_bind with (Q1 := counted l0).
    - destruct ((peek l1 =? ".") && isDigit (peekNext l1)) eqn:T;
        [|apply returns_Ok; exact K1].
      apply andb_prop in T. destruct T as (T & _).
      eapply returns_bind;
        [apply (peek_test_counted (fun c => c =? ".") l0 l1 K1 T eq_refl)|].
      intros [c l2] K2. apply (while_peek_counted isDigit l0 l2 _ eq_refl K2).
    - intros l2 K2.
      eapply returns_bind with (Q1 := counted l0).
      + destruct ((peek l2 =? "e") || (peek l2 =? "E")) eqn:T;
          [|apply returns_Ok; exact K2].
        eapply returns_bind;
          [apply (peek_test_counted (fun c => (c =? "e") || (c =? "E"))
                    l0 l2 K2 T eq_refl)|].
        intros [c l3] K3. cbn [snd] in K3.
        eapply returns_bind with (Q1 := counted l0).
        * destruct ((peek l3 =? "+") || (peek l3 =? "-")) eqn:T3;
            [|apply returns_Ok; exact K3].
          eapply returns_bind;
            [apply (peek_test_counted (fun c => (c =? "+") || (c =? "-"))
                      l0 l3 K3 T3 eq_refl)|].
          intros [c4 l4] K4. apply returns_Ok. exact K4.
        * intros l4 K4.
          apply (while_peek_counted isDigit l0 l4 _ eq_refl K4).
      + intros l3 K3. apply returns_Ok. exact K3. }
  unfold number. destruct (nth_error (source l) (start l));
    [|apply returns_Panic].
  destruct ((a =? "0") && (current l <? length (source l))%nat); [|exact DEC].
  destruct ((peek l =? "x") || (peek l =? "X")) eqn:T1.
  { apply (BASED isHexDigit (fun c => (c =? "x") || (c =? "X"))); auto. }
  destruct ((peek l =? "b") || (peek l =? "B")) eqn:T2.
  { apply (BASED (fun c => (c =? "0") || (c =? "1"))
             (fun c => (c =? "b") || (c =? "B"))); auto. }
  destruct ((peek l =? "o") || (peek l =? "O")) eqn:T3.
  { apply (BASED (fun c => ble "0" c && ble c "7")
             (fun c => (c =? "o") || (c =? "O"))); auto. }
  exact DEC.
Qed.

Lemma identifier_counted l0 l :
  counted l0 l -> returns (counted l0) (identifier l).
Proof.
  intros K. unfold identifier.
  eapply returns_bind;
    [apply (while_peek_counted isAlphaNumeric l0 l _ eq_refl K)|].
  intros l1 K1. apply returns_Ok. exact K1.
Qed.

Lemma match_counted l0 l expected :
  counted l0 l -> expected <> newline ->
  counted l0 (snd (match_ expected l)).
Proof.
  intros K N. rewrite match_rest.
  destruct (rest l) as [|c r] eqn:R; cbn [snd]; [exact K|].
  destruct (c =? expected) eqn:C; cbn [snd]; [|exact K].
  apply Ascii.eqb_eq in C. subst c. apply (counted_bump l0 l _ r K R N).
Qed.

Lemma match_add_counted l0 l expected yes no :
  counted l0 l -> expected <> newline ->
  returns (counted l0) (match_add expected yes no l).
Proof.
  intros K N. unfold match_add.
  pose proof (match_counted l0 l expected K N) as M.
  destruct (match_ expected l) as [m l1]. cbn [snd] in M.
  destruct m; apply returns_Ok; exact M.
Qed.

Ltac count_match l0 :=
  match goal with
  | K : counted l0 ?x |- context [match_ ?e ?x] =>
      let M := fresh "M" in
      let m := fresh "m" in let l := fresh "l" in
      assert (M : counted l0 (snd (match_ e x)))
        by (apply (match_counted l0 x e K); discriminate);
      destruct (match_ e x) as [m l]; cbn [snd] in M; destruct m
  end.

Ltac count_leaf :=
  first
    [ solve [ apply returns_Err ]
    | solve [ apply returns_Ok;
              first [eassumption|apply counted_addTokenValue; eassumption] ]
    | solve [ apply match_add_counted; [eassumption|discriminate] ]
    | solve [ apply number_counted; eassumption ]
    | solve [ apply identifier_counted; eassumption ]
    | solve [ apply comment_counted; eassumption ] ].

Lemma scanToken_counted l0 c r :
  start l0 = current l0 -> rest l0 = c :: r ->
  no_escaped_newline (rest l0) ->
  returns (counted l0) (scanToken l0).
Proof.
  intros ST R NB. unfold scanToken. rewrite advance_rest, R. cbn [bind].
  destruct (ascii_dec c newline) as [->|NL].
  { cbn [Ascii.eqb Bool.eqb andb orb]. apply returns_Ok.
    apply (counted_newline l0 l0 r 1 (counted_refl l0) R). }
  set (l1 := bump l0).
  assert (K1 : counted l0 l1)
    by apply (counted_bump l0 l0 c r (counted_refl l0) R NL).
  rewrite (eqb_neq_false _ _ NL).
  repeat match goal with
         | |- returns _ (if ?b then _ else _) => destruct b eqn:?
         | |- returns _ (match_add _ _ _ _) => fail 1
         | |- returns _ (let '(_, _) := match_ _ _ in _) => count_match l0
         end;
    try count_leaf.
  - (* long bracket *)
    match goal with
    | H : (c =? "[") = true |- _ => apply Ascii.eqb_eq in H; subst c
    end.
    apply (multilineString_counted l0 r ST R).
  - (* quoted string *)
    apply (string_counted c l0 l1 NB NL K1).
  - (* template string *)
    apply (templateString_counted l0 l1 NB K1).
Qed.

Lemma scan_step_counted l c r l' :
  rest l = c :: r -> no_escaped_newline (rest l) -> scan_step l = Ok l' ->
  line l' + newlines (rest l') = line l + newlines (rest l).
Proof.
  intros R NB E. unfold scan_step in E.
  apply (scanToken_counted (set_start l (current l) (column l)) c r) in E;
    auto.
  destruct E as (_ & _ & _ & N). exact N.
Qed.

Lemma newlines_split n s :
  newlines s = newlines (firstn n s) + newlines (skipn n s).
Proof. rewrite <- newlines_app, firstn_skipn. reflexivity. Qed.

Lemma numbered_step src l c r l' :
  no_escaped_newline src -> numbered src l -> rest l = c :: r ->
  scan_step l = Ok l' -> numbered src l'.
Proof.
  intros NB (S0 & W0 & L0 & P0) R E.
  assert (IN : no_escaped_newline (rest l)).
  { unfold rest. rewrite S0. apply no_escaped_newline_skipn. exact NB. }
  pose proof (scan_step_counted l c r l' R IN E) as N.
  pose proof (scan_step_post l c r R) as T. rewrite E in T. cbn [post] in T.
  destruct T as (S1 & n & C1 & (N1 & N2) & _ & T).
  assert (LR : length (rest l) = length src - current l).
  { unfold rest. rewrite length_skipn, S0. reflexivity. }
  assert (L1 : line l' = 1 + newlines (firstn (current l') src)).
  { pose proof (newlines_split (current l) src) as A.
    pose proof (newlines_split (current l') src) as A'.
    unfold rest in N. rewrite S1, S0 in N. lia. }
  unfold numbered. split; [congruence|]. split; [lia|]. split; [exact L1|].
  destruct T as [T|(k & _ & T)]; rewrite T; [exact P0|].
  apply Forall_app. split; [exact P0|]. constructor; [|constructor].
  exists (firstn (current l) src), (skipn n (rest l)). cbn [Value Line].
  split.
  - rewrite firstn_skipn. unfold rest. rewrite S0, firstn_skipn. reflexivity.
  - rewrite L1, C1, firstn_plus. unfold rest. rewrite S0. reflexivity.
Qed.

Lemma numbered_loop src :
  no_escaped_newline src ->
  forall fuel l l',
    numbered src l -> Tokenize_loop fuel l = Ok l' ->
    numbered src l' /\ rest l' = [].
Proof.
  intros NB. induction fuel as [|fuel IH]; intros l l' X E;
    [discriminate E|].
  cbn [Tokenize_loop] in E. rewrite isAtEnd_rest in E.
  destruct (rest l) as [|c r] eqn:R; cbn [negb] in E.
  - injection E as <-. auto.
  - destruct (scan_step l) as [l1| | |] eqn:S1; cbn [bind] in E;
      try discriminate E.
    apply (IH l1 l' (numbered_step src l c r l1 NB X R S1) E).
Qed.

(** X20: lines.  In a text without backslashes every newline is counted
    once: over a scan step, the line counter grows by the number of
    newlines the step read.  For a source without backslashes, the line of
    each token [Tokenize] returns is the line its text ends on, counted
    from 1, and the line of the final token is the last line of the
    source. *)
Theorem newlines_counted_once :
  (forall l c r l',
      rest l = c :: r -> ~ In backslash (rest l) -> scan_step l = Ok l' ->
      line l' + newlines (rest l') = line l + newlines (rest l)) /\
  (forall src toks,
      ~ In backslash src -> tokenize src = Ok toks ->
      exists body col,
        toks = body ++ [mkToken TOKEN_EOF [] (1 + newlines src) col] /\
        Forall (lined src) body).
Proof.
  split.
  { intros l c r l' R NB E.
    apply (scan_step_counted l c r l' R (no_backslash_no_escaped _ NB) E). }
  intros src toks NB E. apply no_backslash_no_escaped in NB.
  unfold tokenize, Tokenize in E.
  destruct (Tokenize_loop (fuel_of (NewLexer src)) (NewLexer src))
    as [l| | |] eqn:L; cbn [bind] in E; try discriminate E.
  injection E as <-.
  assert (X0 : numbered src (NewLexer src)).
  { unfold numbered. simpl. repeat split; auto. lia. }
  destruct (numbered_loop src NB _ _ _ X0 L) as ((S1 & W1 & L1 & P1) & R1).
  exists (tokens l), (column l). split; [|exact P1].
  assert (C : current l = length src).
  { pose proof (length_skipn (current l) (source l)) as A.
    fold (rest l) in A. rewrite R1, S1 in A. simpl in A. lia. }
  rewrite L1, C, firstn_all. reflexivity.
Qed.

Lemma newlines_counted_once_witness :
  exists body col,
    [mkToken TOKEN_STRING (str "[[a" ++ [newline] ++ str "]]") 2 1;
     mkToken TOKEN_IDENT (str "b") 3 1; mkToken TOKEN_EOF [] 3 2]
    = body ++
      [mkToken TOKEN_EOF []
         (1 + newlines (str "[[a" ++ [newline] ++ str "]]" ++ [newline]
                          ++ str "b")) col] /\
    Forall (lined (str "[[a" ++ [newline] ++ str "]]" ++ [newline] ++ str "b"))
           body.
Proof.
  apply (proj2 newlines_counted_once
           (str "[[a" ++ [newline] ++ str "]]" ++ [newline] ++ str "b")).
  - intros H. repeat (destruct H as [H|H]; [discriminate H|]). exact H.
  - reflexivity.
Defined.

(** * [ConvertNumber] on every literal *)

Lemma forallb_false_In {A : Type} (f : A -> bool) (s : list A) :
  forallb f s = false -> exists a, In a s /\ f a = false.
Proof.
  induction s as [|a s IH]; simpl; [discriminate|].
  destruct (f a) eqn:E; simpl.
  - intros H. destruct (IH H) as (b & I & F). exists b. auto.
  - intros _. exists a. auto.
Qed.

Lemma ParseInt_after_ParseUint c0 s1 base :
  ParseInt (c0 :: s1) base =
  let '(un, err) := ParseUint (unsigned_part (c0 :: s1)) base in
  match err with
  | Some ErrSyntax => (0%Z, err)
  | _ =>
      if negb (c0 =? "-") && (2 ^ 63 <=? un)%Z
      then ((2 ^ 63 - 1)%Z, Some ErrRange)
      else if (c0 =? "-") && (2 ^ 63 <? un)%Z
           then ((- 2 ^ 63)%Z, Some ErrRange)
           else (if c0 =? "-" then (- un)%Z else un, None)
  end.
Proof. reflexivity. Qed.

Lemma ParseInt_signed base ds :
  (2 <= base <= 10)%Z ->
  match signed_value base ds with
  | Some v => ParseInt ds base = (v, None)
  | None => exists v e, ParseInt ds base = (v, Some e)
  end.
Proof.
  intros B. destruct ds as [|c0 s1];
    [exists 0%Z, ErrSyntax; reflexivity|].
  rewrite ParseInt_after_ParseUint. unfold signed_value.
  cbn [negative]. set (body := unsigned_part (c0 :: s1)).
  destruct body as [|a s2] eqn:Eb;
    [exists 0%Z, ErrSyntax; reflexivity|].
  unfold ParseUint.
  assert (M63 : (2 ^ 63 <= maxUint64)%Z) by (vm_compute; discriminate).
  destruct (forallb (is_digit_of base) (a :: s2)) eqn:D; cbn [negb].
  - change (digits_value base (a :: s2))
      with (digits_from base 0 (a :: s2)).
    destruct (Z.le_gt_cases (digits_from base 0 (a :: s2)) maxUint64)
      as [M|M].
    + rewrite ParseUint_loop_digits; auto; [|lia].
      destruct (c0 =? "-"); cbn [negb andb].
      * destruct (Z.ltb_spec (2 ^ 63) (digits_from base 0 (a :: s2)));
          destruct (Z.leb_spec (digits_from base 0 (a :: s2)) (2 ^ 63));
          try lia; eauto.
      * destruct (Z.leb_spec (2 ^ 63) (digits_from base 0 (a :: s2)));
          destruct (Z.ltb_spec (digits_from base 0 (a :: s2)) (2 ^ 63));
          try lia; eauto.
    + rewrite ParseUint_loop_over; auto; [|unfold maxUint64; lia].
      destruct (c0 =? "-"); cbn [negb andb].
      * destruct (Z.ltb_spec (2 ^ 63) maxUint64);
          [|vm_compute in H; contradiction H; reflexivity].
        destruct (Z.leb_spec (digits_from base 0 (a :: s2)) (2 ^ 63));
          [lia|eauto].
      * destruct (Z.leb_spec (2 ^ 63) maxUint64); [|lia].
        destruct (Z.ltb_spec (digits_from base 0 (a :: s2)) (2 ^ 63));
          [lia|eauto].
  - destruct (forallb_false_In _ _ D) as (c & I & F).
    destruct (ParseUint_loop_bad base c (a :: s2) 0%Z ltac:(lia) I F)
      as (v & e & -> & R).
    destruct e; [eauto|]. rewrite (R eq_refl).
    destruct (c0 =? "-"); cbn [negb andb].
    + destruct (Z.ltb_spec (2 ^ 63) maxUint64);
        [eauto|vm_compute in H; contradiction H; reflexivity].
    + destruct (Z.leb_spec (2 ^ 63) maxUint64); [eauto|lia].
Qed.

(** C3: [ConvertNumber] on every text.  After the prefix of a binary or
    octal literal comes a digit string with an optional sign.  If it has at
    least one digit, every byte after the sign is a digit of the base, and
    the value fits a signed 64-bit integer, the result is the decimal string
    of the signed value, which reads back as that value.  In every other
    case the result is the error that names the literal: no digit, a byte
    that is no digit of the base, or a value out of range.  A hexadecimal
    literal, and any text without a binary or octal prefix, comes back as
    it is.  The three examples of the specification. *)
Theorem ConvertNumber_bases :
  ConvertNumber (str "0b1011") = Success (str "11") /\
  ConvertNumber (str "0o17") = Success (str "15") /\
  ConvertNumber (str "0xFF") = Success (str "0xFF") /\
  (forall p base ds,
      prefix_base p = Some base ->
      ConvertNumber ("0" :: p :: ds) =
      match signed_value base ds with
      | Some v => Success (FormatInt v)
      | None => Failure (invalid_literal base ("0" :: p :: ds))
      end) /\
  (forall p ds,
      p = "x" \/ p = "X" ->
      ConvertNumber ("0" :: p :: ds) = Success ("0" :: p :: ds)) /\
  (forall value,
      (forall p ds, value = "0" :: p :: ds -> prefix_base p = None) ->
      ConvertNumber value = Success value) /\
  (forall n,
      option_map Z.of_int
        (NilZero.int_of_string (string_of_list_ascii (FormatInt n)))
      = Some n).
Proof.
  split; [reflexivity|]. split; [reflexivity|]. split; [reflexivity|].
  split; [|split; [|split]].
  - intros p base ds PB. unfold prefix_base in PB. unfold ConvertNumber.
    change ("0" =? "0") with true. cbn iota.
    destruct ((p =? "b") || (p =? "B")).
    + injection PB as <-.
      pose proof (ParseInt_signed 2%Z ds ltac:(lia)) as P.
      destruct (signed_value 2 ds) as [v|].
      * rewrite P. reflexivity.
      * destruct P as (v & e & ->). reflexivity.
    + destruct ((p =? "o") || (p =? "O")); [|discriminate PB].
      injection PB as <-.
      pose proof (ParseInt_signed 8%Z ds ltac:(lia)) as P.
      destruct (signed_value 8 ds) as [v|].
      * rewrite P. reflexivity.
      * destruct P as (v & e & ->). reflexivity.
  - intros p ds [-> | ->]; reflexivity.
  - intros value H. unfold ConvertNumber.
    destruct value as [|v0 [|v1 ds]]; try reflexivity.
    destruct (v0 =? "0") eqn:V0; [|reflexivity].
    apply Ascii.eqb_eq in V0. subst v0.
    specialize (H v1 ds eq_refl). unfold prefix_base in H.
    destruct ((v1 =? "b") || (v1 =? "B")); [discriminate H|].
    destruct ((v1 =? "o") || (v1 =? "O")); [discriminate H|].
    destruct ((v1 =? "x") || (v1 =? "X")); reflexivity.
  - apply FormatInt_reads_back.
Qed.

(** C3, counterexample: a minus sign is no binary digit, and the literal
    that has one after its prefix is converted without an error.  The
    literal made of the prefix alone has no invalid digit and is refused. *)
Lemma signed_binary_literal_is_converted :
  is_digit_of 2 "-" = false /\
  ConvertNumber (str "0b-1") = Success (str "-1") /\
  ConvertNumber (str "0b+1") = Success (str "1") /\
  ConvertNumber (str "0b") = Failure (str "invalid binary literal: 0b").
Proof. repeat split; reflexivity. Qed.

Lemma ConvertNumber_bases_witness :
  ConvertNumber (str "0b-101") = Success (FormatInt (-5)) /\
  ConvertNumber (str "0o1-7")
  = Failure (invalid_literal 8 (str "0o1-7")) /\
  ConvertNumber (str "17") = Success (str "17").
Proof.
  destruct ConvertNumber_bases as (_ & _ & _ & B & _ & U & _).
  split; [|split].
  - exact (B "b" 2%Z (str "-101") eq_refl).
  - exact (B "o" 8%Z (str "1-7") eq_refl).
  - apply U. intros p ds E. injection E as _ <- _. reflexivity.
Defined.

(** * The line of an unterminated string *)







